(** * wcpos/query: replication and query engine

    A shallow embedding of
    - [src/query-replication-state.ts]  (class [QueryReplicationState]),
    - [src/query-state.ts]              (class [Query]),
    - the unnamed source part, which holds the [Manager] class and a later
      revision of the [Query] class,
    followed by the properties of the engine that are established on it.

    Asynchronous code is modelled one settled step at a time: an [await]
    either resolves with a value or rejects with an error, and the
    collaborators that the engine only consumes (HTTP client, local store,
    search service, clock) are supplied as an environment. *)

From Stdlib Require Import ZArith Ascii.
From stdpp Require Import base option list strings pretty gmap.

Local Open Scope string_scope.
Local Open Scope Z_scope.
Local Open Scope nat_scope.
Local Open Scope list_scope.

(* ===================================================================== *)
(** * Part I: definitions                                                *)
(* ===================================================================== *)

(** ** JavaScript values shared by the three sources *)

(** A value of TypeScript type [any]: clause values, selectors, documents
    received from the remote source. An object is given by its own
    properties in the order in which it lists them: array indices first, in
    ascending order, then the other keys in the order of their creation. *)
#[local] Set Warnings "-register-all".
Inductive JsValue : Type :=
| JUndefined
| JNull
| JBool (b : bool)
| JNum (n : Z)
| JStr (s : string)
| JArr (items : list JsValue)
| JObj (entries : list (string * JsValue)).

(** [Array.isArray(v)], returning the elements when it holds. *)
Definition Array_isArray (v : JsValue) : option (list JsValue) :=
  match v with
  | JArr items => Some items
  | _ => None
  end.

(** [v === undefined || v === null] *)
Definition is_nullish (v : JsValue) : bool :=
  match v with
  | JUndefined | JNull => true
  | _ => false
  end.

(** The array index that a property key stands for: a key is one when it
    is the decimal numeral of a number below 2^32 - 1, written without
    leading zeros. *)
Definition digit (c : Ascii.ascii) : option N :=
  let code := Ascii.N_of_ascii c in
  if ((48 <=? code) && (code <=? 57))%N then Some (code - 48)%N else None.

Fixpoint digits (acc : N) (s : string) : option N :=
  match s with
  | EmptyString => Some acc
  | String c rest =>
      match digit c with
      | Some d => digits (10 * acc + d)%N rest
      | None => None
      end
  end.

Definition array_index (key : string) : option N :=
  match key with
  | EmptyString => None
  | String c rest =>
      match digits 0 key with
      | Some n =>
          if bool_decide (c ≠ "0"%char ∨ rest = EmptyString)
             && (n <? 4294967295)%N
          then Some n else None
      | None => None
      end
  end.

(** [obj[key] = v] for a key the object has: the property keeps its place
    and takes the value. *)
Fixpoint obj_assign {V : Type} (key : string) (v : V) (obj : list (string * V))
  : list (string * V) :=
  match obj with
  | [] => []
  | (k, w) :: rest =>
      if String.eqb k key then (k, v) :: rest else (k, w) :: obj_assign key v rest
  end.

(** The place of a new property whose key is the array index [n]: behind
    the array indices below [n], before every other property. *)
Fixpoint obj_insert_index {V : Type} (n : N) (key : string) (v : V)
    (obj : list (string * V)) : list (string * V) :=
  match obj with
  | [] => [(key, v)]
  | (k, w) :: rest =>
      match array_index k with
      | Some m =>
          if (m <? n)%N then (k, w) :: obj_insert_index n key v rest
          else (key, v) :: obj
      | None => (key, v) :: obj
      end
  end.

(** [obj[key] = v] on an object: a property that exists keeps its place and
    takes the new value; a new property is listed among the array indices
    when its key is one, and last otherwise. The objects are plain ones,
    and the key is not [__proto__], which an assignment hands to the
    prototype instead. *)
Definition obj_set {V : Type} (key : string) (v : V) (obj : list (string * V))
  : list (string * V) :=
  if bool_decide (key ∈ obj.*1) then obj_assign key v obj
  else
    match array_index key with
    | Some n => obj_insert_index n key v obj
    | None => obj ++ [(key, v)]
    end.

(** A key that an assignment adds behind the properties an object has:
    not an array index, and not [__proto__]. *)
Definition ordinary_key (key : string) : Prop :=
  array_index key = None ∧ key ≠ "__proto__".

(** [obj[key]], as an optional value: the value of the property with that
    key. *)
Fixpoint obj_lookup {V : Type} (key : string) (obj : list (string * V))
  : option V :=
  match obj with
  | [] => None
  | (k, v) :: rest => if String.eqb k key then Some v else obj_lookup key rest
  end.

Definition obj_get (key : string) (obj : list (string * JsValue))
  : option JsValue :=
  snd <$> List.find (λ entry, bool_decide (entry.1 = key)) obj.

(** The truthiness of a value. *)
Definition truthy (v : JsValue) : bool :=
  match v with
  | JUndefined | JNull | JBool false => false
  | JNum n => negb (bool_decide (n = 0%Z))
  | JStr s => negb (bool_decide (s = ""))
  | _ => true
  end.

Fixpoint characters (s : string) : list JsValue :=
  match s with
  | EmptyString => []
  | String c rest => JStr (String c EmptyString) :: characters rest
  end.

(** The key that a callback of lodash [forEach] receives, and that the
    classes store as [field] of a clause: the name of a property, or the
    number that stands for the position of an indexed element. A number is
    never [===] to a string. *)
Inductive PropertyKey : Type :=
| KeyName (name : string)
| KeyIndex (index : nat).

#[global] Instance PropertyKey_eq_dec : EqDecision PropertyKey.
Proof. solve_decision. Defined.

Coercion KeyName : string >-> PropertyKey.

(** The property that [obj[key]] addresses. *)
Definition property_name (key : PropertyKey) : string :=
  match key with
  | KeyName name => name
  | KeyIndex index => pretty index
  end.

(** lodash [isLength(value)]: a number that is an integer from 0 to
    [Number.MAX_SAFE_INTEGER]. *)
Definition isLength (v : JsValue) : option nat :=
  match v with
  | JNum n =>
      if bool_decide (0 ≤ n ≤ 9007199254740991)%Z then Some (Z.to_nat n)
      else None
  | _ => None
  end.

(** The pairs [(key, value)] that lodash [forEach(collection, (value, key)
    => ...)] visits, for a callback that never returns [false]. An array
    and a string are walked by index; so is every object that is
    array-like, that is, has a [length] which [isLength] accepts: the
    callback gets [collection[index]] for each index below [length]. Of
    any other object the own properties are visited, and nothing is
    visited for a value of another kind. *)
Definition forEach_entries (collection : JsValue)
  : list (PropertyKey * JsValue) :=
  match collection with
  | JObj entries =>
      match isLength (default JUndefined (obj_get "length" entries)) with
      | Some length =>
          (λ index,
             (KeyIndex index,
              default JUndefined (obj_get (pretty index) entries)))
          <$> seq 0 length
      | None => (λ entry, (KeyName entry.1, entry.2)) <$> entries
      end
  | JArr items => imap (λ index item, (KeyIndex index, item)) items
  | JStr s => imap (λ index item, (KeyIndex index, item)) (characters s)
  | _ => []
  end.

(** Structural equality of values, in the manner of lodash [isEqual]:
    arrays are compared element by element, objects property by property,
    whatever the order in which they list their keys. *)
Inductive structurally_equal : JsValue → JsValue → Prop :=
| equal_same v :
    structurally_equal v v
| equal_arrays a b :
    Forall2 structurally_equal a b →
    structurally_equal (JArr a) (JArr b)
| equal_objects a b :
    (∀ key, option_Forall2 structurally_equal
              (obj_lookup key a) (obj_lookup key b)) →
    structurally_equal (JObj a) (JObj b).

(** A JavaScript [Error]. *)
Record Error : Type := mkError { message : string }.

(** The way an awaited promise, or a call that may raise, settles. *)
Inductive outcome (A : Type) : Type :=
| Resolved (a : A)
| Rejected (e : Error).
Arguments Resolved {A} a.
Arguments Rejected {A} e.

(* --------------------------------------------------------------------- *)
(** ** [QueryReplicationState]  (src/query-replication-state.ts)         *)
(* --------------------------------------------------------------------- *)

Module QueryReplicationState.

Definition ID : Type := Z.
Definition Cursor : Type := string.

(** The calls this replicator makes on [httpClient], both on
    [this.endpoint]:
    [post(endpoint, {include, exclude}, {headers: X-HTTP-Method-Override: GET})]
    and [get(endpoint, {params: {modified_after}})].
    A property left out of the call is [undefined], here [None]. *)
Inductive Request : Type :=
| Post (include exclude : option (list ID))
| Get (modified_after : Cursor).

Record Response : Type := mkResponse { data : JsValue }.

(** [response?.data] *)
Definition data_of (response : option Response) : JsValue :=
  match response with
  | Some r => data r
  | None => JUndefined
  end.

(** The instance fields that [fetchUnsynced] reads or writes, and the
    traces of what it does to its collaborators. *)
Record State : Type := mkState {
  isCanceled : bool;
  paused : bool;                  (* subjects.paused, starts true *)
  active : bool;                  (* subjects.active, starts false *)
  syncCompleted : bool;
  errorSubject : list Error;      (* values pushed on the shared error channel *)
  requests : list Request;        (* calls made on httpClient, oldest first *)
  delegated : nat;                (* calls of collectionReplication.fetchUnsynced() *)
  upserted : list (list JsValue); (* batches accepted by collection.bulkUpsert *)
}.

Definition initial : State :=
  {| isCanceled := false; paused := true; active := false;
     syncCompleted := false; errorSubject := []; requests := [];
     delegated := 0; upserted := [] |}.

(** What the collaborators answer during one fetch cycle. *)
Record Env : Type := mkEnv {
  getUnsyncedRemoteIDs : outcome (option (list ID));
  getSyncedRemoteIDs : outcome (option (list ID));
  lastModified : Cursor;
  collection_fetchUnsynced : outcome ();
  httpClient : Request → outcome (option Response);
  parseRestResponse : JsValue → outcome JsValue;
  upsertRefs : JsValue → outcome JsValue;   (* returns the mutated parsedData *)
  upsertRefs_settles : JsValue → nat;
    (* when the promise of [upsertRefs(parsedData)] settles: the promises
       of one page are ordered by these numbers *)
  bulkUpsert : list JsValue → outcome ();
}.

(** State and exception monad for the body of an [async] method. *)
Definition Cycle (A : Type) : Type := State → State * outcome A.

#[global] Instance Cycle_ret : MRet Cycle :=
  λ A a s, (s, Resolved a).

#[global] Instance Cycle_bind : MBind Cycle :=
  λ A B f m s,
    match m s with
    | (s', Resolved a) => f a s'
    | (s', Rejected e) => (s', Rejected e)
    end.

Definition throw {A : Type} (e : Error) : Cycle A :=
  λ s, (s, Rejected e).

(** [await p] for a promise of a collaborator. *)
Definition await {A : Type} (p : outcome A) : Cycle A :=
  λ s, (s, p).

Definition read {A : Type} (proj : State → A) : Cycle A :=
  λ s, (s, Resolved (proj s)).

Definition modify (f : State → State) : Cycle () :=
  λ s, (f s, Resolved ()).

(** [try { body } catch (error) { handler(error) } finally { final }] *)
Definition try_catch_finally (body : Cycle ()) (handler : Error → Cycle ())
    (final : Cycle ()) : Cycle () :=
  λ s,
    let caught :=
      match body s with
      | (s', Resolved _) => (s', Resolved ())
      | (s', Rejected e) => handler e s'
      end in
    match final (caught.1) with
    | (s'', Resolved _) => (s'', caught.2)
    | (s'', Rejected e) => (s'', Rejected e)
    end.

(** The rejection that [Promise.all] reports for the promises
    [items.map(async ...)]: the one that settles first. [settles] orders
    the promises by the moment they settle; of two that are rejected at
    the same moment the one of the earlier element counts, [Promise.all]
    having subscribed to it first. *)
Fixpoint first_rejection {A B : Type} (f : A → outcome B) (settles : A → nat)
    (items : list A) : option (nat * Error) :=
  match items with
  | [] => None
  | x :: rest =>
      let later := first_rejection f settles rest in
      match f x with
      | Resolved _ => later
      | Rejected e =>
          match later with
          | Some (moment, e') =>
              if bool_decide (moment < settles x) then Some (moment, e')
              else Some (settles x, e)
          | None => Some (settles x, e)
          end
      end
  end.

(** The values of the promises that resolve, in the order of the list. *)
Definition resolutions {A B : Type} (f : A → outcome B) (items : list A)
  : list B :=
  omap (λ x, match f x with
             | Resolved y => Some y
             | Rejected _ => None
             end) items.

(** [Promise.all(items.map(async ...))]: the list of the results when
    every promise resolves, else the rejection that settles first. *)
Definition Promise_all {A B : Type} (f : A → outcome B) (settles : A → nat)
    (items : list A) : outcome (list B) :=
  match first_rejection f settles items with
  | Some (_, e) => Rejected e
  | None => Resolved (resolutions f items)
  end.

(** The setters of the instance fields. *)
Definition active_next (b : bool) : Cycle () :=
  modify (λ s, mkState (isCanceled s) (paused s) b (syncCompleted s)
                 (errorSubject s) (requests s) (delegated s) (upserted s)).

Definition paused_next (b : bool) : Cycle () :=
  modify (λ s, mkState (isCanceled s) b (active s) (syncCompleted s)
                 (errorSubject s) (requests s) (delegated s) (upserted s)).

Definition set_syncCompleted (b : bool) : Cycle () :=
  modify (λ s, mkState (isCanceled s) (paused s) (active s) b
                 (errorSubject s) (requests s) (delegated s) (upserted s)).

Definition errorSubject_next (e : Error) : Cycle () :=
  modify (λ s, mkState (isCanceled s) (paused s) (active s) (syncCompleted s)
                 (errorSubject s ++ [e]) (requests s) (delegated s) (upserted s)).

Definition log_request (r : Request) : Cycle () :=
  modify (λ s, mkState (isCanceled s) (paused s) (active s) (syncCompleted s)
                 (errorSubject s) (requests s ++ [r]) (delegated s) (upserted s)).

Definition log_delegation : Cycle () :=
  modify (λ s, mkState (isCanceled s) (paused s) (active s) (syncCompleted s)
                 (errorSubject s) (requests s) (S (delegated s)) (upserted s)).

Definition log_upsert (docs : list JsValue) : Cycle () :=
  modify (λ s, mkState (isCanceled s) (paused s) (active s) (syncCompleted s)
                 (errorSubject s) (requests s) (delegated s) (upserted s ++ [docs])).

(** [isStopped()] *)
Definition isStopped (s : State) : bool := isCanceled s || paused s.

(** [start()], [pause()] *)
Definition start : Cycle () := paused_next false.
Definition pause : Cycle () := paused_next true.

(** Modelled from the spec: [SubscribableBase.cancel], whose source is not
    among the files at hand; the replicator becomes terminal ([isCanceled],
    read by [isStopped]). *)
Definition cancel : Cycle () :=
  modify (λ s, mkState true (paused s) (active s) (syncCompleted s)
                 (errorSubject s) (requests s) (delegated s) (upserted s)).

(** lodash [isEmpty] on an array or [undefined] *)
Definition isEmpty (ids : option (list ID)) : bool :=
  match ids with
  | None | Some [] => true
  | Some (_ :: _) => false
  end.

(** [a?.length < b?.length]; a comparison with [undefined] is false. *)
Definition length_lt (a b : option (list ID)) : bool :=
  match a, b with
  | Some x, Some y => bool_decide (length x < length y)
  | _, _ => false
  end.

(** [fetchUnsyncedRemoteIDs({ include, exclude })] *)
Definition fetchUnsyncedRemoteIDs (env : Env) (include exclude : option (list ID))
  : Cycle (option Response) :=
  log_request (Post include exclude);;
  await (httpClient env (Post include exclude)).

(** [fetchLastModified({ lastModified })] *)
Definition fetchLastModified (env : Env) (lastModified : Cursor)
  : Cycle (option Response) :=
  log_request (Get lastModified);;
  await (httpClient env (Get lastModified)).

(** The request that the [if (isEmpty(include)) ... else ...] of
    [fetchUnsynced] issues. *)
Definition chosen_request (include exclude : option (list ID))
    (lastModified : Cursor) : Request :=
  if isEmpty include then Get lastModified
  else if length_lt exclude include then Post None exclude
  else Post include None.

Definition invalid_response : Error :=
  mkError "Invalid response data for query replication".

(** The callback of [response.data.map(async (doc) => ...)]: the way its
    promise settles. *)
Definition parse_document (env : Env) (doc : JsValue) : outcome JsValue :=
  match parseRestResponse env doc with
  | Rejected e => Rejected e
  | Resolved parsedData => upsertRefs env parsedData
  end.

(** The moment at which the promise of the callback settles.
    [parseRestResponse] is called in the synchronous part of the callback:
    when it raises, the promise is rejected while [map] still runs, before
    any promise that waits for [upsertRefs]. A promise that waits for
    [upsertRefs] settles when that one does. *)
Definition document_settles (env : Env) (doc : JsValue) : nat :=
  match parseRestResponse env doc with
  | Rejected _ => 0
  | Resolved parsedData => S (upsertRefs_settles env parsedData)
  end.

(** [fetchUnsynced()] *)
Definition fetchUnsynced (env : Env) : Cycle () :=
  stopped ← read isStopped;
  running ← read active;
  if stopped || running then mret () else
  active_next true;;
  include ← await (getUnsyncedRemoteIDs env);
  exclude ← await (getSyncedRemoteIDs env);
  let lastModified := lastModified env in
  completed ← read syncCompleted;
  if (completed : bool) then
    active_next false;;
    log_delegation;;
    await (collection_fetchUnsynced env)
  else
    try_catch_finally
      (response ←
         (if isEmpty include then fetchLastModified env lastModified
          else if length_lt exclude include
               then fetchUnsyncedRemoteIDs env None exclude
               else fetchUnsyncedRemoteIDs env include None);
       match Array_isArray (data_of response) with
       | None => throw invalid_response
       | Some docs =>
           (if bool_decide (length docs = 0)
            then set_syncCompleted true else mret ());;
           documents ← await (Promise_all (parse_document env) (document_settles env) docs);
           await (bulkUpsert env documents);;
           log_upsert documents
       end)
      (λ error, errorSubject_next error)
      (active_next false).

(** The calls that a client makes on a replicator over time. *)
Inductive Call : Type :=
| CallFetchUnsynced (env : Env)
| CallStart
| CallPause
| CallCancel.

Definition call (c : Call) (s : State) : State :=
  match c with
  | CallFetchUnsynced env => (fetchUnsynced env s).1
  | CallStart => (start s).1
  | CallPause => (pause s).1
  | CallCancel => (cancel s).1
  end.

Definition calls (cs : list Call) (s : State) : State :=
  foldl (λ s c, call c s) s cs.

(** The request strategy in the words of the specification: by [exclude]
    when the synced IDs outnumber the unsynced ones, else by [include],
    and by the modified-after cursor only when both sets are empty. *)
Definition spec_request (include exclude : list ID) (lastModified : Cursor)
  : Request :=
  match include, exclude with
  | [], [] => Get lastModified
  | _, _ =>
      if bool_decide (length include < length exclude)
      then Post None (Some exclude)
      else Post (Some include) None
  end.

(** An error [e] is raised inside the [try] block of a cycle that sends
    [req]. *)
Inductive raises (env : Env) (req : Request) : Error → Prop :=
| raises_network e :
    httpClient env req = Rejected e →
    raises env req e
| raises_not_a_list response :
    httpClient env req = Resolved response →
    Array_isArray (data_of response) = None →
    raises env req invalid_response
| raises_document response docs e :
    httpClient env req = Resolved response →
    Array_isArray (data_of response) = Some docs →
    Promise_all (parse_document env) (document_settles env) docs = Rejected e →
    raises env req e
| raises_bulkUpsert response docs documents e :
    httpClient env req = Resolved response →
    Array_isArray (data_of response) = Some docs →
    Promise_all (parse_document env) (document_settles env) docs = Resolved documents →
    bulkUpsert env documents = Rejected e →
    raises env req e.

(** A cycle that has passed the guard of [fetchUnsynced] (the replicator is
    running and no other cycle is active) and to which the
    CollectionReplicator has supplied both ID sets. *)
Definition started_cycle (env : Env) (s : State)
    (include exclude : option (list ID)) : Prop :=
  isStopped s = false ∧ active s = false ∧
  getUnsyncedRemoteIDs env = Resolved include ∧
  getSyncedRemoteIDs env = Resolved exclude.

(** A started cycle that issues its own request: the replicator's own sync
    is not exhausted. *)
Definition own_cycle (env : Env) (s : State)
    (include exclude : option (list ID)) : Prop :=
  started_cycle env s include exclude ∧ syncCompleted s = false.

(** The [try]/[catch]/[finally] statement of [fetchUnsynced], once the
    request [req] has been chosen. *)
Definition own_request (env : Env) (req : Request) : Cycle () :=
  try_catch_finally
    (response ← (log_request req;; await (httpClient env req));
     match Array_isArray (data_of response) with
     | None => throw invalid_response
     | Some docs =>
         (if bool_decide (length docs = 0)
          then set_syncCompleted true else mret ());;
         documents ← await (Promise_all (parse_document env) (document_settles env) docs);
         await (bulkUpsert env documents);;
         log_upsert documents
     end)
    (λ error, errorSubject_next error)
    (active_next false).

(** The strategy of the specification, as a statement about every cycle
    that issues its own request. *)
Definition request_as_specified : Prop :=
  ∀ env s unsynced synced,
    own_cycle env s (Some unsynced) (Some synced) →
    requests (fetchUnsynced env s).1 =
      requests s ++ [spec_request unsynced synced (lastModified env)].

(** Sync exhaustion in the words of the specification: once a cycle has
    been answered with an empty list, every later [fetchUnsynced] of a
    replicator that is not stopped and not active sends no request and
    delegates to [collectionReplication.fetchUnsynced()]. *)
Definition exhaustion_as_specified : Prop :=
  ∀ env s include exclude response later env',
    own_cycle env s include exclude →
    httpClient env (chosen_request include exclude (lastModified env))
      = Resolved response →
    Array_isArray (data_of response) = Some [] →
    let before := calls later (fetchUnsynced env s).1 in
    isStopped before = false → active before = false →
    syncCompleted (fetchUnsynced env s).1 = true ∧
    requests (fetchUnsynced env' before).1 = requests before ∧
    delegated (fetchUnsynced env' before).1 = S (delegated before).


(** A running replicator that has not fetched yet, and collaborators that
    answer every request with the page [page]. *)
Definition running : State :=
  {| isCanceled := false; paused := false; active := false;
     syncCompleted := false; errorSubject := []; requests := [];
     delegated := 0; upserted := [] |}.

Definition serving (unsynced synced : list ID) (page : JsValue) : Env :=
  {| getUnsyncedRemoteIDs := Resolved (Some unsynced);
     getSyncedRemoteIDs := Resolved (Some synced);
     lastModified := "2024-05-01T10:00:00";
     collection_fetchUnsynced := Resolved ();
     httpClient := λ _, Resolved (Some (mkResponse page));
     parseRestResponse := λ doc, Resolved doc;
     upsertRefs := λ doc, Resolved doc;
     upsertRefs_settles := λ _, 0;
     bulkUpsert := λ _, Resolved () |}.

(** Collaborators like [serving], except that the remote ID listing
    cannot be read. *)
Definition unreachable (unsynced synced : list ID) (page : JsValue) : Env :=
  {| getUnsyncedRemoteIDs := Rejected (mkError "Network Error");
     getSyncedRemoteIDs := getSyncedRemoteIDs (serving unsynced synced page);
     lastModified := lastModified (serving unsynced synced page);
     collection_fetchUnsynced := Resolved ();
     httpClient := httpClient (serving unsynced synced page);
     parseRestResponse := λ doc, Resolved doc;
     upsertRefs := λ doc, Resolved doc;
     upsertRefs_settles := λ _, 0;
     bulkUpsert := λ _, Resolved () |}.

End QueryReplicationState.


(* --------------------------------------------------------------------- *)
(** ** Query parameters  (interface [QueryParams], same in both revisions) *)
(* --------------------------------------------------------------------- *)

Module Params.

Inductive SortDirection : Type := asc | desc.

(** [search?: string | Record<string, any>] *)
Inductive SearchValue : Type :=
| SearchText (text : string)
| SearchRecord (entries : list (string * JsValue)).

(** The keys of a parameter snapshot. *)
Inductive ParamKey : Type := Ksearch | KsortBy | KsortDirection | Kselector.

#[global] Instance ParamKey_eq_dec : EqDecision ParamKey.
Proof. solve_decision. Defined.

Definition param_name (k : ParamKey) : string :=
  match k with
  | Ksearch => "search"
  | KsortBy => "sortBy"
  | KsortDirection => "sortDirection"
  | Kselector => "selector"
  end.

(** A parameter snapshot: the values of its four properties, a property
    that is absent or [undefined] being [None], and the order in which the
    object lists its keys. [key_order] holds the keys of the object, also
    those whose value is [undefined]; should a property that has a value be
    missing from it, the property counts as listed behind the others (see
    [own_keys]). *)
Record QueryParams : Type := mkParams {
  search : option SearchValue;
  sortBy : option string;
  sortDirection : option SortDirection;
  selector : option (list (string * JsValue));
  key_order : list ParamKey;
}.

(** The empty object [{}]. *)
Definition no_params : QueryParams := mkParams None None None None [].

(** [params || {}] *)
Definition params_or_empty (params : option QueryParams) : QueryParams :=
  default no_params params.

Definition direction_name (d : SortDirection) : string :=
  match d with
  | asc => "asc"
  | desc => "desc"
  end.

Definition search_to_js (s : SearchValue) : JsValue :=
  match s with
  | SearchText text => JStr text
  | SearchRecord entries => JObj entries
  end.

(** A list without the repetitions of its elements. *)
Fixpoint first_occurrences {A : Type} `{EqDecision A} (l : list A) : list A :=
  match l with
  | [] => []
  | x :: rest => x :: filter (λ y, y ≠ x) (first_occurrences rest)
  end.

(** The value of a property that has one. *)
Definition defined_value (p : QueryParams) (k : ParamKey) : option JsValue :=
  match k with
  | Ksearch => search_to_js <$> search p
  | KsortBy => JStr <$> sortBy p
  | KsortDirection => (λ d, JStr (direction_name d)) <$> sortDirection p
  | Kselector => JObj <$> selector p
  end.

(** The own keys of the snapshot, in the order in which the object lists
    them. *)
Definition own_keys (p : QueryParams) : list ParamKey :=
  first_occurrences
    (key_order p
       ++ filter (λ k, is_Some (defined_value p k))
            [Ksearch; KsortBy; KsortDirection; Kselector]).

(** [params[key]] *)
Definition param_value (p : QueryParams) (k : ParamKey) : JsValue :=
  default JUndefined (defined_value p k).

(** The snapshot as a plain JavaScript object, the value that is handed to
    [JSON.stringify]. *)
Definition params_to_js (p : QueryParams) : JsValue :=
  JObj ((λ k, (param_name k, param_value p k)) <$> own_keys p).

End Params.
Export Params.

(* --------------------------------------------------------------------- *)
(** ** [Query]  (src/query-state.ts, and its revision in the unnamed part) *)
(* --------------------------------------------------------------------- *)

Module QueryState.

(** The sources hold the class twice. The two texts agree on
    the result comparator, [find$], [handleSearchInactive], [sort] and
    [search]; they differ in [params$], [handleSearchActive], [where], the
    selector built by [updateParams] and the clauses the constructor
    derives from [initialParams]. A definition that depends on the text
    takes it as its first argument. *)
Inductive Revision : Type :=
| QueryStateTs     (* src/query-state.ts *)
| UnnamedPart.     (* second class of the unnamed source part *)

(** A clause; [field] is the key that was passed to [where] or that
    [forEach] handed to the constructor. *)
Record WhereClause : Type := mkClause { field : PropertyKey; value : JsValue }.

(** A document of the local store: the value at the primary path of the
    collection ([doc[this.primaryKey]], a string in RxDB), its [uuid], and
    the remaining properties. *)
Record Doc : Type := mkDoc {
  primary : string;
  uuid : string;
  body : list (string * JsValue);
}.

(** A hit of the search service of [QueryStateTs]. *)
Record SearchHit : Type := mkSearchHit {
  hit_id : string;
  hit_score : option Z;
  hit_positions : option JsValue;
  hit_childrenSearchCount : option Z;
  hit_parentSearchTerm : option string;
}.

(** An element of [QueryResult.hits]; scores and counts are numbers that
    the comparator tests with [===]. *)
Record Hit : Type := mkHit {
  id : string;
  score : option Z;
  document : Doc;
  positions : option JsValue;
  childrenSearchCount : option Z;
  parentSearchTerm : option string;
}.

Record QueryResult : Type := mkResult {
  elapsed : Z;
  searchActive : bool;
  searchTerm : option string;
  count : nat;
  hits : list Hit;
}.

Record QueryHooks : Type := mkHooks {
  preQueryParams : option (QueryParams → QueryParams);
  postQueryResult :
    option (list Doc → QueryParams → option QueryParams → list Doc);
}.

(** What the class imports from outside the files at hand:
    the built-in [JSON.stringify], [orderBy] of the natural-order library
    (called with one accessor [v => v[sortBy]] and one direction), and
    [normalizeWhereClauses] of [./utils]. *)
Record Imports : Type := mkImports {
  JSON_stringify : JsValue → string;
  orderBy : list Doc → string → SortDirection → list Doc;
  normalizeWhereClauses : list WhereClause → list WhereClause;
}.

(** What the collaborators answer at the moment the inner observable of
    [find$] emits: the clock, the documents the store finds for a selector,
    the hits of the search service ([QueryStateTs]) and the documents of
    the search instance ([UnnamedPart], possibly [null]). *)
Record Env : Type := mkEnv {
  now : Z;
  find : list (string * JsValue) → list Doc;
  searchService_search : string → list SearchHit;
  searchInstance_find : string → option (list Doc);
}.

(** An instance: its fields, the subscription of [find$] and the values
    that went through its subjects. *)
Record Query : Type := mkQuery {
  whereClauses : list WhereClause;
  hooks : QueryHooks;
  params : option QueryParams;      (* subjects.params.getValue() *)
  pushed : list QueryParams;        (* every subjects.params.next(p), oldest first *)
  subscribed : option (QueryParams * Z);
    (* the snapshot that [switchMap] of [find$] last received, with its
       [startTime] *)
  found : list QueryResult;         (* emissions of find$ *)
  result : list QueryResult;        (* emissions of subjects.result *)
}.

(** *** The result comparator of the constructor *)

(** [array.every((element, index) => ...)] *)
Fixpoint every_from {A : Type} (f : A → nat → bool) (index : nat) (l : list A)
  : bool :=
  match l with
  | [] => true
  | x :: rest => f x index && every_from f (S index) rest
  end.

Definition every {A : Type} (f : A → nat → bool) (l : list A) : bool :=
  every_from f 0 l.

(** The function passed to [distinctUntilChanged] on [find$]. *)
Definition results_equivalent (prev next : QueryResult) : bool :=
  if negb (bool_decide (searchActive prev = searchActive next))
     || negb (bool_decide (searchTerm prev = searchTerm next))
  then false
  else
    let idsAreEqual := bool_decide (id <$> hits prev = id <$> hits next) in
    let childrenAreEqual :=
      if idsAreEqual && searchActive next then
        every (λ hit index,
                 match hits next !! index with
                 | Some nextHit =>
                     bool_decide (parentSearchTerm hit = parentSearchTerm nextHit)
                     && bool_decide (childrenSearchCount hit = childrenSearchCount nextHit)
                     && bool_decide (score hit = score nextHit)
                 | None => false    (* not reached: the id lists are equal *)
                 end) (hits prev)
      else true in
    idsAreEqual && childrenAreEqual.

(** [distinctUntilChanged(comparator)] as a function of the last value let
    through: does [next] pass? *)
Definition passes (last : option QueryResult) (next : QueryResult) : bool :=
  match last with
  | Some prev => negb (results_equivalent prev next)
  | None => true
  end.

(** *** Evaluation *)

(** [typeof params.search === 'string' && !isEmpty(params.search)] *)
Definition search_is_active (p : QueryParams) : bool :=
  match search p with
  | Some (SearchText text) => negb (bool_decide (text = ""))
  | _ => false
  end.

(** [params.search as string] *)
Definition search_string (p : QueryParams) : string :=
  match search p with
  | Some (SearchText text) => text
  | _ => ""
  end.

Definition plain_hit (id : string) (doc : Doc) : Hit :=
  mkHit id None doc None None None.

(** [handleSearchActive(modifiedParams)], the value mapped from one pair of
    search results and store documents; [elapsed] is filled in by
    [find_result]. *)
Definition handleSearchActive (rev : Revision) (env : Env)
    (modifiedParams : QueryParams) : QueryResult :=
  let text := search_string modifiedParams in
  match rev with
  | QueryStateTs =>
      let searchResults := searchService_search env text in
      let docs := find env (default [] (selector modifiedParams)) in
      let filteredAndSortedDocs :=
        omap (λ hit,
                match List.find (λ doc, bool_decide (primary doc = hit_id hit)) docs with
                | Some doc =>
                    Some (mkHit (hit_id hit) (hit_score hit) doc (hit_positions hit)
                            (hit_childrenSearchCount hit) (hit_parentSearchTerm hit))
                | None => None
                end) searchResults in
      mkResult 0 true (Some text) (length filteredAndSortedDocs)
        filteredAndSortedDocs
  | UnnamedPart =>
      let uuids := uuid <$> default [] (searchInstance_find env text) in
      let selector :=
        obj_set "uuid" (JObj [("$in", JArr (JStr <$> uuids))])
          (default [] (selector modifiedParams)) in
      let docs := find env selector in
      let sortedDocs :=
        omap (λ u, List.find (λ doc, bool_decide (uuid doc = u)) docs) uuids in
      mkResult 0 true (Some text) (length sortedDocs)
        ((λ doc, plain_hit (uuid doc) doc) <$> sortedDocs)
  end.

(** [handleSearchInactive(modifiedParams, originalParams)] *)
Definition handleSearchInactive (lib : Imports) (hooks : QueryHooks) (env : Env)
    (modifiedParams : QueryParams) (originalParams : option QueryParams)
  : QueryResult :=
  let docs := find env (default [] (selector modifiedParams)) in
  let filteredAndSortedDocs :=
    match sortBy modifiedParams, sortDirection modifiedParams with
    | Some sortBy, Some sortDirection =>
        if bool_decide (sortBy = "") then docs
        else orderBy lib docs sortBy sortDirection
    | _, _ => docs
    end in
  let filteredAndSortedDocs :=
    match postQueryResult hooks with
    | Some hook => hook filteredAndSortedDocs modifiedParams originalParams
    | None => filteredAndSortedDocs
    end in
  mkResult 0 false None (length filteredAndSortedDocs)
    ((λ doc, plain_hit (primary doc) doc) <$> filteredAndSortedDocs).

(** One emission of [find$] for the snapshot [params] received at
    [startTime]: [{ elapsed, ...result }]. *)
Definition find_result (rev : Revision) (lib : Imports) (hooks : QueryHooks)
    (env : Env) (startTime : Z) (params : option QueryParams) : QueryResult :=
  let modifiedParams := params_or_empty params in   (* cloneDeep(params || {}) *)
  let modifiedParams :=
    match preQueryParams hooks with
    | Some hook => hook modifiedParams
    | None => modifiedParams
    end in
  let result :=
    if search_is_active modifiedParams
    then handleSearchActive rev env modifiedParams
    else handleSearchInactive lib hooks env modifiedParams params in
  mkResult (now env - startTime)%Z (searchActive result) (searchTerm result)
    (count result) (hits result).

(** *** The streams *)

(** The comparator of [params$]: none in [QueryStateTs], equality of the
    serializations in [UnnamedPart]. *)
Definition params_unchanged (rev : Revision) (lib : Imports)
    (prev : option QueryParams) (next : QueryParams) : bool :=
  match rev, prev with
  | UnnamedPart, Some prev =>
      bool_decide (JSON_stringify lib (params_to_js prev)
                   = JSON_stringify lib (params_to_js next))
  | _, _ => false
  end.

(** [subjects.params.next(p)] at time [startTime]: the subject keeps [p],
    and unless [params$] drops it, [switchMap] of [find$] replaces its
    inner subscription by one for [p]. *)
Definition params_next (rev : Revision) (lib : Imports) (startTime : Z)
    (p : QueryParams) (q : Query) : Query :=
  mkQuery (whereClauses q) (hooks q) (Some p) (pushed q ++ [p])
    (if params_unchanged rev lib (fst <$> subscribed q) p
     then subscribed q else Some (p, startTime))
    (found q) (result q).

(** The inner observable of [find$] emits: the value is computed for the
    subscribed snapshot and handed to [subjects.result] unless the
    comparator finds it equivalent to the previous value. *)
Definition find_emits (rev : Revision) (lib : Imports) (env : Env) (q : Query)
  : Query :=
  match subscribed q with
  | Some (p, startTime) =>
      let next := find_result rev lib (hooks q) env startTime (Some p) in
      mkQuery (whereClauses q) (hooks q) (params q) (pushed q) (subscribed q)
        (found q ++ [next])
        (if passes (last (result q)) next then result q ++ [next] else result q)
  | None => q
  end.

(** *** Mutation methods *)

(** [Partial<QueryParams>]: a key that is present overrides, also with
    [undefined]. *)
Record PartialParams : Type := mkPartial {
  with_search : option (option SearchValue);
  with_sortBy : option (option string);
  with_sortDirection : option (option SortDirection);
}.

Definition nothing_more : PartialParams := mkPartial None None None.

(** The selector that [updateParams] derives from the clause list. *)
Definition selector_of (rev : Revision) (clauses : list WhereClause)
  : list (string * JsValue) :=
  match rev with
  | QueryStateTs =>
      foldl (λ acc clause,
               obj_set (property_name (field clause)) (value clause) acc)
        [] clauses
  | UnnamedPart =>
      let andClauses :=
        (λ clause, JObj [(property_name (field clause), value clause)])
        <$> clauses in
      if bool_decide (0 < length andClauses) then [("$and", JArr andClauses)] else []
  end.

(** The keys of [additionalParams], in the order in which [sort] and
    [search] write them. *)
Definition partial_keys (additionalParams : PartialParams) : list ParamKey :=
  match with_search additionalParams with Some _ => [Ksearch] | None => [] end
  ++ match with_sortBy additionalParams with Some _ => [KsortBy] | None => [] end
  ++ match with_sortDirection additionalParams with
     | Some _ => [KsortDirection]
     | None => []
     end.

(** [{ ...currentParams, ...additionalParams, selector }]: a key that the
    current snapshot has keeps its place, a new one is listed behind. *)
Definition merge_params (currentParams : QueryParams)
    (additionalParams : PartialParams) (selector : list (string * JsValue))
  : QueryParams :=
  mkParams
    (default (search currentParams) (with_search additionalParams))
    (default (sortBy currentParams) (with_sortBy additionalParams))
    (default (sortDirection currentParams) (with_sortDirection additionalParams))
    (Some selector)
    (first_occurrences
       (own_keys currentParams ++ partial_keys additionalParams ++ [Kselector])).

(** [getParams()] *)
Definition getParams (q : Query) : option QueryParams := params q.

(** [updateParams(additionalParams = {})] *)
Definition updateParams (rev : Revision) (lib : Imports) (startTime : Z)
    (additionalParams : PartialParams) (q : Query) : Query :=
  let selector := selector_of rev (whereClauses q) in
  let currentParams := params_or_empty (getParams q) in
  let newParams := merge_params currentParams additionalParams selector in
  params_next rev lib startTime newParams q.

Definition set_whereClauses (clauses : list WhereClause) (q : Query) : Query :=
  mkQuery clauses (hooks q) (params q) (pushed q) (subscribed q) (found q)
    (result q).

(** [existingClause.value = value] for the first clause that
    [whereClauses.find(clause => clause.field === field)] returns. *)
Fixpoint assign_first (field' : PropertyKey) (value' : JsValue)
    (clauses : list WhereClause) : list WhereClause :=
  match clauses with
  | [] => []
  | clause :: rest =>
      if bool_decide (field clause = field')
      then mkClause (field clause) value' :: rest
      else clause :: assign_first field' value' rest
  end.

(** Modelled from the spec: [normalizeWhereClauses] of [./utils], to which
    [where] of the unnamed part hands the clause list after appending the
    new clause, is not among the sources. After section 4.1 of the
    specification, a clause replaces "any existing clause for the same
    field" and a clause whose value is [null] or [undefined] "removes the
    clause for that field"; the clauses are taken in the order of the
    list. The support of several clauses per field for [$elemMatch]-style
    matchers, which the specification leaves to the implementation, is not
    part of the model. *)
Definition upsert_clause (clauses : list WhereClause) (clause : WhereClause)
  : list WhereClause :=
  if is_nullish (value clause) then
    filter (λ existing, field existing ≠ field clause) clauses
  else if bool_decide (field clause ∈ field <$> clauses) then
    assign_first (field clause) (value clause) clauses
  else clauses ++ [clause].

Definition normalizeWhereClauses_as_specified (clauses : list WhereClause)
  : list WhereClause :=
  foldl upsert_clause [] clauses.

(** A clause list with one clause per field and no [null] or [undefined]
    value: what the modelled [normalizeWhereClauses] returns, and leaves as
    it is. *)
Definition normalized (clauses : list WhereClause) : Prop :=
  NoDup (field <$> clauses) ∧
  Forall (λ clause, is_nullish (value clause) = false) clauses.

(** [where(field, value)] *)
Definition where_ (rev : Revision) (lib : Imports) (startTime : Z)
    (field' : string) (value' : JsValue) (q : Query) : Query :=
  let clauses :=
    match rev with
    | QueryStateTs =>
        if is_nullish value' then
          filter (λ clause, field clause ≠ KeyName field') (whereClauses q)
        else
          match List.find (λ clause, bool_decide (field clause = KeyName field'))
                  (whereClauses q) with
          | Some existingClause => assign_first field' value' (whereClauses q)
          | None => whereClauses q ++ [mkClause field' value']
          end
    | UnnamedPart =>
        normalizeWhereClauses lib (whereClauses q ++ [mkClause field' value'])
    end in
  updateParams rev lib startTime nothing_more (set_whereClauses clauses q).

(** The two ways [sort] is called. *)
Inductive SortArgument : Type :=
| SortField (sortBy : string) (sortDirection : option SortDirection)
| SortObject (sortObj : list (string * SortDirection)).

Definition not_iterable : Error :=
  mkError "TypeError: undefined is not iterable".

(** [sort(sortByOrObj, sortDirection?)]; destructuring
    [Object.entries(sortObj).pop()] raises when the object is empty. *)
Definition sort (rev : Revision) (lib : Imports) (startTime : Z)
    (sortByOrObj : SortArgument) (q : Query) : outcome Query :=
  match sortByOrObj with
  | SortField sortBy sortDirection =>
      Resolved (updateParams rev lib startTime
                  (mkPartial None (Some (Some sortBy)) (Some sortDirection)) q)
  | SortObject sortObj =>
      match last sortObj with
      | Some (lastField, lastDirection) =>
          Resolved (updateParams rev lib startTime
                      (mkPartial None (Some (Some lastField))
                         (Some (Some lastDirection))) q)
      | None => Rejected not_iterable
      end
  end.

(** [search(query = '')] *)
Definition search (rev : Revision) (lib : Imports) (startTime : Z)
    (query : option SearchValue) (q : Query) : Query :=
  let query := default (SearchText "") query in
  updateParams rev lib startTime (mkPartial (Some (Some query)) None None) q.

(** *** Construction *)

Definition clauses_of (collection : JsValue) : list WhereClause :=
  (λ entry, mkClause entry.1 entry.2) <$> forEach_entries collection.

(** The clauses that the constructor pushes for [initialParams.selector];
    [UnnamedPart] first looks for conditions under [$and]. *)
Definition initial_clauses (rev : Revision) (initialParams : QueryParams)
  : list WhereClause :=
  match selector initialParams with
  | None => []
  | Some selector =>
      match rev, obj_get "$and" selector with
      | UnnamedPart, Some conditions =>
          if truthy conditions then
            flat_map (λ condition, clauses_of condition.2)
              (forEach_entries conditions)
          else clauses_of (JObj selector)
      | _, _ => clauses_of (JObj selector)
      end
  end.

(** [new Query({ initialParams = {}, hooks, ... })] at time [startTime]:
    the clauses are derived, [initialParams] is pushed, and the
    subscription to [find$] receives it. *)
Definition new_query (rev : Revision) (lib : Imports) (startTime : Z)
    (hooks : option QueryHooks) (initialParams : option QueryParams) : Query :=
  let initialParams := params_or_empty initialParams in
  params_next rev lib startTime initialParams
    (mkQuery (initial_clauses rev initialParams)
       (default (mkHooks None None) hooks) None [] None [] []).

(** *** Histories *)

(** What happens to an instance after its construction. *)
Inductive Event : Type :=
| Where (startTime : Z) (field : string) (value : JsValue)
| Sort (startTime : Z) (sortByOrObj : SortArgument)
| Search (startTime : Z) (query : option SearchValue)
| ParamsNext (startTime : Z) (p : QueryParams)
| FindEmits (env : Env).

Definition step (rev : Revision) (lib : Imports) (q : Query) (ev : Event)
  : Query :=
  match ev with
  | Where startTime field value => where_ rev lib startTime field value q
  | Sort startTime sortByOrObj =>
      match sort rev lib startTime sortByOrObj q with
      | Resolved q' => q'
      | Rejected _ => q
      end
  | Search startTime query => search rev lib startTime query q
  | ParamsNext startTime p => params_next rev lib startTime p q
  | FindEmits env => find_emits rev lib env q
  end.

(** Structural equality of two snapshots: that of the objects. *)
Definition snapshots_equal (p p' : QueryParams) : Prop :=
  structurally_equal (params_to_js p) (params_to_js p').

(** Hooks that treat structurally equal snapshots alike. *)
Definition hooks_by_structure (hooks : QueryHooks) : Prop :=
  (∀ hook, preQueryParams hooks = Some hook →
     ∀ p p', snapshots_equal p p' → snapshots_equal (hook p) (hook p')) ∧
  (∀ hook, postQueryResult hooks = Some hook →
     ∀ docs modified modified' original original',
       snapshots_equal modified modified' →
       option_Forall2 snapshots_equal original original' →
       hook docs modified original = hook docs modified' original').

(** Two environments in which the search subsystem answers alike and the
    store finds the same documents for structurally equal selectors. *)
Definition answers_by_structure (env0 env1 : Env) : Prop :=
  (∀ selector selector',
     structurally_equal (JObj selector) (JObj selector') →
     find env0 selector = find env1 selector') ∧
  (∀ text, searchService_search env0 text = searchService_search env1 text) ∧
  (∀ text, searchInstance_find env0 text = searchInstance_find env1 text).

(** Two environments in which the store and the search subsystem answer
    alike; the clocks may differ. *)
Definition same_answers (env0 env1 : Env) : Prop :=
  (∀ selector, find env0 selector = find env1 selector) ∧
  (∀ text, searchService_search env0 text = searchService_search env1 text) ∧
  (∀ text, searchInstance_find env0 text = searchInstance_find env1 text).

(** The states an instance can be in. *)
Inductive reachable (rev : Revision) (lib : Imports) : Query → Prop :=
| reachable_new startTime hooks initialParams :
    reachable rev lib (new_query rev lib startTime hooks initialParams)
| reachable_step q ev :
    reachable rev lib q → reachable rev lib (step rev lib q ev).

(** *** A concrete shop, for the examples *)

(** A serializer in the manner of [JSON.stringify]. *)
Fixpoint demo_stringify (v : JsValue) : string :=
  match v with
  | JUndefined => "undefined"
  | JNull => "null"
  | JBool true => "true"
  | JBool false => "false"
  | JNum n => pretty n
  | JStr s => "'" +:+ s +:+ "'"
  | JArr items => "[" +:+ String.concat "," (map demo_stringify items) +:+ "]"
  | JObj entries =>
      "{" +:+ String.concat ","
                (map (λ entry, entry.1 +:+ ":" +:+ demo_stringify entry.2) entries)
          +:+ "}"
  end.

Definition demo_imports : Imports :=
  {| JSON_stringify := demo_stringify;
     orderBy := λ docs _ sortDirection,
       match sortDirection with
       | asc => docs
       | desc => reverse docs
       end;
     normalizeWhereClauses := normalizeWhereClauses_as_specified |}.

Definition milk : Doc := mkDoc "p1" "u1" [("name", JStr "milk")].
Definition oat_milk : Doc := mkDoc "p2" "u2" [("name", JStr "oat milk")].

(** The store holds both products at time [time]; a search finds
    [oat_milk] first. *)
Definition shop (time : Z) : Env :=
  {| now := time;
     find := λ _, [milk; oat_milk];
     searchService_search := λ _,
       [mkSearchHit "p2" (Some 7%Z) None None None;
        mkSearchHit "p1" (Some 3%Z) None None None];
     searchInstance_find := λ _, Some [oat_milk; milk] |}.

Definition by_name : QueryParams :=
  mkParams None (Some "name") (Some asc) None [KsortBy; KsortDirection].

(** The same parameters, written in the other order. *)
Definition by_name_reordered : QueryParams :=
  mkParams None (Some "name") (Some asc) None [KsortDirection; KsortBy].

(** An instance created with [by_name] whose first result has arrived. *)
Definition listed (rev : Revision) : Query :=
  step rev demo_imports (new_query rev demo_imports 0 None (Some by_name))
    (FindEmits (shop 4)).

End QueryState.

(* --------------------------------------------------------------------- *)
(** ** [Manager]  (first class of the unnamed source part)               *)
(* --------------------------------------------------------------------- *)

Module Manager.

Definition ApiQueryParams : Type := list (string * JsValue).

(** What the class imports from outside the files at hand:
    the built-in [JSON.stringify], the per-collection hook
    [allHooks[name].filterApiQueryParams] of [./hooks], and
    [buildEndpointWithParams] of [./utils]. *)
Record Imports : Type := mkImports {
  JSON_stringify : JsValue → string;
  filterApiQueryParams :
    string → option (ApiQueryParams → option QueryParams → ApiQueryParams);
  buildEndpointWithParams : string → ApiQueryParams → string;
}.

Record RegisterQueryConfig : Type := mkConfig {
  queryKeys : list JsValue;
  collectionName : string;
  initialParams : option QueryParams;
  config_endpoint : option string;
  greedy : option bool;
}.

(** The fields of a [Query] instance that the manager reads or changes.
    A collection object is identified by its name. *)
Record Query : Type := mkQuery {
  id : string;
  query_collection : string;
  query_endpoint : string;
  query_greedy : bool;
  params : option QueryParams;      (* subjects.params.getValue() *)
  query_isCanceled : bool;
}.

(** The two classes a replication state can be an instance of. *)
Inductive ReplicationClass : Type :=
| CollectionReplication    (* CollectionReplicationState *)
| QueryReplication.        (* QueryReplicationState *)

#[global] Instance ReplicationClass_eq_dec : EqDecision ReplicationClass.
Proof. solve_decision. Defined.

(** Modelled from the spec: [CollectionReplicationState], whose source is
    not among the files at hand, has the supertype fields of a replication
    state (endpoint, paused flag, collection) and its [start]/[cancel].
    The record is a replication state of either class as the manager sees
    it. *)
Record Replication : Type := mkReplication {
  class : ReplicationClass;
  endpoint : string;
  collection : string;
  paused : bool;
  isCanceled : bool;
  collectionReplication : option nat;   (* QueryReplicationState only *)
}.

(** Modelled from the spec: [Registry], whose source is not among the
    files at hand, is a key-to-value map whose iteration order is
    irrelevant.
    The record is the manager together with the objects it has created:
    [queries] and [replications] hold every instance ever constructed, and
    a registry maps a key to a reference (an index) into them, so that two
    registry entries can name one and the same instance. *)
Record State : Type := mkState {
  localDB : gset string;            (* names of the collections of localDB *)
  fastLocalDB : gset string;
  queryStates : gmap string nat;
  replicationStates : gmap string nat;
  activeCollectionReplications : gmap string nat;
  activeQueryReplications : gmap string nat;
  error : list Error;               (* values pushed on subjects.error *)
  queries : list Query;
  replications : list Replication;
}.

Definition new_manager (localDB fastLocalDB : gset string) : State :=
  mkState localDB fastLocalDB ∅ ∅ ∅ ∅ [] [] [].

Definition set_queryStates (f : gmap string nat → gmap string nat) (m : State) :=
  mkState (localDB m) (fastLocalDB m) (f (queryStates m)) (replicationStates m)
    (activeCollectionReplications m) (activeQueryReplications m) (error m)
    (queries m) (replications m).

Definition set_replicationStates (f : gmap string nat → gmap string nat) (m : State) :=
  mkState (localDB m) (fastLocalDB m) (queryStates m) (f (replicationStates m))
    (activeCollectionReplications m) (activeQueryReplications m) (error m)
    (queries m) (replications m).

Definition set_activeCollectionReplications
    (f : gmap string nat → gmap string nat) (m : State) :=
  mkState (localDB m) (fastLocalDB m) (queryStates m) (replicationStates m)
    (f (activeCollectionReplications m)) (activeQueryReplications m) (error m)
    (queries m) (replications m).

Definition set_activeQueryReplications
    (f : gmap string nat → gmap string nat) (m : State) :=
  mkState (localDB m) (fastLocalDB m) (queryStates m) (replicationStates m)
    (activeCollectionReplications m) (f (activeQueryReplications m)) (error m)
    (queries m) (replications m).

(** [this.subjects.error.next(e)] *)
Definition error_next (e : Error) (m : State) :=
  mkState (localDB m) (fastLocalDB m) (queryStates m) (replicationStates m)
    (activeCollectionReplications m) (activeQueryReplications m) (error m ++ [e])
    (queries m) (replications m).

Definition set_queries (f : list Query → list Query) (m : State) :=
  mkState (localDB m) (fastLocalDB m) (queryStates m) (replicationStates m)
    (activeCollectionReplications m) (activeQueryReplications m) (error m)
    (f (queries m)) (replications m).

Definition set_replications (f : list Replication → list Replication) (m : State) :=
  mkState (localDB m) (fastLocalDB m) (queryStates m) (replicationStates m)
    (activeCollectionReplications m) (activeQueryReplications m) (error m)
    (queries m) (f (replications m)).

(** Methods of a replication state, applied through its reference. *)
Definition replication_start (r : nat) : State → State :=
  set_replications (alter (λ o, mkReplication (class o) (endpoint o)
    (collection o) false (isCanceled o) (collectionReplication o)) r).

Definition replication_pause (r : nat) : State → State :=
  set_replications (alter (λ o, mkReplication (class o) (endpoint o)
    (collection o) true (isCanceled o) (collectionReplication o)) r).

Definition replication_cancel (r : nat) : State → State :=
  set_replications (alter (λ o, mkReplication (class o) (endpoint o)
    (collection o) (paused o) true (collectionReplication o)) r).

(** Modelled from the spec: [Query.cancel()] is inherited from
    [SubscribableBase], whose source is not among the files at hand; it
    marks the evaluator canceled and detaches its subscriptions. The class
    [Query] holds no reference to a replication state. *)
Definition query_cancel (q : nat) : State → State :=
  set_queries (alter (λ o, mkQuery (id o) (query_collection o)
    (query_endpoint o) (query_greedy o) (params o) true) q).

(** [stringify(params)]; the keys are plain data, which [JSON.stringify]
    always serializes. *)
Definition stringify (lib : Imports) (queryKeys : list JsValue) : string :=
  JSON_stringify lib (JArr queryKeys).

(** [hasQuery(queryKeys)] *)
Definition hasQuery (lib : Imports) (queryKeys : list JsValue) (m : State) : bool :=
  bool_decide (is_Some (queryStates m !! stringify lib queryKeys)).

(** [getCollection(collectionName)] *)
Definition getCollection (collectionName : string) (m : State)
  : State * option string :=
  if decide (collectionName ∈ localDB m) then (m, Some collectionName)
  else (error_next (mkError ("Collection with name: " +:+ collectionName
                               +:+ " not found.")) m, None).

(** [getSyncCollection(collectionName)] *)
Definition getSyncCollection (collectionName : string) (m : State)
  : State * option string :=
  if decide (collectionName ∈ fastLocalDB m) then (m, Some collectionName)
  else (error_next (mkError ("Sync collection with name: " +:+ collectionName
                               +:+ " not found.")) m, None).

(** [replicationState instanceof cls], for the result of a registry lookup;
    [undefined] is an instance of nothing. *)
Definition instance_of (m : State) (replicationState : option nat)
    (cls : ReplicationClass) : bool :=
  match replicationState with
  | Some r =>
      match replications m !! r with
      | Some o => bool_decide (class o = cls)
      | None => false
      end
  | None => false
  end.

(** [registerCollectionReplication({ collection, endpoint })] *)
Definition registerCollectionReplication (collection endpoint : string)
    (m : State) : State * option nat :=
  let replicationState := replicationStates m !! endpoint in
  let m := (getSyncCollection collection m).1 in
  let m :=
    if instance_of m replicationState CollectionReplication then m
    else
      let collectionReplication :=
        mkReplication CollectionReplication endpoint collection true false None in
      let r := length (replications m) in
      set_replicationStates (insert endpoint r)
        (set_replications (λ heap, heap ++ [collectionReplication]) m) in
  (m, replicationStates m !! endpoint).

(** [registerQueryReplication({ queryEndpoint, collectionReplication,
    collection, greedy })] *)
Definition registerQueryReplication (queryEndpoint : string)
    (collectionReplication : nat) (collection : string) (m : State)
  : State * option nat :=
  let replicationState := replicationStates m !! queryEndpoint in
  let m :=
    if instance_of m replicationState QueryReplication then m
    else
      let queryReplication :=
        mkReplication QueryReplication queryEndpoint collection true false
          (Some collectionReplication) in
      let r := length (replications m) in
      set_replicationStates (insert queryEndpoint r)
        (set_replications (λ heap, heap ++ [queryReplication]) m) in
  (m, replicationStates m !! queryEndpoint).

(** [deregisterReplication(endpoint)] *)
Definition deregisterReplication (endpoint : string) (m : State) : State :=
  match replicationStates m !! endpoint with
  | Some r => set_replicationStates (delete endpoint) (replication_cancel r m)
  | None => m
  end.

Definition opt_string (s : option string) : JsValue :=
  match s with
  | Some x => JStr x
  | None => JUndefined
  end.

(** [getApiQueryParams(queryParams = {})] *)
Definition getApiQueryParams (queryParams : option QueryParams) : ApiQueryParams :=
  let queryParams := params_or_empty queryParams in
  let params :=
    [ ("orderby", opt_string (sortBy queryParams));
      ("order", opt_string (direction_name <$> sortDirection queryParams));
      ("per_page", JNum 10) ] in
  let params :=
    match search queryParams with
    | Some (SearchText text) =>
        if bool_decide (text = "") then params else obj_set "search" (JStr text) params
    | _ => params
    end in
  match selector queryParams with
  | Some entries =>
      foldl (λ params '(key, value),
               if bool_decide (key = KeyName "uuid") then params
               else obj_set (property_name key) value params)
        params (forEach_entries (JObj entries))
  | None => params
  end.

(** The endpoint of the replication state behind a reference:
    [state.endpoint]. *)
Definition endpoint_of (m : State) (r : nat) : option string :=
  endpoint <$> replications m !! r.

(** [getActiveQueryReplicationStatesByEndpoint(endpoint)] *)
Definition getActiveQueryReplicationStatesByEndpoint (endpoint : string)
    (m : State) : list nat :=
  (map_to_list
     (filter (λ entry, endpoint_of m entry.2 = Some endpoint)
        (activeQueryReplications m))).*2.

Definition not_an_object : Error :=
  mkError "TypeError: Cannot read properties of undefined (reading 'endpoint')".

(** [maybePauseQueryReplications(query)], for the query with id [query_id];
    reading [.endpoint] of a missing registry entry raises. *)
Definition maybePauseQueryReplications (query_id : string) (m : State)
  : outcome State :=
  match activeQueryReplications m !! query_id with
  | None => Rejected not_an_object
  | Some activeQueryReplication =>
      match endpoint_of m activeQueryReplication with
      | None => Rejected not_an_object
      | Some endpoint =>
          let activeQueryReplications :=
            getActiveQueryReplicationStatesByEndpoint endpoint m in
          if bool_decide (length activeQueryReplications = 1)
          then Resolved (replication_pause activeQueryReplication m)
          else Resolved m
      end
  end.

(** The subscriber that [onNewQueryState] attaches to [queryState.params$]. *)
Definition on_params (lib : Imports) (queryState : Query)
    (collectionReplication : nat) (params : option QueryParams) (m : State)
  : State :=
  let apiQueryParams := getApiQueryParams params in
  let apiQueryParams :=
    match filterApiQueryParams lib (query_collection queryState) with
    | Some hook => hook apiQueryParams params
    | None => apiQueryParams
    end in
  let queryEndpoint :=
    buildEndpointWithParams lib (query_endpoint queryState) apiQueryParams in
  let '(m, queryReplication) :=
    registerQueryReplication queryEndpoint collectionReplication
      (query_collection queryState) m in
  let m :=
    if bool_decide (is_Some (activeQueryReplications m !! id queryState)) then
      match maybePauseQueryReplications (id queryState) m with
      | Resolved m' => m'
      | Rejected _ => m      (* not reached: the entry exists *)
      end
    else m in
  match queryReplication with
  | Some r =>
      replication_start r
        (set_activeQueryReplications (insert (id queryState) r) m)
  | None => m                (* not reached: the entry was just registered *)
  end.

(** [onNewQueryState(queryState)]; the subscription to the params subject
    delivers the current snapshot at once. *)
Definition onNewQueryState (lib : Imports) (queryState : Query) (m : State)
  : State :=
  let '(m, collectionReplication) :=
    registerCollectionReplication (query_collection queryState)
      (query_endpoint queryState) m in
  match collectionReplication with
  | Some cr =>
      let m := set_activeCollectionReplications (insert (id queryState) cr) m in
      let m := replication_start cr m in
      on_params lib queryState cr (params queryState) m
  | None => m                (* not reached: the entry was just registered *)
  end.

(** [args.endpoint || collectionName] *)
Definition endpoint_or (endpoint : option string) (collectionName : string)
  : string :=
  match endpoint with
  | Some e => if bool_decide (e = "") then collectionName else e
  | None => collectionName
  end.

(** [registerQuery(config)]; the constructor of [Query] pushes
    [initialParams], [{}] when none is given. *)
Definition registerQuery (lib : Imports) (config : RegisterQueryConfig)
    (m : State) : State * option nat :=
  let key := stringify lib (queryKeys config) in
  let endpoint := endpoint_or (config_endpoint config) (collectionName config) in
  let m :=
    if bool_decide (is_Some (queryStates m !! key)) then m
    else
      let '(m, collection) := getCollection (collectionName config) m in
      match collection with
      | Some collection =>
          let queryState :=
            mkQuery key collection endpoint (default false (greedy config))
              (Some (params_or_empty (initialParams config))) false in
          let q := length (queries m) in
          let m := set_queries (λ heap, heap ++ [queryState]) m in
          let m := set_queryStates (insert key q) m in
          onNewQueryState lib queryState m
      | None => m
      end in
  (m, queryStates m !! key).

(** [deregisterQuery(key)] *)
Definition deregisterQuery (key : string) (m : State) : State :=
  match queryStates m !! key with
  | Some query =>
      let m := set_queryStates (delete key) m in
      let m := set_activeCollectionReplications (delete key) m in
      let m := set_activeQueryReplications (delete key) m in
      query_cancel query m
  | None => m
  end.

(** [paused] flag of the replication state behind a reference. *)
Definition paused_of (m : State) (r : nat) : option bool :=
  paused <$> replications m !! r.

(** The reference-counted pause in the words of the specification: of two
    registered queries that share one running query replication, the
    deregistration of the first leaves it running and the deregistration of
    the second pauses it. *)
Definition pause_on_deregistration_as_specified : Prop :=
  ∀ m k1 k2 q1 q2 r,
    k1 ≠ k2 →
    queryStates m !! k1 = Some q1 →
    queryStates m !! k2 = Some q2 →
    activeQueryReplications m !! k1 = Some r →
    activeQueryReplications m !! k2 = Some r →
    paused_of m r = Some false →
    paused_of (deregisterQuery k1 m) r = Some false ∧
    paused_of (deregisterQuery k2 (deregisterQuery k1 m)) r = Some true.

(** A concrete set-up: a store with a [products] collection and two queries
    on it that carry the same parameters, hence the same derived endpoint. *)
Definition demo_imports : Imports :=
  {| JSON_stringify :=
       λ v, match v with
            | JArr (JStr s :: _) => s
            | _ => ""
            end;
     filterApiQueryParams := λ _, None;
     buildEndpointWithParams := λ endpoint params,
       endpoint +:+ "?" +:+ String.concat "&" params.*1 |}.

Definition products_query (key : string) : RegisterQueryConfig :=
  mkConfig [JStr key] "products" None None None.

Definition two_queries : State :=
  (registerQuery demo_imports (products_query "grid")
     (registerQuery demo_imports (products_query "list")
        (new_manager {["products"]} {["products"]})).1).1.

End Manager.

(* --------------------------------------------------------------------- *)
(** ** Further members of the classes                                    *)
(* --------------------------------------------------------------------- *)

(** The last value of a clause list or entry list that carries a key. *)
Definition last_with {A : Type} (key_of : A → string) (key : string)
    (l : list A) : option A :=
  last (filter (λ x, key_of x = key) l).

Module QueryAccessors.
Import QueryState.

(** The property that a clause writes in a selector:
    [acc[clause.field]], [{ [clause.field]: ... }]. *)
Definition clause_key (clause : WhereClause) : string :=
  property_name (field clause).

(** A clause whose field is a name, as [where] creates them; the number of
    an indexed element that [forEach] has handed to the constructor is
    none. *)
Definition named (clause : WhereClause) : Prop :=
  field clause = KeyName (clause_key clause).


(** A clause that [forEach] hands back as it is when it walks the selector
    that holds it: the field is a name, and not a [length] that would make
    the object array-like. *)
Definition plain_clause (clause : WhereClause) : Prop :=
  named clause ∧
  (clause_key clause = "length" → isLength (value clause) = None).

(** [distinctUntilChanged()] with its default comparator [===], as a
    function of the value it let through last. *)
Fixpoint distinctUntilChanged {A : Type} `{EqDecision A} (previous : option A)
    (values : list A) : list A :=
  match values with
  | [] => []
  | x :: rest =>
      if decide (previous = Some x) then distinctUntilChanged previous rest
      else x :: distinctUntilChanged (Some x) rest
  end.

(** [count$], as seen by a subscriber that has received the results
    [results] one after the other:
    [result$.pipe(map(result => result.count), distinctUntilChanged())]. *)
Definition count_stream (results : list QueryResult) : list nat :=
  distinctUntilChanged None (count <$> results).

(** [typeof v === 'object'] *)
Definition typeof_object (v : JsValue) : bool :=
  match v with
  | JNull | JArr _ | JObj _ => true
  | _ => false
  end.

(** [findSelector(field)] of the unnamed part; [undefined] is
    [JUndefined], an array of clause values is [JArr]. *)
Definition findSelector (field' : string) (q : Query) : JsValue :=
  let matchingClauses :=
    value <$> filter (λ clause, field clause = KeyName field')
                (whereClauses q) in
  if bool_decide (length matchingClauses = 0) then JUndefined
  else if existsb typeof_object matchingClauses then JArr matchingClauses
  else
    match matchingClauses with
    | [single] => single
    | _ => JArr matchingClauses
    end.

(** [v?.key] for a key that is no built-in property: the entry of an
    object, [undefined] for anything else. *)
Definition optional_get (v : JsValue) (key : string) : JsValue :=
  match v with
  | JObj entries => default JUndefined (obj_get key entries)
  | _ => JUndefined
  end.

Definition no_property (key : string) : Error :=
  mkError ("TypeError: Cannot read properties of undefined (reading '"
           +:+ key +:+ "')").

(** [attributes.filter((attribute) => !!attribute.option)]; reading
    [.option] of [undefined] or [null] raises. *)
Fixpoint filter_with_option (attributes : list JsValue)
  : outcome (list JsValue) :=
  match attributes with
  | [] => Resolved []
  | attribute :: rest =>
      if is_nullish attribute then Rejected (no_property "option")
      else
        match filter_with_option rest with
        | Rejected e => Rejected e
        | Resolved kept =>
            Resolved (if truthy (optional_get attribute "option")
                      then attribute :: kept else kept)
        end
  end.

(** [getAllAttributesSelectors()] of the unnamed part *)
Definition getAllAttributesSelectors (q : Query) : outcome (list JsValue) :=
  match Array_isArray (findSelector "attributes" q) with
  | Some attributeSelectors =>
      filter_with_option
        ((λ selector, optional_get selector "$elemMatch") <$> attributeSelectors)
  | None => Resolved []
  end.

End QueryAccessors.

Module ManagerHistory.
Import Manager.

(** What [getApiQueryParams] takes from a selector for the parameter
    [key]: the value of the last element that [forEach] visits for this
    property, the key [uuid] apart. *)
Definition sent_from_selector (key : string)
    (entries : list (string * JsValue)) : option JsValue :=
  snd <$> last_with (λ entry : PropertyKey * JsValue, property_name entry.1)
            key
            (filter (λ entry : PropertyKey * JsValue,
                       entry.1 ≠ KeyName "uuid")
               (forEach_entries (JObj entries))).

(** [getQuery(queryKeys)] *)
Definition getQuery (lib : Imports) (queryKeys : list JsValue) (m : State)
  : State * option nat :=
  let key := stringify lib queryKeys in
  let query := queryStates m !! key in
  let m :=
    match query with
    | Some _ => m
    | None => error_next (mkError ("Query with key: " +:+ key +:+ " not found.")) m
    end in
  (m, query).

(** [collection.name] of the object behind a reference. *)
Definition replication_collection (m : State) (r : nat) : option string :=
  collection <$> replications m !! r.

Definition query_collection_of (m : State) (q : nat) : option string :=
  query_collection <$> queries m !! q.

(** The two loops of [onCollectionReset(collection)], for the orders in
    which [forEach] hands out the entries of [replicationStates] and of
    [queryStates]; a callback removes at most the entry it was called
    for. *)
Definition reset_replications (collectionName : string)
    (visited : list (string * nat)) (m : State) : State :=
  foldl (λ m '(endpoint, replication),
           if bool_decide (replication_collection m replication
                           = Some collectionName)
           then deregisterReplication endpoint m else m) m visited.

Definition reset_queries (collectionName : string)
    (visited : list (string * nat)) (m : State) : State :=
  foldl (λ m '(key, query),
           if bool_decide (query_collection_of m query = Some collectionName)
           then deregisterQuery key m else m) m visited.

Definition onCollectionReset_visiting
    (replications_visited queries_visited : list (string * nat))
    (collectionName : string) (m : State) : State :=
  reset_queries collectionName queries_visited
    (reset_replications collectionName replications_visited m).

(** [onCollectionReset(collection)] *)
Definition onCollectionReset (collectionName : string) (m : State) : State :=
  onCollectionReset_visiting (map_to_list (replicationStates m))
    (map_to_list (queryStates m)) collectionName m.

(** [queryState.subjects.params.next(params)] seen from the manager: the
    query keeps the snapshot. *)
Definition query_params_next (q : nat) (params : QueryParams) : State → State :=
  set_queries (alter (λ o, mkQuery (id o) (query_collection o)
    (query_endpoint o) (query_greedy o) (Some params) (query_isCanceled o)) q).

(** What happens to a manager after its construction. [ParamsEmit key p]
    is an emission of [params$] of the query registered under [key]: the
    subscriber of [onNewQueryState] runs with the collection replication it
    was created with, which is the one the active registry holds for the
    key. [CollectionReset] carries the orders in which the two loops visit
    the registries. *)
Inductive Event : Type :=
| RegisterQuery (config : RegisterQueryConfig)
| DeregisterQuery (key : string)
| DeregisterReplication (endpoint : string)
| MaybePauseQueryReplications (query_id : string)
| ParamsEmit (key : string) (params : QueryParams)
| CollectionReset (collectionName : string)
    (replications_visited queries_visited : list (string * nat)).

Definition step (lib : Imports) (m : State) (ev : Event) : State :=
  match ev with
  | RegisterQuery config => (registerQuery lib config m).1
  | DeregisterQuery key => deregisterQuery key m
  | DeregisterReplication endpoint => deregisterReplication endpoint m
  | MaybePauseQueryReplications query_id =>
      match maybePauseQueryReplications query_id m with
      | Resolved m' => m'
      | Rejected _ => m
      end
  | ParamsEmit key params =>
      match queryStates m !! key, activeCollectionReplications m !! key with
      | Some q, Some collectionReplication =>
          match queries m !! q with
          | Some queryState =>
              on_params lib queryState collectionReplication (Some params)
                (query_params_next q params m)
          | None => m
          end
      | _, _ => m
      end
  | CollectionReset collectionName replications_visited queries_visited =>
      onCollectionReset_visiting replications_visited queries_visited
        collectionName m
  end.

(** The states a manager created for the stores [localDB], [fastLocalDB]
    can be in. *)
Definition history (lib : Imports) (localDB fastLocalDB : gset string)
    (events : list Event) : State :=
  foldl (step lib) (new_manager localDB fastLocalDB) events.

(** The endpoint the params subscriber of [onNewQueryState] derives for a
    snapshot: [buildEndpointWithParams(endpoint, apiQueryParams)] after the
    [filterApiQueryParams] hook of the collection. *)
Definition queryEndpoint (lib : Imports) (queryState : Query)
    (params : option QueryParams) : string :=
  let apiQueryParams := getApiQueryParams params in
  let apiQueryParams :=
    match filterApiQueryParams lib (query_collection queryState) with
    | Some hook => hook apiQueryParams params
    | None => apiQueryParams
    end in
  buildEndpointWithParams lib (query_endpoint queryState) apiQueryParams.

(** The evaluator that [registerQuery(config)] constructs. *)
Definition new_query_state (lib : Imports) (config : RegisterQueryConfig)
  : Query :=
  mkQuery (stringify lib (queryKeys config)) (collectionName config)
    (endpoint_or (config_endpoint config) (collectionName config))
    (default false (greedy config))
    (Some (params_or_empty (initialParams config))) false.

(** [isCanceled] of the objects behind a reference. *)
Definition replication_canceled (m : State) (r : nat) : option bool :=
  isCanceled <$> replications m !! r.

Definition query_canceled (m : State) (q : nat) : option bool :=
  query_isCanceled <$> queries m !! q.

(** The registries refer to live objects of the right kind. *)
Record well_formed (m : State) : Prop := mkWellFormed {
  wf_replicationStates : ∀ e r,
    replicationStates m !! e = Some r →
    ∃ o, replications m !! r = Some o ∧ endpoint o = e;
  wf_activeCollectionReplications : ∀ k r,
    activeCollectionReplications m !! k = Some r →
    ∃ o, replications m !! r = Some o ∧ class o = CollectionReplication;
  wf_activeQueryReplications : ∀ k r,
    activeQueryReplications m !! k = Some r →
    ∃ o, replications m !! r = Some o ∧ class o = QueryReplication;
  wf_queryStates : ∀ k q,
    queryStates m !! k = Some q →
    ∃ o, queries m !! q = Some o ∧ id o = k ∧ query_isCanceled o = false;
  wf_active_registered : ∀ k,
    is_Some (activeCollectionReplications m !! k) ∨
    is_Some (activeQueryReplications m !! k) →
    is_Some (queryStates m !! k);
}.

(** Objects are never removed from [replications], and keep their class,
    endpoint and collection. *)
Definition heap_grows (m m' : State) : Prop :=
  ∀ r o, replications m !! r = Some o →
    ∃ o', replications m' !! r = Some o' ∧ class o' = class o ∧
          endpoint o' = endpoint o ∧ collection o' = collection o.

(** A set-up in which the [filterApiQueryParams] hook of every collection
    strips all parameters, so that the derived query endpoint is the
    endpoint itself. *)
Definition bare_imports : Imports :=
  {| JSON_stringify := JSON_stringify demo_imports;
     filterApiQueryParams := λ _, Some (λ _ _, []);
     buildEndpointWithParams := λ endpoint params,
       match params with
       | [] => endpoint
       | _ => endpoint +:+ "?" +:+ String.concat "&" params.*1
       end |}.

End ManagerHistory.
(* ===================================================================== *)
(** * Part II: properties                                                *)
(* ===================================================================== *)

Section QueryReplicationState_properties.
Import QueryReplicationState.

Ltac cycle_unfold :=
  unfold fetchUnsynced, fetchLastModified, fetchUnsyncedRemoteIDs,
    try_catch_finally, mbind, Cycle_bind, mret, Cycle_ret, read, await,
    throw, modify, active_next, set_syncCompleted, errorSubject_next,
    log_request, log_delegation, log_upsert in *.

Lemma fetchUnsynced_own_cycle env s include exclude :
  own_cycle env s include exclude →
  fetchUnsynced env s =
    own_request env (chosen_request include exclude (lastModified env))
      (active_next true s).1.
Proof.
  intros ((Hstop & Hact & Hinc & Hexc) & Hsync).
  unfold fetchUnsynced, own_request, chosen_request.
  unfold mbind at 1 2 3 4 5. unfold Cycle_bind, read, await at 1 2.
  rewrite Hstop, Hact, Hinc, Hexc. simpl. rewrite Hsync.
  destruct (isEmpty include); [done|].
  by destruct (length_lt exclude include).
Qed.

(** *** [Promise.all] *)

Lemma first_rejection_None {A B : Type} (f : A → outcome B) settles items :
  first_rejection f settles items = None ↔
  Forall (λ item, ∃ result, f item = Resolved result) items.
Proof.
  induction items as [|x items IH]; simpl.
  - split; [constructor|done].
  - destruct (f x) as [y|e] eqn:Hx.
    + rewrite IH. split.
      * intros Hrest. constructor; eauto.
      * by inversion 1.
    + split.
      * by destruct (first_rejection f settles items) as [[moment e']|];
          [case_bool_decide|].
      * inversion 1 as [|? ? [y Hy]]. congruence.
Qed.

Lemma resolutions_Forall2 {A B : Type} (f : A → outcome B) items :
  Forall (λ item, ∃ result, f item = Resolved result) items →
  Forall2 (λ item result, f item = Resolved result) items (resolutions f items).
Proof.
  unfold resolutions.
  induction 1 as [|x items [y Hy] _ IH]; simpl; [constructor|].
  rewrite Hy. simpl. by constructor.
Qed.

Lemma resolutions_eq {A B : Type} (f : A → outcome B) items results :
  Forall2 (λ item result, f item = Resolved result) items results →
  resolutions f items = results.
Proof.
  unfold resolutions.
  induction 1 as [|x y items results Hxy _ IH]; [done|].
  cbn [omap list_omap]. rewrite Hxy. simpl. by rewrite IH.
Qed.

Lemma Promise_all_resolved {A B : Type} (f : A → outcome B) settles items
    results :
  Promise_all f settles items = Resolved results ↔
  Forall2 (λ item result, f item = Resolved result) items results.
Proof.
  unfold Promise_all. split.
  - destruct (first_rejection f settles items) as [[moment e]|] eqn:Hfirst;
      [done|].
    intros [= <-]. apply first_rejection_None in Hfirst.
    by apply resolutions_Forall2.
  - intros Hall.
    assert (Hnone : first_rejection f settles items = None).
    { apply first_rejection_None.
      induction Hall; constructor; eauto. }
    rewrite Hnone. f_equal. by apply resolutions_eq.
Qed.

Lemma first_rejection_is_Some {A B : Type} (f : A → outcome B) settles items :
  is_Some (first_rejection f settles items) ↔
  Exists (λ item, ∃ e, f item = Rejected e) items.
Proof.
  induction items as [|x items IH]; simpl.
  - split; [by intros []|by inversion 1].
  - rewrite Exists_cons. destruct (f x) as [y|e] eqn:Hx.
    + rewrite IH. split; [by right|]. by intros [[e ?]|?].
    + split; [eauto|]. intros _.
      destruct (first_rejection f settles items) as [[moment e']|];
        [case_bool_decide|]; eauto.
Qed.

Lemma Promise_all_rejected {A B : Type} (f : A → outcome B) settles items :
  Exists (λ item, ∃ e, f item = Rejected e) items ↔
  ∃ e, Promise_all f settles items = Rejected e.
Proof.
  rewrite <- (first_rejection_is_Some f settles). unfold Promise_all.
  destruct (first_rejection f settles items) as [[moment e]|].
  - split; [intros _; by exists e|intros _; by eexists].
  - split; [by intros []|by intros [e ?]].
Qed.

Lemma first_rejection_Some {A B : Type} (f : A → outcome B) settles items
    moment e :
  first_rejection f settles items = Some (moment, e) →
  ∃ item, item ∈ items ∧ f item = Rejected e ∧ settles item = moment ∧
    ∀ other e', other ∈ items → f other = Rejected e' →
                moment ≤ settles other.
Proof.
  revert moment e. induction items as [|x items IH]; intros moment e; [done|].
  simpl. destruct (f x) as [y|ex] eqn:Hx.
  - intros Hrest. destruct (IH moment e Hrest) as (item & Hin & Hitem & Ht & Hmin).
    exists item. split; [by apply list_elem_of_further|]. do 2 (split; [done|]).
    intros other e' [->|Hother]%elem_of_cons Ho; [congruence|eauto].
  - destruct (first_rejection f settles items) as [[moment' e']|] eqn:Hrest.
    + destruct (IH moment' e' eq_refl) as (item & Hin & Hitem & Ht & Hmin).
      case_bool_decide as Hlt; intros [= <- <-].
      * exists item. split; [by apply list_elem_of_further|].
        do 2 (split; [done|]).
        intros other e'' [->|Hother]%elem_of_cons Ho; [lia|eauto].
      * exists x. split; [apply list_elem_of_here|]. do 2 (split; [done|]).
        intros other e'' [->|Hother]%elem_of_cons Ho; [done|].
        specialize (Hmin other e'' Hother Ho). lia.
    + intros [= <- <-]. exists x. split; [apply list_elem_of_here|].
      do 2 (split; [done|]).
      intros other e'' [->|Hother]%elem_of_cons Ho; [done|].
      apply first_rejection_None in Hrest.
      rewrite Forall_forall in Hrest. destruct (Hrest other Hother). congruence.
Qed.

(** The rejection that [Promise.all] reports is the one of an element, and
    no rejection of the list settles before it. *)
Lemma Promise_all_reports_first {A B : Type} (f : A → outcome B) settles items e :
  Promise_all f settles items = Rejected e →
  ∃ item, item ∈ items ∧ f item = Rejected e ∧
    ∀ other e', other ∈ items → f other = Rejected e' →
                settles item ≤ settles other.
Proof.
  unfold Promise_all.
  destruct (first_rejection f settles items) as [[moment e0]|] eqn:Hfirst;
    [|done].
  intros [= ->].
  destruct (first_rejection_Some f settles items moment e Hfirst)
    as (item & ? & ? & <- & ?).
  eauto.
Qed.

Lemma own_request_settles env req s :
  ∃ s', own_request env req s = (s', Resolved ()) ∧
    active s' = false ∧
    isCanceled s' = isCanceled s ∧ paused s' = paused s ∧
    delegated s' = delegated s ∧
    requests s' = requests s ++ [req] ∧
    (∀ e, raises env req e → errorSubject s' = errorSubject s ++ [e]) ∧
    ((∀ e, ¬ raises env req e) → errorSubject s' = errorSubject s) ∧
    (syncCompleted s = true → syncCompleted s' = true) ∧
    (∀ response,
        httpClient env req = Resolved response →
        Array_isArray (data_of response) = Some [] →
        syncCompleted s' = true).
Proof.
  unfold own_request. cycle_unfold. simpl.
  destruct (httpClient env req) as [response|e] eqn:Hhttp; simpl.
  - destruct (Array_isArray (data_of response)) as [docs|] eqn:Hdata; simpl.
    + destruct (bool_decide (length docs = 0)) eqn:Hlen; simpl.
      all: destruct (Promise_all (parse_document env) (document_settles env) docs)
             as [documents|e] eqn:Hall; simpl.
      all: try (destruct (bulkUpsert env documents) as [[]|e] eqn:Hbulk; simpl).
      all: eexists; split; [reflexivity|]; simpl; repeat split; try done.
      all: try (intros e' Hr; inversion Hr; congruence).
      all: try (intros Hno; exfalso; eapply Hno; econstructor; eauto; fail).
      all: try (intros r Hr Hd; simplify_eq; apply bool_decide_eq_false in Hlen;
                simpl in Hlen; done).
    + eexists; split; [reflexivity|]; simpl; repeat split; try done.
      * intros e' Hr; inversion Hr; congruence.
      * intros Hno; exfalso; eapply Hno. eapply raises_not_a_list; eauto.
      * intros r Hr Hd. simplify_eq.
  - eexists; split; [reflexivity|]; simpl; repeat split; try done.
    + intros e' Hr; inversion Hr; congruence.
    + intros Hno; exfalso; eapply Hno. eapply raises_network; eauto.
Qed.

Lemma fetchUnsynced_delegates env s include exclude :
  started_cycle env s include exclude →
  syncCompleted s = true →
  ∃ s', fetchUnsynced env s = (s', collection_fetchUnsynced env) ∧
    active s' = false ∧ syncCompleted s' = true ∧
    requests s' = requests s ∧ errorSubject s' = errorSubject s ∧
    delegated s' = S (delegated s).
Proof.
  intros (Hstop & Hact & Hinc & Hexc) Hsync.
  cycle_unfold. rewrite Hstop, Hact, Hinc, Hexc. simpl. rewrite Hsync. simpl.
  eexists. split; [reflexivity|]. done.
Qed.

Lemma fetchUnsynced_keeps_syncCompleted env s :
  syncCompleted s = true → syncCompleted (fetchUnsynced env s).1 = true.
Proof.
  intros Hsync. cycle_unfold.
  destruct (isStopped s || active s); simpl; [done|].
  destruct (getUnsyncedRemoteIDs env); simpl; [|done].
  destruct (getSyncedRemoteIDs env); simpl; [|done].
  rewrite Hsync. simpl. done.
Qed.

Lemma fetchUnsynced_exhausted_requests env s :
  syncCompleted s = true → requests (fetchUnsynced env s).1 = requests s.
Proof.
  intros Hsync. cycle_unfold.
  destruct (isStopped s || active s); simpl; [done|].
  destruct (getUnsyncedRemoteIDs env); simpl; [|done].
  destruct (getSyncedRemoteIDs env); simpl; [|done].
  rewrite Hsync. simpl. done.
Qed.

Lemma calls_keep_syncCompleted cs s :
  syncCompleted s = true → syncCompleted (calls cs s) = true.
Proof.
  revert s. induction cs as [|c cs IH]; intros s Hsync; [done|].
  apply IH. destruct c; simpl; [|done..].
  by apply fetchUnsynced_keeps_syncCompleted.
Qed.

(** The ID-set lookups precede the [try] statement: when one of them
    rejects, the rejection reaches the caller and the cycle ends with
    [active] still set. *)
Lemma fetchUnsynced_lookup_rejection env s e :
  isStopped s = false → active s = false →
  getUnsyncedRemoteIDs env = Rejected e →
  (fetchUnsynced env s).2 = Rejected e ∧
  active (fetchUnsynced env s).1 = true ∧
  errorSubject (fetchUnsynced env s).1 = errorSubject s.
Proof.
  intros Hstop Hact Hinc. cycle_unfold. rewrite Hstop, Hact, Hinc. done.
Qed.

(** With no unsynced ID the cursor is used although synced IDs exist, and a
    response that is not a list ends on the error channel. *)
Example fetchUnsynced_cursor_request :
  fetchUnsynced (serving [] [4; 5]%Z JNull) running
  = (mkState false false false false [invalid_response]
       [Get "2024-05-01T10:00:00"] 0 [], Resolved ()).
Proof. reflexivity. Qed.

(** C1 (as amended). In a cycle that issues its own request, exactly one
    request is sent and it carries the smaller ID set: the modified-after
    cursor whenever the unsynced set is empty (whatever the synced set holds),
    [exclude] with the synced IDs when they are strictly fewer than the
    unsynced IDs, and [include] with the unsynced IDs otherwise. *)
Theorem fetchUnsynced_request_strategy env s unsynced synced :
  own_cycle env s (Some unsynced) (Some synced) →
  let sent := drop (length (requests s)) (requests (fetchUnsynced env s).1) in
  take (length (requests s)) (requests (fetchUnsynced env s).1) = requests s ∧
  (unsynced = [] → sent = [Get (lastModified env)]) ∧
  (unsynced ≠ [] → length synced < length unsynced →
     sent = [Post None (Some synced)]) ∧
  (unsynced ≠ [] → length unsynced ≤ length synced →
     sent = [Post (Some unsynced) None]).
Proof.
  intros Hown. simpl.
  rewrite (fetchUnsynced_own_cycle _ _ _ _ Hown).
  destruct (own_request_settles env
              (chosen_request (Some unsynced) (Some synced) (lastModified env))
              (active_next true s).1)
    as (s' & -> & _ & _ & _ & _ & Hreq & _).
  simpl in *. rewrite Hreq.
  rewrite take_app_length, drop_app_length.
  split; [done|]. unfold chosen_request, length_lt. simpl.
  destruct unsynced as [|u unsynced]; simpl.
  - split; [done|split; intros Hne; by destruct Hne].
  - case_bool_decide; (split; [done|split]); intros; try done; simpl in *; lia.
Qed.

Lemma fetchUnsynced_request_strategy_witness :
  take 0 (requests (fetchUnsynced (serving [1; 2; 3]%Z [4]%Z (JArr [])) running).1)
    = [] ∧
  drop 0 (requests (fetchUnsynced (serving [1; 2; 3]%Z [4]%Z (JArr [])) running).1)
    = [Post None (Some [4]%Z)].
Proof.
  destruct (fetchUnsynced_request_strategy
              (serving [1; 2; 3]%Z [4]%Z (JArr [])) running [1; 2; 3]%Z [4]%Z)
    as (Hold & _ & Hexclude & _).
  - repeat split.
  - split; [exact Hold|]. apply Hexclude; [done|simpl; lia].
Defined.

(** C1 (as stated) fails: with unsynced IDs 1, 2, 3 and the single synced
    ID 4 the synced IDs do not outnumber the unsynced ones, yet the request
    is made by [exclude]. *)
Lemma fetchUnsynced_request_not_as_specified : ¬ request_as_specified.
Proof.
  intros Hspec.
  specialize (Hspec (serving [1; 2; 3]%Z [4]%Z (JArr [])) running
                [1; 2; 3]%Z [4]%Z).
  assert (Hown : own_cycle (serving [1; 2; 3]%Z [4]%Z (JArr [])) running
                   (Some [1; 2; 3]%Z) (Some [4]%Z)) by (repeat split).
  specialize (Hspec Hown). vm_compute in Hspec. discriminate Hspec.
Qed.

(** C2 (as amended). A cycle whose request is answered by an empty list
    sets [syncCompleted]; from then on, whatever calls are made in between,
    a [fetchUnsynced] of the replicator, while it is not stopped and not
    active, sends no request of its own, and it hands over to
    [collectionReplication.fetchUnsynced()] once the two ID-set lookups,
    which it awaits first, have resolved. *)
Theorem sync_exhaustion_delegates env s include exclude response :
  own_cycle env s include exclude →
  httpClient env (chosen_request include exclude (lastModified env))
    = Resolved response →
  Array_isArray (data_of response) = Some [] →
  syncCompleted (fetchUnsynced env s).1 = true ∧
  ∀ later env',
    let before := calls later (fetchUnsynced env s).1 in
    let after := (fetchUnsynced env' before).1 in
    isStopped before = false → active before = false →
    requests after = requests before ∧
    ∀ include' exclude',
      getUnsyncedRemoteIDs env' = Resolved include' →
      getSyncedRemoteIDs env' = Resolved exclude' →
      delegated after = S (delegated before) ∧
      (fetchUnsynced env' before).2 = collection_fetchUnsynced env'.
Proof.
  intros Hown Hhttp Hdata.
  assert (Hdone : syncCompleted (fetchUnsynced env s).1 = true).
  { rewrite (fetchUnsynced_own_cycle _ _ _ _ Hown).
    destruct (own_request_settles env
                (chosen_request include exclude (lastModified env))
                (active_next true s).1)
      as (s' & -> & _ & _ & _ & _ & _ & _ & _ & _ & Hempty).
    simpl. eauto. }
  split; [done|]. intros later env'. simpl. intros Hstop Hact.
  assert (Hlater : syncCompleted (calls later (fetchUnsynced env s).1) = true)
    by by apply calls_keep_syncCompleted.
  split; [by apply fetchUnsynced_exhausted_requests|].
  intros include' exclude' Hinc Hexc.
  destruct (fetchUnsynced_delegates env'
              (calls later (fetchUnsynced env s).1) include' exclude')
    as (s' & -> & _ & _ & _ & _ & Hdel); done.
Qed.

Lemma sync_exhaustion_delegates_witness :
  syncCompleted (fetchUnsynced (serving [7]%Z [] (JArr [])) running).1 = true ∧
  delegated (fetchUnsynced (serving [7]%Z [] (JArr []))
               (fetchUnsynced (serving [7]%Z [] (JArr [])) running).1).1 = 1.
Proof.
  destruct (sync_exhaustion_delegates (serving [7]%Z [] (JArr [])) running
              (Some [7]%Z) (Some []) (Some (mkResponse (JArr []))))
    as [Hdone Hnext].
  - repeat split.
  - reflexivity.
  - reflexivity.
  - split; [exact Hdone|].
    destruct (Hnext [] (serving [7]%Z [] (JArr []))) as (_ & Hdelegates).
    + reflexivity.
    + reflexivity.
    + destruct (Hdelegates (Some [7]%Z) (Some [])) as (Hdel & _).
      * reflexivity.
      * reflexivity.
      * exact Hdel.
Defined.

(** C2 (as stated) fails: the ID sets are looked up before [syncCompleted]
    is tested. After a cycle that was answered with an empty list, a call
    on the replicator, not stopped and not active, whose lookup of the
    unsynced IDs is rejected, does not delegate. *)
Lemma sync_exhaustion_not_as_specified : ¬ exhaustion_as_specified.
Proof.
  intros Hspec.
  destruct (Hspec (serving [7]%Z [] (JArr [])) running (Some [7]%Z) (Some [])
              (Some (mkResponse (JArr []))) []
              (unreachable [7]%Z [] (JArr [])))
    as (_ & _ & Hdel).
  - repeat split.
  - reflexivity.
  - reflexivity.
  - reflexivity.
  - reflexivity.
  - vm_compute in Hdel. discriminate Hdel.
Qed.




(** Of two records of a page that fail, the one whose promise is rejected
    first is reported: a record that [parseRestResponse] refuses comes
    before a record whose references cannot be resolved, also when it
    stands later in the page. *)
Example parse_failure_reported_first :
  errorSubject
    (fetchUnsynced
       (mkEnv (Resolved (Some [7]%Z)) (Resolved (Some [])) "0" (Resolved ())
          (λ _, Resolved (Some (mkResponse (JArr [JNum 1; JNum 2]))))
          (λ doc, match doc with
                  | JNum 2 => Rejected (mkError "parse 2")
                  | _ => Resolved doc
                  end)
          (λ doc, Rejected (mkError "refs 1")) (λ _, 0)
          (λ _, Resolved ()))
       running).1
  = [mkError "parse 2"].
Proof. vm_compute. reflexivity. Qed.

End QueryReplicationState_properties.
(* --------------------------------------------------------------------- *)
(** ** JavaScript objects                                                *)
(* --------------------------------------------------------------------- *)

Section JsObjects.
#[local] Set Warnings "-clear-no-such-hyp".

(** *** Objects written with [obj_set] *)

Lemma obj_lookup_None {V : Type} key (obj : list (string * V)) :
  obj_lookup key obj = None ↔ key ∉ obj.*1.
Proof.
  induction obj as [|[k w] obj IH]; simpl.
  - split; [intros _; apply not_elem_of_nil|done].
  - rewrite not_elem_of_cons. destruct (String.eqb_spec k key) as [->|Hne].
    + split; [done|]. by intros [? _].
    + rewrite IH. split; [|by intros [_ ?]].
      intros Hin. split; [congruence|done].
Qed.

Lemma obj_lookup_assign {V : Type} key key' (v : V) obj :
  key ∈ obj.*1 →
  obj_lookup key' (obj_assign key v obj)
  = if bool_decide (key' = key) then Some v else obj_lookup key' obj.
Proof.
  induction obj as [|[k w] obj IH]; simpl.
  - by intros ?%elem_of_nil.
  - intros Hin. destruct (String.eqb_spec k key) as [->|Hne]; simpl.
    + destruct (String.eqb_spec key key') as [->|Hne'].
      * by rewrite bool_decide_eq_true_2.
      * by rewrite bool_decide_eq_false_2.
    + apply elem_of_cons in Hin as [Hin|Hin]; [congruence|].
      destruct (String.eqb_spec k key') as [->|Hne'].
      * by rewrite bool_decide_eq_false_2.
      * by apply IH.
Qed.

Lemma obj_lookup_insert_index {V : Type} n key key' (v : V) obj :
  key ∉ obj.*1 →
  obj_lookup key' (obj_insert_index n key v obj)
  = if bool_decide (key' = key) then Some v else obj_lookup key' obj.
Proof.
  assert (Hhere : ∀ rest : list (string * V),
            obj_lookup key' ((key, v) :: rest)
            = if bool_decide (key' = key) then Some v else obj_lookup key' rest).
  { intros rest. simpl. destruct (String.eqb_spec key key') as [->|Hne].
    - by rewrite bool_decide_eq_true_2.
    - by rewrite bool_decide_eq_false_2. }
  induction obj as [|[k w] obj IH]; intros Hfresh.
  - apply Hhere.
  - cbn [obj_insert_index]. rewrite fmap_cons in Hfresh.
    apply not_elem_of_cons in Hfresh as [Hne Hfresh].
    destruct (array_index k) as [m|]; [|apply Hhere].
    destruct (m <? n)%N; [|apply Hhere].
    simpl. destruct (String.eqb_spec k key') as [->|Hne'].
    + by rewrite bool_decide_eq_false_2.
    + by apply IH.
Qed.

Lemma obj_lookup_snoc {V : Type} key key' (v : V) obj :
  key ∉ obj.*1 →
  obj_lookup key' (obj ++ [(key, v)])
  = if bool_decide (key' = key) then Some v else obj_lookup key' obj.
Proof.
  induction obj as [|[k w] obj IH]; intros Hfresh; simpl.
  - destruct (String.eqb_spec key key') as [->|Hne].
    + by rewrite bool_decide_eq_true_2.
    + by rewrite bool_decide_eq_false_2.
  - rewrite fmap_cons in Hfresh.
    apply not_elem_of_cons in Hfresh as [Hne Hfresh].
    destruct (String.eqb_spec k key') as [->|Hne'].
    + by rewrite bool_decide_eq_false_2.
    + by apply IH.
Qed.

Lemma obj_lookup_set {V : Type} key key' (v : V) obj :
  obj_lookup key' (obj_set key v obj)
  = if bool_decide (key' = key) then Some v else obj_lookup key' obj.
Proof.
  unfold obj_set. case_bool_decide as Hin.
  - by apply obj_lookup_assign.
  - destruct (array_index key) as [n|].
    + by apply obj_lookup_insert_index.
    + by apply obj_lookup_snoc.
Qed.

Lemma obj_lookup_set_eq {V : Type} key (v : V) obj :
  obj_lookup key (obj_set key v obj) = Some v.
Proof. rewrite obj_lookup_set. by rewrite bool_decide_eq_true_2. Qed.

Lemma obj_lookup_set_ne {V : Type} key key' (v : V) obj :
  key ≠ key' → obj_lookup key' (obj_set key v obj) = obj_lookup key' obj.
Proof.
  intros Hne. rewrite obj_lookup_set. by rewrite bool_decide_eq_false_2.
Qed.

Lemma obj_assign_keys {V : Type} key (v : V) obj :
  (obj_assign key v obj).*1 = obj.*1.
Proof.
  induction obj as [|[k w] obj IH]; [done|].
  cbn [obj_assign]. destruct (String.eqb k key); rewrite !fmap_cons; [done|].
  by rewrite IH.
Qed.

Lemma obj_insert_index_keys {V : Type} n key (v : V) obj :
  (obj_insert_index n key v obj).*1 ≡ₚ key :: obj.*1.
Proof.
  induction obj as [|[k w] obj IH]; [done|].
  cbn [obj_insert_index]. destruct (array_index k) as [m|]; [|done].
  destruct (m <? n)%N; [|done].
  rewrite !fmap_cons, IH. cbn [fst]. apply Permutation_swap.
Qed.

(** The keys of an object after [obj[key] = v]. *)
Lemma obj_set_keys {V : Type} key (v : V) obj :
  (obj_set key v obj).*1 ≡ₚ
    if bool_decide (key ∈ obj.*1) then obj.*1 else key :: obj.*1.
Proof.
  unfold obj_set. case_bool_decide as Hin.
  - by rewrite obj_assign_keys.
  - destruct (array_index key) as [n|].
    + apply obj_insert_index_keys.
    + rewrite fmap_app. simpl. by rewrite Permutation_app_comm.
Qed.

Lemma obj_set_NoDup {V : Type} key (v : V) obj :
  NoDup obj.*1 → NoDup (obj_set key v obj).*1.
Proof.
  intros Hobj. rewrite obj_set_keys. case_bool_decide; [done|].
  by apply NoDup_cons.
Qed.

Lemma obj_set_fresh {V : Type} key (v : V) obj :
  key ∉ obj.*1 → array_index key = None →
  obj_set key v obj = obj ++ [(key, v)].
Proof.
  intros Hfresh Hname. unfold obj_set.
  by rewrite bool_decide_eq_false_2, Hname.
Qed.

Lemma obj_lookup_cons {V : Type} key k (v : V) obj :
  obj_lookup key ((k, v) :: obj)
  = if bool_decide (key = k) then Some v else obj_lookup key obj.
Proof.
  simpl. destruct (String.eqb_spec k key); case_bool_decide; congruence.
Qed.

(** *** Structural equality *)

Lemma structurally_equal_properties a b key :
  structurally_equal (JObj a) (JObj b) →
  option_Forall2 structurally_equal (obj_lookup key a) (obj_lookup key b).
Proof.
  inversion 1 as [|?|? ? Hall]; subst; [|done].
  destruct (obj_lookup key b); constructor. apply equal_same.
Qed.

Lemma structurally_equal_JStr s v :
  structurally_equal (JStr s) v ∨ structurally_equal v (JStr s) → v = JStr s.
Proof. by intros [H|H]; inversion H. Qed.

Lemma structurally_equal_JUndefined v :
  structurally_equal JUndefined v ∨ structurally_equal v JUndefined →
  v = JUndefined.
Proof. by intros [H|H]; inversion H. Qed.

Lemma structurally_equal_set key v a b :
  structurally_equal (JObj a) (JObj b) →
  structurally_equal (JObj (obj_set key v a)) (JObj (obj_set key v b)).
Proof.
  intros Hab. apply equal_objects. intros key'. rewrite !obj_lookup_set.
  case_bool_decide; [constructor; apply equal_same|].
  by apply structurally_equal_properties.
Qed.

(** *** Parameter snapshots as objects *)

Lemma elem_of_first_occurrences {A : Type} `{EqDecision A} (x : A) l :
  x ∈ first_occurrences l ↔ x ∈ l.
Proof.
  induction l as [|y l IH]; [done|].
  cbn [first_occurrences]. rewrite !elem_of_cons, list_elem_of_filter, IH.
  destruct (decide (x = y)); naive_solver.
Qed.

Lemma param_name_inj k k' : param_name k = param_name k' → k = k'.
Proof. by destruct k, k'. Qed.

Lemma params_lookup (value_of : ParamKey → JsValue) l k :
  obj_lookup (param_name k) ((λ k, (param_name k, value_of k)) <$> l)
  = if bool_decide (k ∈ l) then Some (value_of k) else None.
Proof.
  induction l as [|k0 l IH].
  - by rewrite bool_decide_eq_false_2 by apply not_elem_of_nil.
  - rewrite fmap_cons. cbn [obj_lookup].
    destruct (String.eqb_spec (param_name k0) (param_name k)) as [Heq|Hne].
    + apply param_name_inj in Heq as ->.
      rewrite bool_decide_eq_true_2; [done|apply list_elem_of_here].
    + rewrite IH. destruct (decide (k ∈ l)) as [Hin|Hin].
      * rewrite !bool_decide_eq_true_2; [done|by apply list_elem_of_further|done].
      * rewrite !bool_decide_eq_false_2; [done| |done].
        rewrite elem_of_cons. intros [->|?]; done.
Qed.

Lemma defined_value_own_key p k :
  is_Some (defined_value p k) → k ∈ own_keys p.
Proof.
  intros Hvalue. unfold own_keys. rewrite elem_of_first_occurrences.
  apply elem_of_app. right. apply list_elem_of_filter. split; [done|].
  destruct k; set_solver.
Qed.

Lemma defined_value_not_undefined p k :
  defined_value p k ≠ Some JUndefined.
Proof.
  destruct k; simpl.
  - by destruct (search p) as [[text|entries]|].
  - by destruct (sortBy p).
  - by destruct (sortDirection p).
  - by destruct (selector p).
Qed.

(** Structurally equal snapshots have the same defined properties, with
    structurally equal values. *)
Lemma snapshots_equal_values p p' k :
  structurally_equal (params_to_js p) (params_to_js p') →
  option_Forall2 structurally_equal (defined_value p k) (defined_value p' k).
Proof.
  intros Hequal.
  apply (structurally_equal_properties _ _ (param_name k)) in Hequal.
  rewrite !params_lookup in Hequal. unfold param_value in Hequal.
  pose proof (defined_value_own_key p k) as Hown.
  pose proof (defined_value_own_key p' k) as Hown'.
  pose proof (defined_value_not_undefined p k) as Hdef.
  pose proof (defined_value_not_undefined p' k) as Hdef'.
  destruct (defined_value p k) as [v|], (defined_value p' k) as [v'|];
    simpl in *.
  - rewrite !bool_decide_eq_true_2 in Hequal by eauto.
    inversion Hequal; subst. by constructor.
  - rewrite bool_decide_eq_true_2 in Hequal by eauto.
    case_bool_decide; inversion Hequal as [? ? Hv|]; subst.
    exfalso. apply Hdef. f_equal. apply structurally_equal_JUndefined. by right.
  - rewrite (bool_decide_eq_true_2 (k ∈ own_keys p')) in Hequal by eauto.
    case_bool_decide; inversion Hequal as [? ? Hv|]; subst.
    exfalso. apply Hdef'. f_equal. apply structurally_equal_JUndefined. by left.
  - constructor.
Qed.

(** *** Keys of indexed elements *)

Lemma pretty_N_char_digit x : is_Some (digit (pretty_N_char x)).
Proof.
  unfold pretty_N_char. repeat case_match; vm_compute; eauto.
Qed.

Lemma pretty_N_go_leading_digit x s c rest :
  (∀ c rest, s = String c rest → is_Some (digit c)) →
  pretty_N_go x s = String c rest → is_Some (digit c).
Proof.
  revert s. induction (N.lt_wf_0 x) as [x _ IH]; intros s Hs.
  destruct (decide (x = 0%N)) as [->|Hx].
  - rewrite pretty_N_go_0. apply Hs.
  - rewrite pretty_N_go_step by lia. apply IH.
    + apply N.div_lt; lia.
    + intros c' rest' [= <- <-]. apply pretty_N_char_digit.
Qed.

(** The numeral of an index begins with a digit. *)
Lemma index_name_leading_digit (index : nat) c rest :
  pretty index = String c rest → is_Some (digit c).
Proof.
  unfold pretty, pretty_nat, pretty, pretty_N. case_decide.
  - intros [= <- <-]. vm_compute. eauto.
  - apply pretty_N_go_leading_digit. intros ? ? [=].
Qed.

Lemma property_name_uuid key :
  property_name key = "uuid" → key = KeyName "uuid".
Proof.
  destruct key as [name|index]; simpl; [by intros ->|].
  intros Hname. apply index_name_leading_digit in Hname as [d Hd].
  vm_compute in Hd. discriminate Hd.
Qed.

Lemma filter_mapped {A B : Type} (f : A → B) (P : B → Prop)
    `{!∀ y, Decision (P y)} (l : list A) :
  filter P (f <$> l) = f <$> filter (λ x, P (f x)) l.
Proof.
  induction l as [|x l IH]; [done|].
  rewrite fmap_cons. destruct (decide (P (f x))).
  - rewrite !filter_cons_True by done. by rewrite fmap_cons, IH.
  - rewrite !filter_cons_False by done. done.
Qed.

Lemma filter_absent {A : Type} (P : A → Prop) `{!∀ x, Decision (P x)}
    (l : list A) :
  (∀ x, x ∈ l → ¬ P x) → filter P l = [].
Proof.
  induction l as [|x l IH]; [done|]. intros Hnone.
  rewrite filter_cons_False by (apply Hnone, list_elem_of_here).
  apply IH. intros y Hy. by apply Hnone, list_elem_of_further.
Qed.

Lemma filter_seq_index (index length : nat) :
  index < length →
  filter (λ i, i = index) (seq 0 length) = [index].
Proof.
  induction length as [|length IH]; [lia|]. intros Hlt.
  rewrite seq_S, filter_app. cbn [Nat.add].
  destruct (decide (index = length)) as [->|Hne].
  - rewrite filter_absent.
    + by rewrite filter_cons_True.
    + intros i Hi%elem_of_seq. lia.
  - rewrite IH by lia. by rewrite filter_cons_False by done.
Qed.

End JsObjects.


Section QueryState_properties.
Import QueryState.
#[local] Set Warnings "-clear-no-such-hyp".

Lemma every_from_lookup {A : Type} (f : A → nat → bool) (n : nat) (l : list A) :
  every_from f n l = true ↔ ∀ i x, l !! i = Some x → f x (n + i) = true.
Proof.
  revert n. induction l as [|y l IH]; intros n; simpl.
  - split; [|done]. intros _ i x Hx. by rewrite lookup_nil in Hx.
  - rewrite andb_true_iff, IH. split.
    + intros [Hy Hl] [|i] x Hx; simpl in Hx.
      * simplify_eq. by rewrite Nat.add_0_r.
      * replace (n + S i) with (S n + i) by lia. by apply (Hl i x).
    + intros Hall. split.
      * rewrite <- (Nat.add_0_r n). by apply Hall.
      * intros i x Hx. replace (S n + i) with (n + S i) by lia.
        by apply (Hall (S i)).
Qed.

(** The comparator holds exactly under the conditions of the data model. *)
Lemma results_equivalent_iff prev next :
  results_equivalent prev next = true ↔
    searchActive prev = searchActive next ∧
    searchTerm prev = searchTerm next ∧
    id <$> hits prev = id <$> hits next ∧
    (searchActive next = true →
       ∀ i hit nextHit,
         hits prev !! i = Some hit → hits next !! i = Some nextHit →
         score hit = score nextHit ∧
         parentSearchTerm hit = parentSearchTerm nextHit ∧
         childrenSearchCount hit = childrenSearchCount nextHit).
Proof.
  unfold results_equivalent, every.
  destruct (decide (searchActive prev = searchActive next)) as [Hact|Hact];
    [rewrite (bool_decide_eq_true_2 _ Hact)
    |rewrite (bool_decide_eq_false_2 _ Hact); simpl; naive_solver].
  destruct (decide (searchTerm prev = searchTerm next)) as [Hterm|Hterm];
    [rewrite (bool_decide_eq_true_2 _ Hterm)
    |rewrite (bool_decide_eq_false_2 _ Hterm); simpl; naive_solver].
  destruct (decide (id <$> hits prev = id <$> hits next)) as [Hids|Hids];
    [rewrite (bool_decide_eq_true_2 _ Hids)
    |rewrite (bool_decide_eq_false_2 _ Hids); simpl; naive_solver].
  simpl. destruct (searchActive next); [|naive_solver].
  rewrite every_from_lookup. simpl. split.
  - intros Hall. do 3 (split; [done|]). intros _ i hit nextHit Hhit Hnext.
    specialize (Hall i hit Hhit). rewrite Hnext in Hall.
    rewrite !andb_true_iff, !bool_decide_eq_true in Hall. naive_solver.
  - intros (_ & _ & _ & Hall) i hit Hhit.
    assert (is_Some (hits next !! i)) as [nextHit Hnext].
    { apply lookup_lt_is_Some.
      rewrite <- (length_fmap id (hits next)), <- Hids, length_fmap.
      by eapply lookup_lt_Some. }
    rewrite Hnext, !andb_true_iff, !bool_decide_eq_true.
    destruct (Hall eq_refl i hit nextHit Hhit Hnext) as (? & ? & ?). done.
Qed.

Lemma results_equivalent_refl r elapsed' :
  results_equivalent r
    (mkResult elapsed' (searchActive r) (searchTerm r) (count r) (hits r)) = true.
Proof.
  apply results_equivalent_iff. simpl. do 3 (split; [done|]).
  intros _ i hit nextHit Hhit Hnext. by simplify_eq.
Qed.

Lemma snoc_neq {A : Type} (l : list A) (x : A) : l ++ [x] ≠ l.
Proof.
  intros Heq. apply (f_equal length) in Heq.
  rewrite length_app in Heq. simpl in Heq. lia.
Qed.

(** C7. When the inner observable emits [next] after [prev] went to the
    result stream, [next] is withheld if and only if [searchActive] and
    [searchTerm] are unchanged, the hit ids are the same list, and, when
    search is active, corresponding hits agree on [score],
    [parentSearchTerm] and [childrenSearchCount]; otherwise [next] is
    emitted. A value that differs from [prev] in [elapsed] only is always
    withheld. *)
Theorem consecutive_results_suppressed rev lib env q p startTime prev :
  subscribed q = Some (p, startTime) →
  last (result q) = Some prev →
  let next := find_result rev lib (hooks q) env startTime (Some p) in
  (result (find_emits rev lib env q) = result q ↔
     searchActive prev = searchActive next ∧
     searchTerm prev = searchTerm next ∧
     id <$> hits prev = id <$> hits next ∧
     (searchActive next = true →
        ∀ i hit nextHit,
          hits prev !! i = Some hit → hits next !! i = Some nextHit →
          score hit = score nextHit ∧
          parentSearchTerm hit = parentSearchTerm nextHit ∧
          childrenSearchCount hit = childrenSearchCount nextHit)) ∧
  (result (find_emits rev lib env q) ≠ result q →
     result (find_emits rev lib env q) = result q ++ [next]) ∧
  (∀ elapsed',
     results_equivalent prev
       (mkResult elapsed' (searchActive prev) (searchTerm prev) (count prev)
          (hits prev)) = true).
Proof.
  intros Hsub Hlast next.
  assert (Hemit : result (find_emits rev lib env q) =
                  if results_equivalent prev next then result q
                  else result q ++ [next]).
  { unfold find_emits. rewrite Hsub. simpl. rewrite Hlast. simpl.
    fold next. by destruct (results_equivalent prev next). }
  rewrite Hemit. rewrite <- results_equivalent_iff.
  split; [|split].
  - destruct (results_equivalent prev next); [done|].
    split; [|done]. intros Heq. by apply snoc_neq in Heq.
  - by destruct (results_equivalent prev next).
  - intros elapsed'. apply results_equivalent_refl.
Qed.

Lemma find_result_count rev lib queryHooks env startTime p :
  count (find_result rev lib queryHooks env startTime p)
  = length (hits (find_result rev lib queryHooks env startTime p)).
Proof.
  unfold find_result. simpl.
  destruct (search_is_active _).
  - unfold handleSearchActive. destruct rev; simpl; [done|].
    by rewrite length_fmap.
  - unfold handleSearchInactive. simpl. by rewrite length_fmap.
Qed.

Lemma updateParams_result rev lib startTime additional q :
  result (updateParams rev lib startTime additional q) = result q.
Proof. done. Qed.

Lemma step_result rev lib q ev :
  result (step rev lib q ev) = result q ∨
  ∃ env startTime p,
    result (step rev lib q ev)
    = result q ++ [find_result rev lib (hooks q) env startTime p].
Proof.
  destruct ev as [t f v|t arg|t query|t p|env]; simpl; try by left.
  - unfold sort. repeat case_match; simplify_eq; by left.
  - unfold find_emits. destruct (subscribed q) as [[p t]|]; [|by left].
    simpl. case_match; [right; eauto|by left].
Qed.

(** C9. Every value on the result stream of an instance, whichever path
    produced it and with the [postQueryResult] hook applied, has a [count]
    equal to the number of its [hits]. *)
Theorem emitted_count_is_hits_length rev lib q :
  reachable rev lib q →
  Forall (λ r, count r = length (hits r)) (result q).
Proof.
  induction 1 as [startTime queryHooks initialParams|q ev Hq IH].
  - simpl. constructor.
  - destruct (step_result rev lib q ev) as [->|(env & t & p & ->)]; [done|].
    apply Forall_app. split; [done|].
    constructor; [apply find_result_count|constructor].
Qed.

Lemma step_streams rev lib q ev :
  hooks (step rev lib q ev) = hooks q.
Proof.
  destruct ev as [t f v|t arg|t query|t p|env]; simpl; try done.
  - unfold sort. repeat case_match; by simplify_eq.
  - unfold find_emits. by repeat case_match.
Qed.

(** In the revision with the comparator on [params$], the subscribed
    snapshot always serializes like the last pushed one. *)
Lemma params_next_subscribed lib startTime p q :
  ∃ p1 t,
    subscribed (params_next UnnamedPart lib startTime p q) = Some (p1, t) ∧
    JSON_stringify lib (params_to_js p1) = JSON_stringify lib (params_to_js p).
Proof.
  unfold params_next, params_unchanged. simpl.
  destruct (subscribed q) as [[p1 t]|]; simpl; [|eauto].
  case_bool_decide; eauto.
Qed.

Lemma params_next_invariant lib startTime p q :
  ∃ p0 p1 t,
    params (params_next UnnamedPart lib startTime p q) = Some p0 ∧
    subscribed (params_next UnnamedPart lib startTime p q) = Some (p1, t) ∧
    JSON_stringify lib (params_to_js p1) = JSON_stringify lib (params_to_js p0).
Proof.
  destruct (params_next_subscribed lib startTime p q) as (p1 & t & Hsub & Hjson).
  exists p, p1, t. done.
Qed.

Lemma reachable_subscribed lib q :
  reachable UnnamedPart lib q →
  ∃ p0 p1 t,
    params q = Some p0 ∧ subscribed q = Some (p1, t) ∧
    JSON_stringify lib (params_to_js p1) = JSON_stringify lib (params_to_js p0).
Proof.
  induction 1 as [startTime queryHooks initialParams|q ev Hq IH].
  - apply params_next_invariant.
  - destruct ev as [t' f v|t' arg|t' query|t' p|env]; simpl.
    + apply params_next_invariant.
    + unfold sort.
      destruct arg as [s d|sortObj]; [|destruct (last sortObj) as [[s d]|]];
        try apply params_next_invariant.
      done.
    + apply params_next_invariant.
    + apply params_next_invariant.
    + destruct IH as (p0 & p1 & t & Hp & Hsub & Hjson).
      unfold find_emits. rewrite Hsub. simpl. eauto 10.
Qed.

Lemma find_emits_same_stream rev lib env q1 q2 :
  hooks q1 = hooks q2 → subscribed q1 = subscribed q2 → result q1 = result q2 →
  hooks (find_emits rev lib env q1) = hooks (find_emits rev lib env q2) ∧
  subscribed (find_emits rev lib env q1) = subscribed (find_emits rev lib env q2) ∧
  result (find_emits rev lib env q1) = result (find_emits rev lib env q2).
Proof.
  intros Hh Hs Hr. unfold find_emits. rewrite Hs, Hh, Hr.
  destruct (subscribed q2) as [[p t]|] eqn:Hs2; simpl; [done|].
  by rewrite Hh, Hr, Hs.
Qed.

Lemma emissions_same_stream rev lib envs q1 q2 :
  hooks q1 = hooks q2 → subscribed q1 = subscribed q2 → result q1 = result q2 →
  result (foldl (λ q env, find_emits rev lib env q) q1 envs)
  = result (foldl (λ q env, find_emits rev lib env q) q2 envs).
Proof.
  revert q1 q2. induction envs as [|env envs IH]; intros q1 q2 Hh Hs Hr; [done|].
  simpl. destruct (find_emits_same_stream rev lib env q1 q2) as (? & ? & ?);
    [done..|]. by apply IH.
Qed.

(** On an instance with the comparator on [params$], a pushed snapshot
    whose serialization is that of the last pushed one is dropped: the
    subscription of [find$] stays, and the results emitted afterwards are
    those that would have been emitted without the push. *)
Lemma unchanged_serialization_is_dropped lib q previous p startTime :
  reachable UnnamedPart lib q →
  params q = Some previous →
  JSON_stringify lib (params_to_js p) = JSON_stringify lib (params_to_js previous) →
  subscribed (params_next UnnamedPart lib startTime p q) = subscribed q ∧
  ∀ envs,
    result (foldl (λ q env, find_emits UnnamedPart lib env q)
              (params_next UnnamedPart lib startTime p q) envs)
    = result (foldl (λ q env, find_emits UnnamedPart lib env q) q envs).
Proof.
  intros Hq Hprev Hjson.
  destruct (reachable_subscribed lib q Hq) as (p0 & p1 & t & Hp & Hsub & Hsame).
  assert (Hkeep : subscribed (params_next UnnamedPart lib startTime p q)
                  = subscribed q).
  { unfold params_next, params_unchanged. simpl. rewrite Hsub. simpl.
    rewrite bool_decide_eq_true_2; [done|]. congruence. }
  repeat split; try done.
  intros envs. by apply emissions_same_stream.
Qed.

Lemma results_equivalent_same r : results_equivalent r r = true.
Proof. destruct r. apply (results_equivalent_refl (mkResult _ _ _ _ _)). Qed.

Lemma results_equivalent_elapsed prev a b :
  searchActive a = searchActive b → searchTerm a = searchTerm b →
  hits a = hits b →
  results_equivalent prev a = results_equivalent prev b.
Proof.
  intros Hactive Hterm Hhits. unfold results_equivalent.
  by rewrite Hactive, Hterm, Hhits.
Qed.

(** *** Structurally equal snapshots *)

Lemma snapshots_equal_sortBy p p' :
  snapshots_equal p p' → sortBy p = sortBy p'.
Proof.
  intros Hequal. apply (snapshots_equal_values _ _ KsortBy) in Hequal.
  simpl in Hequal. destruct (sortBy p), (sortBy p'); inversion Hequal as [? ? Hv|];
    subst; [|done].
  apply (or_introl (B := structurally_equal (JStr s0) (JStr s))) in Hv.
  apply structurally_equal_JStr in Hv. congruence.
Qed.

Lemma snapshots_equal_sortDirection p p' :
  snapshots_equal p p' → sortDirection p = sortDirection p'.
Proof.
  intros Hequal. apply (snapshots_equal_values _ _ KsortDirection) in Hequal.
  simpl in Hequal.
  destruct (sortDirection p) as [d|], (sortDirection p') as [d'|];
    inversion Hequal as [? ? Hv|]; subst; [|done].
  apply (or_introl (B := structurally_equal (JStr (direction_name d'))
                           (JStr (direction_name d)))) in Hv.
  apply structurally_equal_JStr in Hv. by destruct d, d'.
Qed.

Lemma snapshots_equal_search p p' :
  snapshots_equal p p' →
  search_is_active p = search_is_active p' ∧ search_string p = search_string p'.
Proof.
  intros Hequal. apply (snapshots_equal_values _ _ Ksearch) in Hequal.
  unfold search_is_active, search_string. simpl in Hequal.
  destruct (Params.search p) as [[text|entries]|],
    (Params.search p') as [[text'|entries']|];
    inversion Hequal as [? ? Hv|]; subst; try done.
  - apply (or_introl (B := structurally_equal (JStr text') (JStr text))) in Hv.
    apply structurally_equal_JStr in Hv. by simplify_eq.
  - apply (or_introl (B := structurally_equal (JObj entries') (JStr text))) in Hv.
    by apply structurally_equal_JStr in Hv.
  - apply (or_intror (A := structurally_equal (JStr text') (JObj entries))) in Hv.
    by apply structurally_equal_JStr in Hv.
Qed.

Lemma snapshots_equal_selector p p' :
  snapshots_equal p p' →
  structurally_equal (JObj (default [] (selector p)))
    (JObj (default [] (selector p'))).
Proof.
  intros Hequal. apply (snapshots_equal_values _ _ Kselector) in Hequal.
  simpl in Hequal.
  destruct (selector p), (selector p'); inversion Hequal; subst; simpl;
    [done|apply equal_same].
Qed.

(** The evaluations of two structurally equal snapshots agree in all that
    the result comparator looks at. *)
Lemma find_result_by_structure rev lib queryHooks env0 env1 t0 t1 p p' :
  hooks_by_structure queryHooks → answers_by_structure env0 env1 →
  snapshots_equal p p' →
  searchActive (find_result rev lib queryHooks env0 t0 (Some p))
    = searchActive (find_result rev lib queryHooks env1 t1 (Some p')) ∧
  searchTerm (find_result rev lib queryHooks env0 t0 (Some p))
    = searchTerm (find_result rev lib queryHooks env1 t1 (Some p')) ∧
  hits (find_result rev lib queryHooks env0 t0 (Some p))
    = hits (find_result rev lib queryHooks env1 t1 (Some p')).
Proof.
  intros [Hpre Hpost] (Hfind & Hservice & Hinstance) Hequal.
  unfold find_result. cbn [params_or_empty default searchActive searchTerm hits].
  change (Datatypes.id p) with p. change (Datatypes.id p') with p'.
  set (modified := match preQueryParams queryHooks with
                   | Some hook => hook p
                   | None => p
                   end).
  set (modified' := match preQueryParams queryHooks with
                    | Some hook => hook p'
                    | None => p'
                    end).
  assert (Hmodified : snapshots_equal modified modified').
  { subst modified modified'.
    destruct (preQueryParams queryHooks) as [hook|] eqn:Hhook; [|done].
    by apply (Hpre hook). }
  destruct (snapshots_equal_search _ _ Hmodified) as [Hactive Htext].
  pose proof (snapshots_equal_selector _ _ Hmodified) as Hselector.
  rewrite <- Hactive. destruct (search_is_active modified).
  - unfold handleSearchActive. rewrite <- Htext. destruct rev; simpl.
    + by rewrite (Hfind _ _ Hselector), Hservice.
    + rewrite Hinstance.
      by rewrite (Hfind _ _ (structurally_equal_set "uuid" _ _ _ Hselector)).
  - unfold handleSearchInactive. simpl.
    rewrite <- (snapshots_equal_sortBy _ _ Hmodified),
      <- (snapshots_equal_sortDirection _ _ Hmodified),
      (Hfind _ _ Hselector).
    destruct (postQueryResult queryHooks) as [hook|] eqn:Hhook; [|done].
    rewrite (Hpost hook eq_refl _ modified modified' (Some p) (Some p'));
      [done|done|by constructor].
Qed.

(** The last value of [find$] is the last value of the result stream or
    equivalent to it. *)
Lemma reachable_last_found rev lib q :
  reachable rev lib q →
  ∀ f, last (found q) = Some f →
       ∃ r, last (result q) = Some r ∧ results_equivalent r f = true.
Proof.
  induction 1 as [startTime queryHooks initialParams|q ev Hq IH]; [done|].
  destruct ev as [t f' v|t arg|t query|t p|env]; simpl; try done.
  - unfold sort. repeat case_match; by simplify_eq.
  - unfold find_emits. destruct (subscribed q) as [[p t]|]; [|done].
    simpl. intros f Hf. rewrite last_snoc in Hf. simplify_eq.
    unfold passes.
    destruct (last (result q)) as [prev|] eqn:Hprev; simpl.
    + destruct (results_equivalent prev _) eqn:Hequiv; simpl.
      * eauto.
      * rewrite last_snoc. eexists. split; [done|].
        apply results_equivalent_same.
    + rewrite last_snoc. eexists. split; [done|].
      apply results_equivalent_same.
Qed.

(** While the snapshot under evaluation is structurally equal to the one
    whose evaluation gave the last value of [find$], and the collaborators
    answer as they did then, emissions of [find$] add nothing to the
    result stream. *)
Lemma emissions_withheld rev lib envs q env0 p0 t0 r :
  hooks_by_structure (hooks q) →
  last (result q) = Some r →
  results_equivalent r (find_result rev lib (hooks q) env0 t0 (Some p0)) = true →
  (∃ p t, subscribed q = Some (p, t) ∧ snapshots_equal p0 p) →
  Forall (answers_by_structure env0) envs →
  result (foldl (λ q env, find_emits rev lib env q) q envs) = result q.
Proof.
  intros Hhooks Hlast Hequiv Hsub Henvs. revert q Hhooks Hlast Hequiv Hsub.
  induction Henvs as [|env envs Henv _ IH]; intros q Hhooks Hlast Hequiv Hsub;
    [done|].
  destruct Hsub as (p & t & Hsub & Hequal).
  assert (Hstep : result (find_emits rev lib env q) = result q ∧
                  hooks (find_emits rev lib env q) = hooks q ∧
                  subscribed (find_emits rev lib env q) = subscribed q).
  { unfold find_emits. rewrite Hsub. simpl. rewrite Hlast. simpl.
    destruct (find_result_by_structure rev lib (hooks q) env0 env t0 t p0 p
                Hhooks Henv Hequal) as (Hactive & Hterm & Hhits).
    rewrite <- (results_equivalent_elapsed r _ _ Hactive Hterm Hhits), Hequiv.
    done. }
  destruct Hstep as (Hresult & Hhooks' & Hsub').
  simpl. rewrite IH; [done| | | |].
  - by rewrite Hhooks'.
  - by rewrite Hresult.
  - by rewrite Hhooks'.
  - rewrite Hsub'. eauto.
Qed.

(** C6. In both texts of the class, let the previously pushed snapshot be
    the one under evaluation, and let [find$] have emitted for it. When a
    structurally equal snapshot is pushed, whatever the order of its keys
    and of the keys of the objects in it, then, as long as the store and
    the search subsystem answer as they did and the hooks treat
    structurally equal snapshots alike, no value is added to the result
    stream: neither by the push nor by the emissions of [find$] that
    follow it, be it that [params$] has dropped the snapshot or that
    [find$] has switched to it. *)
Theorem equal_snapshot_emits_nothing rev lib q previous t0 env0 p t1 envs :
  reachable rev lib q →
  params q = Some previous →
  subscribed q = Some (previous, t0) →
  last (found q)
    = Some (find_result rev lib (hooks q) env0 t0 (Some previous)) →
  snapshots_equal previous p →
  hooks_by_structure (hooks q) →
  Forall (answers_by_structure env0) envs →
  result (params_next rev lib t1 p q) = result q ∧
  result (foldl (λ q env, find_emits rev lib env q)
            (params_next rev lib t1 p q) envs)
  = result q.
Proof.
  intros Hq Hprev Hsub Hlast Hequal Hhooks Henvs. split; [done|].
  destruct (reachable_last_found rev lib q Hq _ Hlast) as (r & Hr & Hequiv).
  rewrite (emissions_withheld rev lib envs _ env0 previous t0 r); try done.
  unfold params_next. cbn [subscribed]. rewrite Hsub. cbn [fmap option_fmap option_map fst].
  destruct (params_unchanged rev lib (Some previous) p).
  - exists previous, t0. split; [done|]. apply equal_same.
  - exists p, t1. done.
Qed.

(** Sorting by name and then searching for a text switches the evaluation
    to the search path: the hits follow the rank order of the search, not
    the sort. *)
Example search_switches_path :
  let q := find_emits QueryStateTs demo_imports (shop 20)
             (search QueryStateTs demo_imports 15 (Some (SearchText "milk"))
                (listed QueryStateTs)) in
  (λ r, id <$> hits r) <$> result q = [["p1"; "p2"]; ["p2"; "p1"]] ∧
  searchActive <$> result q = [false; true].
Proof. split; reflexivity. Qed.

Lemma listed_reachable rev : reachable rev demo_imports (listed rev).
Proof. apply reachable_step, reachable_new. Qed.

Lemma demo_hooks_by_structure : hooks_by_structure (mkHooks None None).
Proof. by split. Qed.

Lemma shop_answers_by_structure t0 t1 : answers_by_structure (shop t0) (shop t1).
Proof. by repeat split. Qed.

Lemma reordered_is_equal : snapshots_equal by_name by_name_reordered.
Proof.
  unfold snapshots_equal.
  assert (params_to_js by_name
          = JObj [("sortBy", JStr "name"); ("sortDirection", JStr "asc")])
    as -> by (vm_compute; reflexivity).
  assert (params_to_js by_name_reordered
          = JObj [("sortDirection", JStr "asc"); ("sortBy", JStr "name")])
    as -> by (vm_compute; reflexivity).
  apply equal_objects. intros key. rewrite !obj_lookup_cons. cbn [obj_lookup].
  repeat case_bool_decide; simplify_eq; constructor; apply equal_same.
Qed.

Lemma equal_snapshot_emits_nothing_witness :
  subscribed (params_next UnnamedPart demo_imports 9 by_name_reordered
                (listed UnnamedPart))
    = Some (by_name_reordered, 9%Z) ∧
  result (find_emits UnnamedPart demo_imports (shop 12)
            (params_next UnnamedPart demo_imports 9 by_name_reordered
               (listed UnnamedPart)))
    = result (listed UnnamedPart).
Proof.
  split; [reflexivity|].
  destruct (equal_snapshot_emits_nothing UnnamedPart demo_imports
              (listed UnnamedPart) by_name 0 (shop 4) by_name_reordered 9
              [shop 12]) as [_ Hlater].
  - apply listed_reachable.
  - reflexivity.
  - reflexivity.
  - reflexivity.
  - apply reordered_is_equal.
  - apply demo_hooks_by_structure.
  - constructor; [apply shop_answers_by_structure|constructor].
  - exact Hlater.
Defined.

Lemma consecutive_results_suppressed_witness :
  result (find_emits QueryStateTs demo_imports (shop 12) (listed QueryStateTs))
  = result (listed QueryStateTs).
Proof.
  destruct (consecutive_results_suppressed QueryStateTs demo_imports (shop 12)
              (listed QueryStateTs) by_name 0
              (find_result QueryStateTs demo_imports (mkHooks None None)
                 (shop 4) 0 (Some by_name)))
    as ([_ Hsame] & _ & _).
  - reflexivity.
  - reflexivity.
  - apply Hsame. do 3 (split; [reflexivity|]). intros Hactive.
    vm_compute in Hactive. discriminate Hactive.
Defined.

Lemma emitted_count_is_hits_length_witness :
  Forall (λ r, count r = length (hits r)) (result (listed UnnamedPart)).
Proof.
  apply (emitted_count_is_hits_length UnnamedPart demo_imports
           (listed UnnamedPart)).
  apply listed_reachable.
Defined.




Lemma assign_first_fields f v clauses :
  field <$> assign_first f v clauses = field <$> clauses.
Proof.
  induction clauses as [|clause clauses IH]; [done|].
  simpl. case_bool_decide; rewrite ?fmap_cons; simpl; [done|]. by rewrite IH.
Qed.

Lemma assign_first_values f v clauses :
  is_nullish v = false →
  Forall (λ clause, is_nullish (value clause) = false) clauses →
  Forall (λ clause, is_nullish (value clause) = false)
    (assign_first f v clauses).
Proof.
  intros Hv. induction 1 as [|clause clauses Hclause Hrest IH]; [done|].
  simpl. case_bool_decide; constructor; done.
Qed.

(** *** The modelled [normalizeWhereClauses] *)

Lemma upsert_clause_normalized clauses clause :
  normalized clauses → normalized (upsert_clause clauses clause).
Proof.
  intros [Hfields Hvalues]. unfold upsert_clause.
  destruct (is_nullish (value clause)) eqn:Hvalue.
  - split.
    + eapply sublist_NoDup; [exact Hfields|].
      apply fmap_sublist, sublist_filter.
    + rewrite Forall_forall in Hvalues. apply Forall_forall.
      intros existing [_ Hin]%list_elem_of_filter. by apply Hvalues.
  - case_bool_decide as Hin.
    + split; [by rewrite assign_first_fields|by apply assign_first_values].
    + split.
      * rewrite fmap_app. apply NoDup_app. split; [done|].
        split; [|apply NoDup_singleton].
        intros k Hk Hk'. apply list_elem_of_singleton in Hk' as ->. done.
      * apply Forall_app. split; [done|]. by constructor.
Qed.

Lemma normalizeWhereClauses_normalized clauses :
  normalized (normalizeWhereClauses_as_specified clauses).
Proof.
  unfold normalizeWhereClauses_as_specified.
  assert (Hnil : normalized []) by (split; constructor).
  revert Hnil. generalize (@nil WhereClause).
  induction clauses as [|clause clauses IH]; intros acc Hacc; [done|].
  simpl. by apply IH, upsert_clause_normalized.
Qed.






(** C10. [sort] pushes one snapshot that has the [search] of the current
    one, [search] pushes one that has its [sortBy] and [sortDirection], and
    [where] one that has all three; the selector is always the one derived
    from the clause list, and [sort] and [search] leave the clause list
    alone. The only call that pushes nothing is [sort] with an empty
    object, which raises. *)
Theorem mutations_carry_other_fields rev lib startTime q :
  let current := params_or_empty (params q) in
  (∀ sortByOrObj,
     match sort rev lib startTime sortByOrObj q with
     | Resolved q' =>
         ∃ snapshot,
           params q' = Some snapshot ∧ pushed q' = pushed q ++ [snapshot] ∧
           Params.search snapshot = Params.search current ∧
           selector snapshot = Some (selector_of rev (whereClauses q)) ∧
           whereClauses q' = whereClauses q ∧
           match sortByOrObj with
           | SortField by_field direction =>
               sortBy snapshot = Some by_field ∧
               sortDirection snapshot = direction
           | SortObject sortObj =>
               ∃ lastField lastDirection,
                 last sortObj = Some (lastField, lastDirection) ∧
                 sortBy snapshot = Some lastField ∧
                 sortDirection snapshot = Some lastDirection
           end
     | Rejected _ => sortByOrObj = SortObject []
     end) ∧
  (∀ query,
     let q' := search rev lib startTime query q in
     ∃ snapshot,
       params q' = Some snapshot ∧ pushed q' = pushed q ++ [snapshot] ∧
       sortBy snapshot = sortBy current ∧
       sortDirection snapshot = sortDirection current ∧
       Params.search snapshot = Some (default (SearchText "") query) ∧
       selector snapshot = Some (selector_of rev (whereClauses q)) ∧
       whereClauses q' = whereClauses q) ∧
  (∀ f v,
     let q' := where_ rev lib startTime f v q in
     ∃ snapshot,
       params q' = Some snapshot ∧ pushed q' = pushed q ++ [snapshot] ∧
       Params.search snapshot = Params.search current ∧
       sortBy snapshot = sortBy current ∧
       sortDirection snapshot = sortDirection current ∧
       selector snapshot = Some (selector_of rev (whereClauses q'))).
Proof.
  simpl. split; [|split].
  - intros [by_field direction|sortObj]; simpl.
    + eexists. repeat split.
    + destruct (last sortObj) as [[lastField lastDirection]|] eqn:Hlast.
      * eexists. repeat split. eauto.
      * by apply last_None in Hlast as ->.
  - intros query. eexists. repeat split.
  - intros f v. eexists. repeat split.
Qed.

End QueryState_properties.

Section Manager_properties.
Import Manager.

Ltac manager_unfold :=
  unfold onNewQueryState, on_params, registerCollectionReplication,
    registerQueryReplication, maybePauseQueryReplications, getSyncCollection,
    getCollection, replication_start, replication_pause, replication_cancel,
    query_cancel, set_queryStates, set_replicationStates,
    set_activeCollectionReplications, set_activeQueryReplications,
    set_queries, set_replications, error_next in *.

Lemma registerCollectionReplication_queryStates collection e m :
  queryStates (registerCollectionReplication collection e m).1 = queryStates m.
Proof.
  unfold registerCollectionReplication, getSyncCollection.
  case_decide; cbn [fst]; by case_match.
Qed.

Lemma registerQueryReplication_queryStates e cr collection m :
  queryStates (registerQueryReplication e cr collection m).1 = queryStates m.
Proof. unfold registerQueryReplication. cbn [fst]. by case_match. Qed.

Lemma maybePauseQueryReplications_queryStates query_id m m' :
  maybePauseQueryReplications query_id m = Resolved m' →
  queryStates m' = queryStates m.
Proof.
  unfold maybePauseQueryReplications. intros Hm.
  repeat case_match; by simplify_eq.
Qed.

Lemma on_params_queryStates lib queryState cr params m :
  queryStates (on_params lib queryState cr params m) = queryStates m.
Proof.
  unfold on_params.
  pose proof (registerQueryReplication_queryStates
    (buildEndpointWithParams lib (query_endpoint queryState)
       match filterApiQueryParams lib (query_collection queryState) with
       | Some hook => hook (getApiQueryParams params) params
       | None => getApiQueryParams params
       end) cr (query_collection queryState) m) as Hreg.
  destruct (registerQueryReplication _ _ _ m) as [m1 queryReplication].
  cbn [fst] in Hreg. rewrite <- Hreg.
  assert (Hpause : ∀ m2,
    queryStates (if bool_decide (is_Some (activeQueryReplications m2 !! id queryState))
       then match maybePauseQueryReplications (id queryState) m2 with
            | Resolved m' => m'
            | Rejected _ => m2
            end
       else m2) = queryStates m2).
  { intros m2. case_bool_decide; [|done].
    destruct (maybePauseQueryReplications _ m2) eqn:Hp; [|done].
    by eapply maybePauseQueryReplications_queryStates. }
  destruct queryReplication; [|apply Hpause].
  rewrite <- (Hpause m1). done.
Qed.

Lemma onNewQueryState_queryStates lib queryState m :
  queryStates (onNewQueryState lib queryState m) = queryStates m.
Proof.
  unfold onNewQueryState.
  pose proof (registerCollectionReplication_queryStates
    (query_collection queryState) (query_endpoint queryState) m) as Hreg.
  destruct (registerCollectionReplication _ _ m) as [m1 [cr|]];
    cbn [fst] in Hreg; [|done].
  by rewrite on_params_queryStates.
Qed.

Lemma registerQuery_queryStates lib config m key q :
  queryStates m !! key = Some q →
  queryStates (registerQuery lib config m).1 !! key = Some q.
Proof.
  intros Hq. unfold registerQuery. simpl.
  case_bool_decide as Hhas; [done|].
  unfold getCollection. case_decide; simpl; [|done].
  rewrite onNewQueryState_queryStates. simpl.
  rewrite lookup_insert_ne; [done|].
  intros <-. apply Hhas. by rewrite Hq.
Qed.

Lemma registerQuery_registered lib config m q :
  queryStates m !! stringify lib (queryKeys config) = Some q →
  registerQuery lib config m = (m, Some q).
Proof.
  intros Hq. unfold registerQuery. simpl.
  rewrite bool_decide_eq_true_2; [by rewrite Hq|by rewrite Hq].
Qed.

Lemma registerQuery_result lib config m :
  (registerQuery lib config m).2 =
    queryStates (registerQuery lib config m).1 !! stringify lib (queryKeys config).
Proof. done. Qed.

Lemma registrations_keep_queryStates lib between m key q :
  queryStates m !! key = Some q →
  queryStates (foldl (λ m c, (registerQuery lib c m).1) m between) !! key
    = Some q.
Proof.
  revert m. induction between as [|c between IH]; intros m Hq; simpl; [done|].
  apply IH. by apply registerQuery_queryStates.
Qed.

(** C5. Once a [registerQuery] call has returned an evaluator, a
    [registerQuery] call whose keys serialize to the same key returns that
    same instance and leaves the manager untouched, creating no evaluator
    and no replication state, in every state in which the key is still
    registered; registrations made in between keep it registered.
    Registering a replication for an endpoint that already holds an
    instance of the same class creates nothing and returns that
    instance. *)
Theorem registerQuery_dedup lib m c1 c2 q :
  stringify lib (queryKeys c1) = stringify lib (queryKeys c2) →
  (registerQuery lib c1 m).2 = Some q →
  (∀ m',
     queryStates m' !! stringify lib (queryKeys c1) = Some q →
     registerQuery lib c2 m' = (m', Some q)) ∧
  (∀ between,
     let m' := foldl (λ m c, (registerQuery lib c m).1)
                 (registerQuery lib c1 m).1 between in
     queryStates m' !! stringify lib (queryKeys c1) = Some q ∧
     registerQuery lib c2 m' = (m', Some q)) ∧
  (∀ m0 collection e r o,
     replicationStates m0 !! e = Some r →
     replications m0 !! r = Some o →
     class o = CollectionReplication →
     (registerCollectionReplication collection e m0).2 = Some r ∧
     replicationStates (registerCollectionReplication collection e m0).1
       = replicationStates m0 ∧
     replications (registerCollectionReplication collection e m0).1
       = replications m0) ∧
  (∀ m0 collection e cr r o,
     replicationStates m0 !! e = Some r →
     replications m0 !! r = Some o →
     class o = QueryReplication →
     registerQueryReplication e cr collection m0 = (m0, Some r)).
Proof.
  intros Hkey Hq.
  assert (Hagain : ∀ m',
    queryStates m' !! stringify lib (queryKeys c1) = Some q →
    registerQuery lib c2 m' = (m', Some q)).
  { intros m' Hm'. apply registerQuery_registered. by rewrite <- Hkey. }
  split; [done|]. split; [|split].
  - intros between. simpl.
    rewrite registerQuery_result in Hq.
    pose proof (registrations_keep_queryStates lib between _ _ _ Hq) as Hkept.
    split; [done|]. by apply Hagain.
  - intros m0 collection e r o Hr Ho Hclass.
    unfold registerCollectionReplication, getSyncCollection, instance_of.
    rewrite Hr. case_decide; simpl; rewrite Ho, Hclass; simpl; done.
  - intros m0 collection e cr r o Hr Ho Hclass.
    unfold registerQueryReplication, instance_of.
    rewrite Hr, Ho, Hclass. simpl. by rewrite Hr.
Qed.

Lemma registerQuery_dedup_witness :
  registerQuery demo_imports (products_query "list")
    (registerQuery demo_imports (products_query "list")
       (new_manager {["products"]} {["products"]})).1
  = ((registerQuery demo_imports (products_query "list")
        (new_manager {["products"]} {["products"]})).1, Some 0).
Proof.
  destruct (registerQuery_dedup demo_imports
              (new_manager {["products"]} {["products"]})
              (products_query "list") (products_query "list") 0)
    as (_ & Hsame & _).
  - reflexivity.
  - vm_compute. reflexivity.
  - exact (proj2 (Hsame [])).
Defined.

Lemma active_count endpoint m :
  length (getActiveQueryReplicationStatesByEndpoint endpoint m) =
    size (filter (λ entry : string * nat, endpoint_of m entry.2 = Some endpoint)
            (activeQueryReplications m)).
Proof.
  unfold getActiveQueryReplicationStatesByEndpoint.
  by rewrite length_fmap, length_map_to_list.
Qed.

Lemma map_size_two (registry : gmap string nat) k1 k2 x y :
  k1 ≠ k2 → registry !! k1 = Some x → registry !! k2 = Some y →
  2 ≤ size registry.
Proof.
  intros Hne H1 H2.
  assert (size (delete k1 registry) ≠ 0).
  { apply (map_size_ne_0_lookup_2 _ k2). by rewrite lookup_delete_ne, H2. }
  rewrite map_size_delete_Some in * by (by rewrite H1). lia.
Qed.

Lemma deregisterQuery_replications key m :
  replications (deregisterQuery key m) = replications m.
Proof. unfold deregisterQuery. by case_match. Qed.

Lemma deregisterQuery_endpoint_of key m r :
  endpoint_of (deregisterQuery key m) r = endpoint_of m r.
Proof. unfold endpoint_of. by rewrite deregisterQuery_replications. Qed.

Lemma deregisterQuery_active key m q :
  queryStates m !! key = Some q →
  activeQueryReplications (deregisterQuery key m)
    = delete key (activeQueryReplications m).
Proof. intros Hq. unfold deregisterQuery. by rewrite Hq. Qed.

(** C3 (as amended). Let two queries share one query replication, the only
    two that refer to its endpoint. While both are in the active registry,
    [maybePauseQueryReplications] for either of them changes nothing;
    [deregisterQuery] never changes a replication state, so it pauses
    nothing; and once the first query is deregistered,
    [maybePauseQueryReplications] for the second one pauses the shared
    replication. *)
Theorem reference_counted_pause m k1 k2 q1 r o :
  k1 ≠ k2 →
  queryStates m !! k1 = Some q1 →
  activeQueryReplications m !! k1 = Some r →
  activeQueryReplications m !! k2 = Some r →
  replications m !! r = Some o →
  (∀ k r', activeQueryReplications m !! k = Some r' →
           endpoint_of m r' = Some (endpoint o) → k = k1 ∨ k = k2) →
  maybePauseQueryReplications k1 m = Resolved m ∧
  maybePauseQueryReplications k2 m = Resolved m ∧
  (∀ key m0, replications (deregisterQuery key m0) = replications m0) ∧
  maybePauseQueryReplications k2 (deregisterQuery k1 m)
    = Resolved (replication_pause r (deregisterQuery k1 m)) ∧
  paused_of (replication_pause r (deregisterQuery k1 m)) r = Some true.
Proof.
  intros Hne Hq1 H1 H2 Ho Honly.
  assert (He : endpoint_of m r = Some (endpoint o))
    by (unfold endpoint_of; by rewrite Ho).
  assert (Hboth : length (getActiveQueryReplicationStatesByEndpoint (endpoint o) m) ≠ 1).
  { rewrite active_count.
    pose proof (map_size_two
      (filter (λ entry : string * nat, endpoint_of m entry.2 = Some (endpoint o))
         (activeQueryReplications m)) k1 k2 r r Hne) as Htwo.
    rewrite !map_lookup_filter_Some in Htwo. naive_solver lia. }
  repeat split.
  - unfold maybePauseQueryReplications. rewrite H1, He.
    by rewrite bool_decide_eq_false_2.
  - unfold maybePauseQueryReplications. rewrite H2, He.
    by rewrite bool_decide_eq_false_2.
  - intros. apply deregisterQuery_replications.
  - unfold maybePauseQueryReplications.
    rewrite (deregisterQuery_active _ _ _ Hq1), lookup_delete_ne, H2 by done.
    rewrite deregisterQuery_endpoint_of, He.
    rewrite bool_decide_eq_true_2; [done|].
    rewrite active_count, (deregisterQuery_active _ _ _ Hq1).
    replace (filter _ _) with ({[k2 := r]} : gmap string nat);
      [apply map_size_singleton|].
    apply map_eq. intros k. symmetry.
    destruct (decide (k = k2)) as [->|Hk].
    + rewrite lookup_singleton_eq. apply map_lookup_filter_Some. split.
      * by rewrite lookup_delete_ne.
      * simpl. by rewrite deregisterQuery_endpoint_of.
    + rewrite lookup_singleton_ne by done.
      apply map_lookup_filter_None_2. right. intros r' Hr' Hend.
      simpl in Hend. rewrite deregisterQuery_endpoint_of in Hend.
      apply lookup_delete_Some in Hr' as [Hk1 Hr'].
      destruct (Honly k r' Hr' Hend); congruence.
  - unfold paused_of, replication_pause, set_replications. simpl.
    rewrite deregisterQuery_replications.
    rewrite list_lookup_alter_eq, Ho. done.
Qed.

(** Two queries on one collection share its collection replication. *)
Example two_queries_one_collection_replication :
  activeCollectionReplications two_queries = <["grid" := 0]> {["list" := 0]} ∧
  class <$> replications two_queries = [CollectionReplication; QueryReplication].
Proof. split; vm_compute; reflexivity. Qed.

Lemma two_queries_active :
  activeQueryReplications two_queries = <["grid" := 1]> {["list" := 1]}.
Proof. vm_compute. reflexivity. Qed.

Lemma reference_counted_pause_witness :
  maybePauseQueryReplications "list" two_queries = Resolved two_queries ∧
  paused_of (replication_pause 1 (deregisterQuery "list" two_queries)) 1
    = Some true.
Proof.
  destruct (reference_counted_pause two_queries "list" "grid" 0 1
              (mkReplication QueryReplication "products?orderby&order&per_page"
                 "products" false false (Some 0)))
    as (Hfirst & _ & _ & _ & Hpaused).
  - done.
  - vm_compute. reflexivity.
  - vm_compute. reflexivity.
  - vm_compute. reflexivity.
  - vm_compute. reflexivity.
  - intros k r'. rewrite two_queries_active.
    destruct (decide (k = "grid")) as [->|Hgrid]; [by right|].
    rewrite lookup_insert_ne by done.
    destruct (decide (k = "list")) as [->|Hlist]; [by left|].
    by rewrite lookup_singleton_ne.
  - split; [exact Hfirst|exact Hpaused].
Defined.

(** C3 (as stated) fails: with the queries [list] and [grid] sharing the
    replication of one derived endpoint, deregistering both leaves that
    replication running. *)
Lemma deregisterQuery_does_not_pause : ¬ pause_on_deregistration_as_specified.
Proof.
  intros Hspec.
  destruct (Hspec two_queries "list" "grid" 0 1 1) as [_ Hpaused].
  - done.
  - vm_compute. reflexivity.
  - vm_compute. reflexivity.
  - vm_compute. reflexivity.
  - vm_compute. reflexivity.
  - vm_compute. reflexivity.
  - vm_compute in Hpaused. discriminate Hpaused.
Qed.

End Manager_properties.

(* --------------------------------------------------------------------- *)
(** ** Further properties of [QueryReplicationState]                     *)
(* --------------------------------------------------------------------- *)

Section QueryReplicationState_more.
Import QueryReplicationState.

Ltac cycle_unfold :=
  unfold fetchUnsynced, fetchLastModified, fetchUnsyncedRemoteIDs,
    try_catch_finally, mbind, Cycle_bind, mret, Cycle_ret, read, await,
    throw, modify, active_next, set_syncCompleted, errorSubject_next,
    log_request, log_delegation, log_upsert in *.

(** What a call leaves alone when the guard of [fetchUnsynced] fails. *)
Lemma fetchUnsynced_guarded env s :
  isStopped s || active s = true → fetchUnsynced env s = (s, Resolved ()).
Proof. intros Hguard. cycle_unfold. by rewrite Hguard. Qed.

Lemma call_canceled c s :
  isCanceled s = true →
  isCanceled (call c s) = true ∧ requests (call c s) = requests s ∧
  delegated (call c s) = delegated s ∧ upserted (call c s) = upserted s ∧
  errorSubject (call c s) = errorSubject s ∧
  syncCompleted (call c s) = syncCompleted s ∧ active (call c s) = active s.
Proof.
  intros Hcanceled. destruct c as [env| | |]; simpl; try done.
  rewrite fetchUnsynced_guarded; [done|].
  unfold isStopped. by rewrite Hcanceled.
Qed.

Lemma calls_canceled later s :
  isCanceled s = true →
  isCanceled (calls later s) = true ∧ requests (calls later s) = requests s ∧
  delegated (calls later s) = delegated s ∧
  upserted (calls later s) = upserted s ∧
  errorSubject (calls later s) = errorSubject s ∧
  syncCompleted (calls later s) = syncCompleted s ∧
  active (calls later s) = active s.
Proof.
  revert s. induction later as [|c later IH]; intros s Hcanceled; [done|].
  simpl. destruct (call_canceled c s Hcanceled)
    as (Hc & <- & <- & <- & <- & <- & <-).
  by apply IH.
Qed.

(** X1. [cancel()] is final: whatever is called afterwards ([start],
    [pause], [fetchUnsynced] with any answers of the collaborators), the
    replicator sends no request, delegates nothing, upserts nothing and
    reports no error. *)
Theorem cancel_is_final s later :
  let s' := calls (CallCancel :: later) s in
  isCanceled s' = true ∧ requests s' = requests s ∧
  delegated s' = delegated s ∧ upserted s' = upserted s ∧
  errorSubject s' = errorSubject s ∧ syncCompleted s' = syncCompleted s ∧
  active s' = active s.
Proof.
  simpl. by destruct (calls_canceled later (cancel s).1) as (? & ? & ? & ? & ? & ? & ?).
Qed.

(** X2. A request of its own is sent only by a replicator that is neither
    paused nor canceled, has no cycle in flight, has not exhausted its own
    sync and has obtained both ID sets; and then exactly one is sent. *)
Theorem request_only_when_due env s :
  requests (fetchUnsynced env s).1 ≠ requests s →
  isStopped s = false ∧ active s = false ∧ syncCompleted s = false ∧
  ∃ include exclude,
    getUnsyncedRemoteIDs env = Resolved include ∧
    getSyncedRemoteIDs env = Resolved exclude ∧
    requests (fetchUnsynced env s).1
      = requests s ++ [chosen_request include exclude (lastModified env)].
Proof.
  intros Hsent.
  destruct (isStopped s) eqn:Hstop.
  { rewrite fetchUnsynced_guarded in Hsent; [done|by rewrite Hstop]. }
  destruct (active s) eqn:Hact.
  { rewrite fetchUnsynced_guarded in Hsent; [done|].
    by rewrite Hstop, Hact. }
  destruct (getUnsyncedRemoteIDs env) as [include|e] eqn:Hinc.
  2: { exfalso. apply Hsent. cycle_unfold. by rewrite Hstop, Hact, Hinc. }
  destruct (getSyncedRemoteIDs env) as [exclude|e] eqn:Hexc.
  2: { exfalso. apply Hsent. cycle_unfold. by rewrite Hstop, Hact, Hinc, Hexc. }
  destruct (syncCompleted s) eqn:Hsync.
  { exfalso. apply Hsent.
    by destruct (fetchUnsynced_delegates env s include exclude)
      as (s' & -> & _ & _ & Hreq & _). }
  do 3 (split; [done|]). exists include, exclude. do 2 (split; [done|]).
  rewrite (fetchUnsynced_own_cycle env s include exclude); [|done].
  by destruct (own_request_settles env
                 (chosen_request include exclude (lastModified env))
                 (active_next true s).1) as (s' & -> & _ & _ & _ & _ & Hreq & _).
Qed.

Lemma request_only_when_due_witness :
  requests (fetchUnsynced (serving [7]%Z [] (JArr [])) running).1
  = [Post None (Some [])].
Proof.
  destruct (request_only_when_due (serving [7]%Z [] (JArr [])) running)
    as (_ & _ & _ & include & exclude & Hinc & Hexc & Hsent).
  - vm_compute. discriminate.
  - rewrite Hsent. injection Hinc as <-. injection Hexc as <-. reflexivity.
Defined.

Lemma call_active c s :
  active s = true →
  active (call c s) = true ∧ requests (call c s) = requests s ∧
  delegated (call c s) = delegated s ∧ upserted (call c s) = upserted s ∧
  errorSubject (call c s) = errorSubject s.
Proof.
  intros Hactive. destruct c as [env| | |]; simpl; try done.
  rewrite fetchUnsynced_guarded; [done|].
  rewrite Hactive. apply orb_true_r.
Qed.

Lemma calls_active later s :
  active s = true →
  active (calls later s) = true ∧ requests (calls later s) = requests s ∧
  delegated (calls later s) = delegated s ∧
  upserted (calls later s) = upserted s ∧
  errorSubject (calls later s) = errorSubject s.
Proof.
  revert s. induction later as [|c later IH]; intros s Hactive; [done|].
  simpl. destruct (call_active c s Hactive) as (Hc & <- & <- & <- & <-).
  by apply IH.
Qed.

(** X3. The two ID-set lookups are awaited outside the [try] statement:
    when one of them rejects in a cycle that passed the guard, the
    rejection reaches the caller, nothing is pushed on the error channel,
    and [active] stays set for good, so that every later [fetchUnsynced]
    is dropped at the guard: the replicator never sends a request, never
    delegates and never reports an error again. *)
Theorem lookup_rejection_blocks_replicator env s e :
  isStopped s = false → active s = false →
  getUnsyncedRemoteIDs env = Rejected e ∨
    (∃ include, getUnsyncedRemoteIDs env = Resolved include ∧
                getSyncedRemoteIDs env = Rejected e) →
  (fetchUnsynced env s).2 = Rejected e ∧
  ∀ later,
    let s' := calls later (fetchUnsynced env s).1 in
    active s' = true ∧ requests s' = requests s ∧
    delegated s' = delegated s ∧ upserted s' = upserted s ∧
    errorSubject s' = errorSubject s.
Proof.
  intros Hstop Hact Hreject.
  assert (Hstuck : (fetchUnsynced env s).2 = Rejected e ∧
                   (fetchUnsynced env s).1 = (active_next true s).1).
  { cycle_unfold. rewrite Hstop, Hact. simpl.
    destruct Hreject as [->|(include & -> & ->)]; done. }
  destruct Hstuck as [Hresult ->]. split; [done|].
  intros later. simpl.
  by destruct (calls_active later (active_next true s).1) as (? & ? & ? & ? & ?).
Qed.

Lemma lookup_rejection_blocks_replicator_witness :
  requests
    (calls [CallStart; CallFetchUnsynced (serving [7]%Z [] (JArr []))]
       (fetchUnsynced
          (mkEnv (Rejected (mkError "closed")) (Resolved None) "0"
             (Resolved ()) (λ _, Resolved None) Resolved Resolved
             (λ _, 0) (λ _, Resolved ())) running).1) = [].
Proof.
  destruct (lookup_rejection_blocks_replicator
              (mkEnv (Rejected (mkError "closed")) (Resolved None) "0"
                 (Resolved ()) (λ _, Resolved None) Resolved Resolved
                 (λ _, 0) (λ _, Resolved ())) running (mkError "closed"))
    as [_ Hlater].
  - reflexivity.
  - reflexivity.
  - left. reflexivity.
  - destruct (Hlater [CallStart; CallFetchUnsynced (serving [7]%Z [] (JArr []))])
      as (_ & Hrequests & _).
    exact Hrequests.
Defined.

Lemma own_request_upserted env req s :
  upserted (own_request env req s).1 =
    upserted s ++
    match httpClient env req with
    | Resolved response =>
        match Array_isArray (data_of response) with
        | Some docs =>
            match Promise_all (parse_document env) (document_settles env) docs with
            | Resolved documents =>
                match bulkUpsert env documents with
                | Resolved _ => [documents]
                | Rejected _ => []
                end
            | Rejected _ => []
            end
        | None => []
        end
    | Rejected _ => []
    end.
Proof.
  unfold own_request. cycle_unfold. simpl.
  destruct (httpClient env req) as [response|e]; simpl;
    [|by rewrite app_nil_r].
  destruct (Array_isArray (data_of response)) as [docs|]; simpl;
    [|by rewrite app_nil_r].
  destruct (bool_decide (length docs = 0)); simpl.
  all: destruct (Promise_all (parse_document env) (document_settles env) docs) as [documents|e]; simpl;
    [|by rewrite app_nil_r].
  all: destruct (bulkUpsert env documents) as [[]|e]; simpl;
    [done|by rewrite app_nil_r].
Qed.

(** X4. A page is upserted as a whole or not at all. If parsing or
    reference resolution of any record of the page fails, [bulkUpsert] is
    not called and an error goes to the error channel; if every record
    goes through and [bulkUpsert] accepts the batch, exactly one batch is
    upserted, holding the parsed records in the order of the page, and no
    error is reported. *)
Theorem page_is_upserted_as_a_whole env s include exclude response docs :
  own_cycle env s include exclude →
  httpClient env (chosen_request include exclude (lastModified env))
    = Resolved response →
  Array_isArray (data_of response) = Some docs →
  let s' := (fetchUnsynced env s).1 in
  (Exists (λ doc, ∃ e, parse_document env doc = Rejected e) docs →
     upserted s' = upserted s ∧
     ∃ e, errorSubject s' = errorSubject s ++ [e]) ∧
  (∀ documents,
     Forall2 (λ doc parsed, parse_document env doc = Resolved parsed)
       docs documents →
     bulkUpsert env documents = Resolved () →
     upserted s' = upserted s ++ [documents] ∧
     errorSubject s' = errorSubject s).
Proof.
  intros Hown Hhttp Hdata. simpl.
  rewrite (fetchUnsynced_own_cycle env s include exclude Hown).
  set (req := chosen_request include exclude (lastModified env)) in *.
  pose proof (own_request_upserted env req (active_next true s).1) as Hupserted.
  destruct (own_request_settles env req (active_next true s).1)
    as (s' & Hrun & _ & _ & _ & _ & _ & Hraise & Hquiet & _).
  rewrite Hrun in *. simpl in *. rewrite Hhttp, Hdata in Hupserted.
  split.
  - intros Hbad.
    apply (Promise_all_rejected _ (document_settles env)) in Hbad as [e Hbad].
    rewrite Hbad, app_nil_r in Hupserted. split; [done|].
    exists e. apply Hraise. by eapply raises_document.
  - intros documents Hgood Hbulk.
    apply (Promise_all_resolved _ (document_settles env)) in Hgood.
    rewrite Hgood, Hbulk in Hupserted. split; [done|].
    apply Hquiet. intros e Hraised. inversion Hraised; congruence.
Qed.

Lemma page_is_upserted_as_a_whole_witness :
  upserted (fetchUnsynced (serving [7]%Z [8]%Z (JArr [JNum 1; JNum 2])) running).1
  = [[JNum 1; JNum 2]].
Proof.
  destruct (page_is_upserted_as_a_whole
              (serving [7]%Z [8]%Z (JArr [JNum 1; JNum 2])) running
              (Some [7]%Z) (Some [8]%Z)
              (Some (mkResponse (JArr [JNum 1; JNum 2]))) [JNum 1; JNum 2])
    as [_ Hgood].
  - repeat split.
  - reflexivity.
  - reflexivity.
  - destruct (Hgood [JNum 1; JNum 2]) as [Hupserted _].
    + repeat constructor.
    + reflexivity.
    + exact Hupserted.
Defined.

(** X5. In a cycle that issues its own request, [syncCompleted] is set if
    and only if the request is answered with an empty list: a failed
    request, a body that is not a list and a page with records all leave
    the replicator's own sync open. *)
Theorem syncCompleted_iff_empty_page env s include exclude :
  own_cycle env s include exclude →
  syncCompleted (fetchUnsynced env s).1 = true ↔
  ∃ response,
    httpClient env (chosen_request include exclude (lastModified env))
      = Resolved response ∧
    Array_isArray (data_of response) = Some [].
Proof.
  intros Hown.
  rewrite (fetchUnsynced_own_cycle env s include exclude Hown).
  destruct Hown as [_ Hsync].
  set (req := chosen_request include exclude (lastModified env)).
  split.
  - unfold own_request. cycle_unfold. simpl. rewrite Hsync.
    destruct (httpClient env req) as [response|e] eqn:Hhttp; simpl; [|done].
    destruct (Array_isArray (data_of response)) as [docs|] eqn:Hdata; simpl;
      [|done].
    destruct docs as [|doc docs]; [intros _; eauto|].
    rewrite bool_decide_eq_false_2 by done.
    destruct (Promise_all (parse_document env) (document_settles env) (doc :: docs))
      as [documents|e]; simpl; [|done].
    by destruct (bulkUpsert env documents) as [[]|e].
  - intros (response & Hhttp & Hdata).
    destruct (own_request_settles env req (active_next true s).1)
      as (s' & -> & _ & _ & _ & _ & _ & _ & _ & _ & Hempty).
    simpl. by eapply Hempty.
Qed.

Lemma syncCompleted_iff_empty_page_witness :
  syncCompleted
    (fetchUnsynced (serving [7]%Z [8]%Z (JArr [JNum 1])) running).1 = false.
Proof.
  destruct (syncCompleted
              (fetchUnsynced (serving [7]%Z [8]%Z (JArr [JNum 1])) running).1)
    eqn:Hsync; [|reflexivity].
  apply (syncCompleted_iff_empty_page (serving [7]%Z [8]%Z (JArr [JNum 1]))
           running (Some [7]%Z) (Some [8]%Z)) in Hsync
    as (response & Hhttp & Hdata).
  - injection Hhttp as <-. discriminate Hdata.
  - repeat split.
Defined.

End QueryReplicationState_more.

(* --------------------------------------------------------------------- *)
(** ** Further properties of [Query]                                     *)
(* --------------------------------------------------------------------- *)

Section QueryState_more.
Import QueryState QueryAccessors.
#[local] Set Warnings "-clear-no-such-hyp".

(** *** Clause list and selector in [src/query-state.ts] *)





Lemma selector_fold_fresh clauses (acc : list (string * JsValue)) :
  NoDup (acc.*1 ++ (clause_key <$> clauses)) →
  Forall (λ clause, array_index (clause_key clause) = None) clauses →
  foldl (λ acc clause,
           obj_set (property_name (field clause)) (value clause) acc)
    acc clauses
  = acc ++ ((λ clause, (clause_key clause, value clause)) <$> clauses).
Proof.
  revert acc.
  induction clauses as [|clause clauses IH]; intros acc Hdup Hnames.
  - by rewrite app_nil_r.
  - inversion Hnames as [|? ? Hname Hrest]; subst.
    simpl. rewrite fmap_cons in Hdup.
    rewrite obj_set_fresh.
    + rewrite IH; [by rewrite <- app_assoc| |done].
      rewrite fmap_app, <- app_assoc. done.
    + apply NoDup_app in Hdup as (_ & Hdisjoint & _).
      intros Hin. apply (Hdisjoint _ Hin). apply list_elem_of_here.
    + done.
Qed.

(** *** The clauses that the constructor derives *)

Lemma obj_get_cons key k v (obj : list (string * JsValue)) :
  obj_get key ((k, v) :: obj)
  = if bool_decide (k = key) then Some v else obj_get key obj.
Proof. unfold obj_get. simpl. by case_bool_decide. Qed.

Lemma plain_clauses_have_no_length clauses :
  Forall plain_clause clauses →
  isLength (default JUndefined
              (obj_get "length"
                 ((λ clause, (clause_key clause, value clause)) <$> clauses)))
  = None.
Proof.
  induction 1 as [|clause clauses [_ Hlength] _ IH]; [done|].
  rewrite fmap_cons, obj_get_cons. case_bool_decide; [|done].
  simpl. by apply Hlength.
Qed.

Lemma clauses_of_entries (clauses : list WhereClause) :
  Forall plain_clause clauses →
  clauses_of (JObj ((λ clause, (clause_key clause, value clause)) <$> clauses))
  = clauses.
Proof.
  intros Hplain. unfold clauses_of, forEach_entries.
  rewrite plain_clauses_have_no_length by done.
  rewrite <- !list_fmap_compose.
  induction Hplain as [|[f v] clauses [Hnamed _] _ IH]; [done|].
  rewrite fmap_cons, IH. f_equal. unfold named in Hnamed. simpl in *.
  by rewrite <- Hnamed.
Qed.

Lemma clauses_of_conditions (key : nat → PropertyKey)
    (clauses : list WhereClause) :
  Forall plain_clause clauses →
  flat_map (λ condition : PropertyKey * JsValue, clauses_of condition.2)
    (imap (λ index item, (key index, item))
       ((λ clause, JObj [(property_name (field clause), value clause)])
        <$> clauses))
  = clauses.
Proof.
  intros Hplain. revert key.
  induction Hplain as [|clause clauses Hclause Hrest IH]; intros key; [done|].
  rewrite fmap_cons, imap_cons. cbn [flat_map snd].
  specialize (IH (key ∘ S)). unfold compose in *. cbv beta in *.
  rewrite IH.
  change (JObj [(property_name (field clause), value clause)])
    with (JObj ((λ clause, (clause_key clause, value clause)) <$> [clause])).
  by rewrite (clauses_of_entries [clause]) by (by constructor).
Qed.

(** X7. A snapshot pushed by a mutation method can be handed back to the
    constructor as [initialParams]: the clause list derived from its
    selector is the clause list the selector was built from, when the
    fields of the clauses are names and no clause makes the object that
    holds it array-like (a field [length] with a number that is a length).
    This is all that the unnamed part asks for; in [src/query-state.ts],
    where the selector is filled by assignments, no two clauses write the
    same property, besides, and no field is an array index or
    [__proto__]. *)
Theorem clauses_survive_the_selector clauses s sortBy' sortDirection' order :
  Forall plain_clause clauses →
  initial_clauses UnnamedPart
    (mkParams s sortBy' sortDirection'
       (Some (selector_of UnnamedPart clauses)) order)
  = clauses ∧
  (NoDup (clause_key <$> clauses) →
   Forall (λ clause, ordinary_key (clause_key clause)) clauses →
   initial_clauses QueryStateTs
     (mkParams s sortBy' sortDirection'
        (Some (selector_of QueryStateTs clauses)) order)
   = clauses).
Proof.
  intros Hplain. split.
  - unfold initial_clauses, selector_of. cbn [selector].
    destruct clauses as [|clause clauses]; [done|].
    rewrite bool_decide_eq_true_2 by (simpl; lia).
    rewrite obj_get_cons, bool_decide_eq_true_2 by done.
    cbn [truthy forEach_entries].
    by apply (clauses_of_conditions KeyIndex (clause :: clauses)).
  - intros Hdup Hnames. unfold initial_clauses, selector_of. cbn [selector].
    rewrite (selector_fold_fresh clauses []);
      [by apply clauses_of_entries|done|].
    eapply Forall_impl; [exact Hnames|]. by intros clause [Hindex _].
Qed.

Lemma clauses_survive_the_selector_witness :
  initial_clauses QueryStateTs
    (mkParams None None None
       (Some (selector_of QueryStateTs
                [mkClause "stock" (JNum 2); mkClause "type" (JStr "simple")]))
       [Kselector])
  = [mkClause "stock" (JNum 2); mkClause "type" (JStr "simple")].
Proof.
  apply (clauses_survive_the_selector
           [mkClause "stock" (JNum 2); mkClause "type" (JStr "simple")]
           None None None [Kselector]).
  - repeat constructor; intros Hlength; discriminate Hlength.
  - apply NoDup_cons. split.
    + intros Hin. apply list_elem_of_singleton in Hin. discriminate Hin.
    + apply NoDup_singleton.
  - repeat constructor; intros Hproto; discriminate Hproto.
Defined.

(** What is lost otherwise: a clause for [length] with a number makes the
    condition object array-like, and an object lists a key that is an
    array index before the others. *)
Example clauses_changed_by_the_selector :
  initial_clauses UnnamedPart
    (mkParams None None None
       (Some (selector_of UnnamedPart [mkClause "length" (JNum 2)]))
       [Kselector])
  = [mkClause (KeyIndex 0) JUndefined; mkClause (KeyIndex 1) JUndefined] ∧
  initial_clauses QueryStateTs
    (mkParams None None None
       (Some (selector_of QueryStateTs
                [mkClause "b" (JNum 1); mkClause "1" (JNum 2)]))
       [Kselector])
  = [mkClause "1" (JNum 2); mkClause "b" (JNum 1)].
Proof. split; vm_compute; reflexivity. Qed.

(** *** [where] in [src/query-state.ts] *)

Lemma find_clause_None (f : PropertyKey) (clauses : list WhereClause) :
  List.find (λ clause, bool_decide (field clause = f)) clauses = None ↔
  f ∉ field <$> clauses.
Proof.
  induction clauses as [|clause clauses IH]; simpl.
  - split; [|done]. intros _. apply not_elem_of_nil.
  - rewrite ?fmap_cons, not_elem_of_cons. case_bool_decide as Hf.
    + split; [done|]. intros [Hne _]. by destruct Hne.
    + rewrite IH. split; [|by intros [_ ?]]. intros Hnot. split; [|done].
      by intros ->.
Qed.

Lemma where_clauses lib startTime (f : string) v q :
  whereClauses (where_ QueryStateTs lib startTime f v q) =
    if is_nullish v
    then filter (λ clause, field clause ≠ KeyName f) (whereClauses q)
    else if bool_decide (KeyName f ∈ field <$> whereClauses q)
         then assign_first f v (whereClauses q)
         else whereClauses q ++ [mkClause f v].
Proof.
  unfold where_. simpl. destruct (is_nullish v); [done|].
  destruct (List.find _ (whereClauses q)) eqn:Hfind.
  - rewrite bool_decide_eq_true_2; [done|].
    destruct (decide (KeyName f ∈ field <$> whereClauses q)) as [|Hnot];
      [done|].
    apply find_clause_None in Hnot. congruence.
  - apply find_clause_None in Hfind. by rewrite bool_decide_eq_false_2.
Qed.

Lemma where_fields_NoDup lib startTime f v q :
  NoDup (field <$> whereClauses q) →
  NoDup (field <$> whereClauses (where_ QueryStateTs lib startTime f v q)).
Proof.
  intros Hdup. rewrite where_clauses. destruct (is_nullish v).
  - eapply sublist_NoDup; [exact Hdup|].
    apply fmap_sublist, sublist_filter.
  - case_bool_decide as Hin.
    + by rewrite assign_first_fields.
    + rewrite fmap_app. apply NoDup_app. split; [done|].
      split; [|apply NoDup_singleton].
      intros k Hk Hk'. apply list_elem_of_singleton in Hk' as ->. done.
Qed.

Lemma step_fields_NoDup lib q ev :
  NoDup (field <$> whereClauses q) →
  NoDup (field <$> whereClauses (step QueryStateTs lib q ev)).
Proof.
  intros Hdup.
  destruct ev as [t f v|t arg|t query|t p|env];
    [by apply where_fields_NoDup|simpl..]; try done.
  - unfold sort. repeat case_match; by simplify_eq.
  - unfold find_emits. by repeat case_match.
Qed.

Lemma forEach_keys_NoDup entries :
  NoDup entries.*1 → NoDup (forEach_entries (JObj entries)).*1.
Proof.
  intros Hkeys. unfold forEach_entries.
  assert (Hindex : Inj (=) (=) KeyIndex) by (by intros ? ? [=]).
  assert (Hname : Inj (=) (=) KeyName) by (by intros ? ? [=]).
  destruct (isLength _) as [length|]; rewrite <- list_fmap_compose.
  - apply (NoDup_fmap_2 KeyIndex), NoDup_seq.
  - rewrite (list_fmap_ext _ (KeyName ∘ fst) entries) by done.
    rewrite (list_fmap_compose fst KeyName).
    by apply (NoDup_fmap_2 KeyName).
Qed.

(** X8. An instance of [src/query-state.ts] that is created from a
    selector never holds two clauses for one field, whatever is done with
    it through [where], [sort], [search], pushed snapshots and emissions
    of the store. *)
Theorem clause_fields_stay_unique lib startTime queryHooks initialParams events :
  NoDup (default [] (selector (params_or_empty initialParams))).*1 →
  NoDup (field <$> whereClauses
           (foldl (step QueryStateTs lib)
              (new_query QueryStateTs lib startTime queryHooks initialParams)
              events)).
Proof.
  intros Hkeys.
  assert (Hnew : NoDup (field <$> whereClauses
                   (new_query QueryStateTs lib startTime queryHooks initialParams))).
  { simpl. unfold initial_clauses.
    destruct (selector (params_or_empty initialParams)) as [entries|];
      [|constructor].
    simpl in Hkeys. unfold clauses_of. rewrite <- list_fmap_compose.
    rewrite (list_fmap_ext _ fst (forEach_entries (JObj entries))) by done.
    by apply forEach_keys_NoDup. }
  revert Hnew.
  generalize (new_query QueryStateTs lib startTime queryHooks initialParams).
  induction events as [|ev events IH]; intros q Hq; [done|].
  simpl. by apply IH, step_fields_NoDup.
Qed.

Lemma clause_fields_stay_unique_witness :
  NoDup (field <$> whereClauses
           (foldl (step QueryStateTs demo_imports)
              (new_query QueryStateTs demo_imports 0 None
                 (Some (mkParams None None None (Some [("stock", JNum 2)])
                          [Kselector])))
              [Where 1 "stock" (JNum 5); Where 2 "type" (JStr "simple")])).
Proof.
  apply (clause_fields_stay_unique demo_imports 0 None
           (Some (mkParams None None None (Some [("stock", JNum 2)])
                    [Kselector]))).
  simpl. apply NoDup_singleton.
Defined.

Lemma filter_assign_first f v clauses :
  filter (λ clause, field clause ≠ f) (assign_first f v clauses)
  = filter (λ clause, field clause ≠ f) clauses.
Proof.
  induction clauses as [|clause clauses IH]; [done|].
  simpl. case_bool_decide as Hf.
  - rewrite !filter_cons_False; [done|by intros []|by intros []].
  - rewrite !filter_cons_True by done. by rewrite IH.
Qed.

Lemma assign_first_twice f v1 v2 clauses :
  assign_first f v2 (assign_first f v1 clauses) = assign_first f v2 clauses.
Proof.
  induction clauses as [|clause clauses IH]; [done|].
  simpl. case_bool_decide as Hf; simpl.
  - by rewrite bool_decide_eq_true_2.
  - rewrite bool_decide_eq_false_2 by done. by rewrite IH.
Qed.

Lemma assign_first_last f v1 v2 clauses :
  f ∉ field <$> clauses →
  assign_first f v2 (clauses ++ [mkClause f v1]) = clauses ++ [mkClause f v2].
Proof.
  induction clauses as [|clause clauses IH]; simpl.
  - intros _. by rewrite bool_decide_eq_true_2.
  - rewrite ?fmap_cons, not_elem_of_cons. intros [Hne Hnot].
    rewrite bool_decide_eq_false_2 by done. by rewrite IH.
Qed.

(** X9. In [src/query-state.ts], two [where] calls on one field compose as
    follows. Setting a value and then passing [null] leaves exactly the
    clauses of the other fields, in their order; and of two values set one
    after the other only the second counts: the clause list is the one a
    single call with the second value gives. *)
Theorem where_twice_on_a_field lib t1 t2 (f : string) v1 v2 q :
  whereClauses (where_ QueryStateTs lib t2 f JNull
                  (where_ QueryStateTs lib t1 f v1 q))
  = filter (λ clause, field clause ≠ KeyName f) (whereClauses q) ∧
  (is_nullish v1 = false → is_nullish v2 = false →
   whereClauses (where_ QueryStateTs lib t2 f v2
                   (where_ QueryStateTs lib t1 f v1 q))
   = whereClauses (where_ QueryStateTs lib t2 f v2 q)).
Proof.
  split.
  - rewrite !where_clauses. simpl.
    destruct (is_nullish v1).
    + rewrite list_filter_filter. apply list_filter_iff. naive_solver.
    + case_bool_decide.
      * apply filter_assign_first.
      * rewrite filter_app, filter_cons_False, filter_nil, app_nil_r; [done|].
        by intros [].
  - intros Hv1 Hv2. rewrite !where_clauses, Hv1, Hv2.
    destruct (decide (KeyName f ∈ field <$> whereClauses q)) as [Hin|Hnot].
    + rewrite (bool_decide_eq_true_2 (KeyName f ∈ field <$> whereClauses q))
        by done.
      rewrite bool_decide_eq_true_2 by (by rewrite assign_first_fields).
      apply assign_first_twice.
    + rewrite (bool_decide_eq_false_2 (KeyName f ∈ field <$> whereClauses q))
        by done.
      rewrite bool_decide_eq_true_2.
      * by apply assign_first_last.
      * rewrite fmap_app. apply elem_of_app. right. apply list_elem_of_here.
Qed.

Lemma where_twice_on_a_field_witness :
  whereClauses
    (where_ QueryStateTs demo_imports 2 "stock" (JNum 5)
       (where_ QueryStateTs demo_imports 1 "stock" (JNum 2)
          (listed QueryStateTs)))
  = whereClauses
      (where_ QueryStateTs demo_imports 2 "stock" (JNum 5) (listed QueryStateTs)).
Proof.
  destruct (where_twice_on_a_field demo_imports 1 2 "stock" (JNum 2) (JNum 5)
              (listed QueryStateTs)) as [_ Hlast].
  apply Hlast; reflexivity.
Defined.









(** *** The result stream *)

Lemma step_found_result rev lib q ev :
  (found (step rev lib q ev) = found q ∧
   result (step rev lib q ev) = result q) ∨
  ∃ next,
    found (step rev lib q ev) = found q ++ [next] ∧
    result (step rev lib q ev)
    = if passes (last (result q)) next then result q ++ [next] else result q.
Proof.
  destruct ev as [t f v|t arg|t query|t p|env]; simpl; try by left.
  - unfold sort. repeat case_match; simplify_eq; by left.
  - unfold find_emits. destruct (subscribed q) as [[p t]|]; [|by left].
    right. eauto.
Qed.

(** X11. On the result stream of an instance no value is equivalent, by
    the comparator of the constructor, to the value before it, and the
    first value that [find$] computes is always published. *)
Theorem result_stream_has_no_repeats rev lib q :
  reachable rev lib q →
  (∀ i prev next,
     result q !! i = Some prev → result q !! S i = Some next →
     results_equivalent prev next = false) ∧
  head (result q) = head (found q).
Proof.
  induction 1 as [startTime queryHooks initialParams|q ev Hq [IH Hhead]].
  - split; [|done]. intros i prev next Hprev. simpl in Hprev. by destruct i.
  - destruct (step_found_result rev lib q ev)
      as [[-> ->]|(next & -> & ->)]; [done|].
    unfold passes. destruct (last (result q)) as [prev|] eqn:Hlast.
    + assert (result q ≠ []) as Hresult by (by intros Hnil; rewrite Hnil in Hlast).
      assert (found q ≠ []) as Hfound.
      { intros Hnil. rewrite Hnil in Hhead.
        by destruct (result q). }
      destruct (results_equivalent prev next) eqn:Hequiv; simpl.
      * split; [done|]. rewrite Hhead. by destruct (found q).
      * split.
        -- intros i a b Ha Hb.
           destruct (decide (S i < length (result q))) as [Hlt|Hge].
           ++ rewrite lookup_app_l in Ha by lia.
              rewrite lookup_app_l in Hb by lia. by eapply IH.
           ++ apply lookup_lt_Some in Hb as Hb'.
              rewrite length_app in Hb'. simpl in Hb'.
              assert (S i = length (result q)) as Hi by lia.
              rewrite lookup_app_l in Ha by lia.
              rewrite Hi, list_lookup_middle in Hb by done.
              rewrite last_lookup in Hlast.
              replace (pred (length (result q))) with i in Hlast by lia.
              congruence.
        -- destruct (result q), (found q); done.
    + apply last_None in Hlast. rewrite Hlast in *. simpl.
      assert (found q = []) as -> by (by destruct (found q)).
      split; [|done]. intros [|i] a b Ha Hb; simpl in *; [done|].
      by rewrite lookup_nil in Ha.
Qed.

Lemma result_stream_has_no_repeats_witness :
  head (result (listed UnnamedPart)) = head (found (listed UnnamedPart)).
Proof.
  destruct (result_stream_has_no_repeats UnnamedPart demo_imports
              (listed UnnamedPart)) as [_ Hhead].
  - apply listed_reachable.
  - exact Hhead.
Defined.

(** *** [count$] *)

Lemma reachable_counts rev lib q :
  reachable rev lib q →
  Forall (λ r, count r = length (hits r)) (result q).
Proof.
  induction 1 as [startTime queryHooks initialParams|q ev Hq IH].
  - constructor.
  - destruct (step_result rev lib q ev) as [->|(env & t & p & ->)]; [done|].
    apply Forall_app. split; [done|].
    constructor; [apply find_result_count|constructor].
Qed.

Lemma distinctUntilChanged_last (p : nat) values :
  last (p :: distinctUntilChanged (Some p) values) = last (p :: values).
Proof.
  revert p. induction values as [|x values IH]; intros p; [done|].
  cbn [distinctUntilChanged]. case_decide as Hx.
  - simplify_eq. by rewrite IH, last_cons_cons.
  - rewrite !last_cons_cons. apply IH.
Qed.

Lemma distinctUntilChanged_adjacent (p : nat) values i a b :
  (p :: distinctUntilChanged (Some p) values) !! i = Some a →
  (p :: distinctUntilChanged (Some p) values) !! S i = Some b →
  a ≠ b.
Proof.
  revert p i. induction values as [|x values IH]; intros p i;
    cbn [distinctUntilChanged].
  - intros _ Hb. by destruct i.
  - case_decide as Hx; [apply IH|].
    destruct i as [|i].
    + intros [= <-] [= <-]. congruence.
    + apply (IH x i).
Qed.

(** X12. [count$] never carries the same count twice in a row, and its
    latest value is the [count] of the latest result, which for an
    instance is the number of that result's hits. *)
Theorem count_stream_follows_results rev lib q :
  reachable rev lib q →
  (∀ i a b,
     count_stream (result q) !! i = Some a →
     count_stream (result q) !! S i = Some b → a ≠ b) ∧
  last (count_stream (result q)) = count <$> last (result q) ∧
  last (count_stream (result q)) = (λ r, length (hits r)) <$> last (result q).
Proof.
  intros Hq.
  assert (Hlast : last (count_stream (result q)) = count <$> last (result q)).
  { unfold count_stream. rewrite <- fmap_last.
    destruct (count <$> result q) as [|c counts]; [done|].
    cbn [distinctUntilChanged]. case_decide; [done|].
    apply distinctUntilChanged_last. }
  split; [|split; [done|]].
  - unfold count_stream. destruct (count <$> result q) as [|c counts].
    + intros i a b Ha. simpl in Ha. by destruct i.
    + cbn [distinctUntilChanged]. case_decide; [done|].
      intros i a b. apply distinctUntilChanged_adjacent.
  - rewrite Hlast. destruct (last (result q)) as [r|] eqn:Hr; [|done].
    simpl. f_equal.
    pose proof (reachable_counts rev lib q Hq) as Hcount.
    apply last_Some_elem_of in Hr.
    by apply (proj1 (Forall_forall _ _) Hcount).
Qed.

Lemma count_stream_follows_results_witness :
  last (count_stream (result (listed QueryStateTs))) = Some 2.
Proof.
  destruct (count_stream_follows_results QueryStateTs demo_imports
              (listed QueryStateTs)) as (_ & _ & Hlast).
  - apply listed_reachable.
  - rewrite Hlast. reflexivity.
Defined.

(** *** The search path *)

Lemma omap_fmap_sublist {A B C : Type} (g : A → option B) (f : B → C)
    (h : A → C) (l : list A) :
  (∀ x y, g x = Some y → f y = h x) →
  f <$> omap g l `sublist_of` h <$> l.
Proof.
  intros Hkey. induction l as [|x l IH]; [constructor|].
  cbn [omap list_omap]. rewrite fmap_cons.
  destruct (g x) as [y|] eqn:Hx.
  - rewrite fmap_cons, (Hkey x y Hx). by apply sublist_skip.
  - by apply sublist_cons.
Qed.

Lemma find_Some_elem_of {A : Type} (test : A → bool) (l : list A) x :
  List.find test l = Some x → x ∈ l ∧ test x = true.
Proof.
  intros Hfind. apply find_some in Hfind as [Hin Htest].
  split; [by apply list_elem_of_In|done].
Qed.

Lemma find_is_Some {A : Type} (test : A → bool) (l : list A) x :
  x ∈ l → test x = true → is_Some (List.find test l).
Proof.
  intros Hin Htest. destruct (List.find test l) eqn:Hfind; [done|].
  apply list_elem_of_In in Hin.
  pose proof (find_none _ _ Hfind _ Hin). congruence.
Qed.

(** X13. On the search path the hits follow the ranking of the search and
    refer to documents the store holds. In [src/query-state.ts] the hit
    ids are the ranked ids in rank order without those the store has no
    document for, each hit carries the store document with that primary
    key, and a ranked id with a document in the store is never dropped. In
    the unnamed part the same holds for the [uuid]s of the documents the
    search instance returns, the store being asked for the selector
    restricted to those [uuid]s, and no hit carries a score. *)
Theorem search_hits_follow_the_ranking env p :
  let text := search_string p in
  let ranked := searchService_search env text in
  let docs := find env (default [] (selector p)) in
  let published := hits (handleSearchActive QueryStateTs env p) in
  let uuids := uuid <$> default [] (searchInstance_find env text) in
  let restricted :=
    find env (obj_set "uuid" (JObj [("$in", JArr (JStr <$> uuids))])
                (default [] (selector p))) in
  let revised := hits (handleSearchActive UnnamedPart env p) in
  (id <$> published `sublist_of` hit_id <$> ranked ∧
   Forall (λ hit, document hit ∈ docs ∧ primary (document hit) = id hit)
     published ∧
   ∀ hit doc, hit ∈ ranked → doc ∈ docs → primary doc = hit_id hit →
              hit_id hit ∈ id <$> published) ∧
  (id <$> revised `sublist_of` uuids ∧
   Forall (λ hit, document hit ∈ restricted ∧ uuid (document hit) = id hit ∧
                  score hit = None) revised ∧
   ∀ u doc, u ∈ uuids → doc ∈ restricted → uuid doc = u → u ∈ id <$> revised).
Proof.
  simpl. split; split; [| split | | split].
  - rewrite <- (list_fmap_id (hit_id <$> _)), <- list_fmap_compose.
    apply omap_fmap_sublist. intros hit h Hh.
    destruct (List.find _ _); by simplify_eq.
  - apply Forall_forall. intros h Hh.
    apply list_elem_of_omap in Hh as (hit & Hhit & Hh).
    destruct (List.find _ _) as [doc|] eqn:Hfind; [|done]. simplify_eq.
    apply find_Some_elem_of in Hfind as [Hin Hkey]. simpl.
    by apply bool_decide_eq_true in Hkey.
  - intros hit doc Hhit Hdoc Hkey.
    destruct (find_is_Some (λ doc, bool_decide (primary doc = hit_id hit))
                (find env (default [] (selector p))) doc)
      as [doc' Hfind]; [done|by apply bool_decide_eq_true|].
    apply list_elem_of_fmap. eexists. split; [|apply list_elem_of_omap].
    2: { exists hit. split; [done|]. by rewrite Hfind. }
    done.
  - rewrite <- list_fmap_compose.
    rewrite <- (list_fmap_id (uuid <$> default [] _)) at 2.
    apply omap_fmap_sublist. intros u doc Hfind.
    apply find_Some_elem_of in Hfind as [_ Hkey].
    by apply bool_decide_eq_true in Hkey.
  - apply Forall_forall. intros h Hh.
    apply list_elem_of_fmap in Hh as (doc & -> & Hdoc).
    apply list_elem_of_omap in Hdoc as (u & Hu & Hfind).
    by apply find_Some_elem_of in Hfind as [Hin _].
  - intros u doc Hu Hdoc Hkey.
    destruct (find_is_Some (λ doc, bool_decide (uuid doc = u)) _ doc Hdoc)
      as [doc' Hfind]; [by apply bool_decide_eq_true|].
    apply find_Some_elem_of in Hfind as Hdoc'. destruct Hdoc' as [_ Hkey'].
    apply bool_decide_eq_true in Hkey'.
    rewrite <- list_fmap_compose. apply list_elem_of_fmap.
    exists doc'. split; [done|]. apply list_elem_of_omap. eauto.
Qed.

(** *** Attribute selectors of the unnamed part *)

Lemma filter_with_option_Rejected attributes :
  (∃ e, filter_with_option attributes = Rejected e) ↔
  Exists (λ attribute, is_nullish attribute = true) attributes.
Proof.
  induction attributes as [|attribute attributes IH]; simpl.
  - split; [by intros [e ?]|by inversion 1].
  - rewrite Exists_cons, <- IH.
    destruct (is_nullish attribute); [split; [by left|eauto]|].
    destruct (filter_with_option attributes) as [kept|e].
    + split; [by intros [e ?]|]. by intros [?|[e ?]].
    + split; eauto.
Qed.

Lemma filter_with_option_Resolved attributes kept :
  filter_with_option attributes = Resolved kept →
  kept = filter (λ attribute, truthy (optional_get attribute "option") = true)
           attributes.
Proof.
  revert kept. induction attributes as [|attribute attributes IH];
    intros kept; simpl.
  - by intros [= <-].
  - destruct (is_nullish attribute); [done|].
    destruct (filter_with_option attributes) as [kept'|e]; [|done].
    intros [= <-]. rewrite (IH kept' eq_refl).
    destruct (truthy _) eqn:Htruthy.
    + by rewrite filter_cons_True.
    + rewrite filter_cons_False; [done|congruence].
Qed.

(** X14. [getAllAttributesSelectors] of the unnamed part, when
    [findSelector('attributes')] yields a list (two or more clauses for
    the field, or one whose value is an object), raises a TypeError
    exactly when one of these clause values has no [$elemMatch]
    ([undefined] or [null]); otherwise it returns the [$elemMatch] parts
    that have a truthy [option], in clause order. With no clause, or a
    single clause of a primitive value, it returns the empty list. *)
Theorem getAllAttributesSelectors_needs_elemMatch q :
  let values :=
    value <$> filter (λ clause, field clause = "attributes") (whereClauses q) in
  let parts := (λ selector, optional_get selector "$elemMatch") <$> values in
  (2 ≤ length values ∨ Exists (λ v, typeof_object v = true) values →
     ((∃ e, getAllAttributesSelectors q = Rejected e) ↔
        Exists (λ part, is_nullish part = true) parts) ∧
     (Forall (λ part, is_nullish part = false) parts →
        getAllAttributesSelectors q
        = Resolved (filter (λ part, truthy (optional_get part "option") = true)
                      parts))) ∧
  (length values ≤ 1 → Forall (λ v, typeof_object v = false) values →
     getAllAttributesSelectors q = Resolved []).
Proof.
  simpl. unfold getAllAttributesSelectors, findSelector.
  set (values := value <$> filter _ (whereClauses q)).
  split.
  - intros Hlist.
    assert (Harray :
      Array_isArray
        (if bool_decide (length values = 0) then JUndefined
         else if existsb typeof_object values then JArr values
              else match values with
                   | [single] => single
                   | _ => JArr values
                   end) = Some values).
    { destruct Hlist as [Hlen|Hobject].
      - rewrite bool_decide_eq_false_2 by lia.
        destruct (existsb typeof_object values); [done|].
        destruct values as [|v1 [|v2 values']]; simpl in *; [lia|lia|done].
      - assert (existsb typeof_object values = true) as ->.
        { apply existsb_exists. apply Exists_exists in Hobject as (v & Hv & Hobj).
          exists v. split; [by apply list_elem_of_In|done]. }
        rewrite bool_decide_eq_false_2; [done|].
        destruct values; [by inversion Hobject|done]. }
    rewrite Harray. split.
    + apply filter_with_option_Rejected.
    + intros Hparts.
      destruct (filter_with_option _) as [kept|e] eqn:Hrun.
      * by rewrite (filter_with_option_Resolved _ _ Hrun).
      * exfalso.
        assert (Exists (λ part, is_nullish part = true)
                  ((λ selector, optional_get selector "$elemMatch") <$> values))
          as Hbad by (apply filter_with_option_Rejected; eauto).
        apply Exists_exists in Hbad as (part & Hin & Hnull).
        apply (proj1 (Forall_forall _ _) Hparts) in Hin. congruence.
  - intros Hlen Hprimitive.
    destruct values as [|v [|v' values']]; simpl in *; [done| |lia].
    apply Forall_cons in Hprimitive as [Hv _]. rewrite Hv. simpl.
    by destruct v.
Qed.

Lemma getAllAttributesSelectors_needs_elemMatch_witness :
  ∃ e,
    getAllAttributesSelectors
      (new_query UnnamedPart demo_imports 0 None
         (Some (mkParams None None None
                  (Some [("attributes", JObj [("$in", JArr [JStr "Blue"])])])
                  [Kselector])))
    = Rejected e.
Proof.
  destruct (getAllAttributesSelectors_needs_elemMatch
              (new_query UnnamedPart demo_imports 0 None
                 (Some (mkParams None None None
                          (Some [("attributes",
                                  JObj [("$in", JArr [JStr "Blue"])])])
                          [Kselector]))))
    as [Hlist _].
  destruct Hlist as [Hraise _].
  - right. apply Exists_cons_hd. reflexivity.
  - apply Hraise. apply Exists_cons_hd. reflexivity.
Defined.

End QueryState_more.

(* --------------------------------------------------------------------- *)
(** ** Further properties of [Manager]                                   *)
(* --------------------------------------------------------------------- *)

Section Manager_more.
Import Manager ManagerHistory.
#[local] Set Warnings "-clear-no-such-hyp".

Lemma heap_grows_refl m : heap_grows m m.
Proof. intros r o Ho. eauto. Qed.

Lemma heap_grows_trans m1 m2 m3 :
  heap_grows m1 m2 → heap_grows m2 m3 → heap_grows m1 m3.
Proof.
  intros H12 H23 r o Ho.
  destruct (H12 r o Ho) as (o2 & Ho2 & ? & ? & ?).
  destruct (H23 r o2 Ho2) as (o3 & Ho3 & ? & ? & ?).
  exists o3. repeat split; congruence.
Qed.

Lemma heap_grows_alter (g : Replication → Replication) r m :
  (∀ o, class (g o) = class o ∧ endpoint (g o) = endpoint o ∧
        collection (g o) = collection o) →
  heap_grows m (set_replications (alter g r) m).
Proof.
  intros Hg i o Ho. simpl. rewrite list_lookup_alter. case_decide.
  - subst. rewrite Ho. simpl. exists (g o). split; [done|apply Hg].
  - eauto.
Qed.

Lemma heap_grows_start r m : heap_grows m (replication_start r m).
Proof. by apply heap_grows_alter. Qed.

Lemma heap_grows_pause r m : heap_grows m (replication_pause r m).
Proof. by apply heap_grows_alter. Qed.

Lemma heap_grows_cancel r m : heap_grows m (replication_cancel r m).
Proof. by apply heap_grows_alter. Qed.

Lemma heap_grows_snoc o m :
  heap_grows m (set_replications (λ heap, heap ++ [o]) m).
Proof.
  intros i o' Ho'. simpl. exists o'. split; [|done].
  by apply lookup_app_l_Some.
Qed.

(** A state [m'] whose registries hold what those of a well-formed state
    [m] hold, or entries that are sound in [m'], is well formed. *)
Lemma well_formed_transfer m m' :
  well_formed m → heap_grows m m' →
  (∀ e r, replicationStates m' !! e = Some r →
          replicationStates m !! e = Some r ∨
          ∃ o, replications m' !! r = Some o ∧ endpoint o = e) →
  (∀ k r, activeCollectionReplications m' !! k = Some r →
          activeCollectionReplications m !! k = Some r ∨
          ∃ o, replications m' !! r = Some o ∧ class o = CollectionReplication) →
  (∀ k r, activeQueryReplications m' !! k = Some r →
          activeQueryReplications m !! k = Some r ∨
          ∃ o, replications m' !! r = Some o ∧ class o = QueryReplication) →
  (∀ k q, queryStates m' !! k = Some q →
          ∃ o, queries m' !! q = Some o ∧ id o = k ∧ query_isCanceled o = false) →
  (∀ k, is_Some (activeCollectionReplications m' !! k) ∨
        is_Some (activeQueryReplications m' !! k) →
        is_Some (queryStates m' !! k)) →
  well_formed m'.
Proof.
  intros [Hrs Hcr Hqr Hqs Hreg] Hgrow Hrs' Hcr' Hqr' Hqs' Hreg'.
  split; [| | |done|done].
  - intros e r Hr. destruct (Hrs' e r Hr) as [Hold|?]; [|done].
    destruct (Hrs e r Hold) as (o & Ho & He).
    destruct (Hgrow r o Ho) as (o' & Ho' & _ & He' & _).
    exists o'. split; [done|congruence].
  - intros k r Hr. destruct (Hcr' k r Hr) as [Hold|?]; [|done].
    destruct (Hcr k r Hold) as (o & Ho & He).
    destruct (Hgrow r o Ho) as (o' & Ho' & Hc' & _).
    exists o'. split; [done|congruence].
  - intros k r Hr. destruct (Hqr' k r Hr) as [Hold|?]; [|done].
    destruct (Hqr k r Hold) as (o & Ho & He).
    destruct (Hgrow r o Ho) as (o' & Ho' & Hc' & _).
    exists o'. split; [done|congruence].
Qed.

(** A step that changes replication objects only. *)
Lemma well_formed_heap_step m m' :
  well_formed m → heap_grows m m' →
  replicationStates m' = replicationStates m →
  activeCollectionReplications m' = activeCollectionReplications m →
  activeQueryReplications m' = activeQueryReplications m →
  queryStates m' = queryStates m → queries m' = queries m →
  well_formed m'.
Proof.
  intros Hwf Hgrow Hrs Hcr Hqr Hqs Hq.
  apply (well_formed_transfer m m' Hwf Hgrow).
  - intros e r. rewrite Hrs. by left.
  - intros k r. rewrite Hcr. by left.
  - intros k r. rewrite Hqr. by left.
  - intros k q. rewrite Hqs, Hq. apply Hwf.
  - intros k. rewrite Hcr, Hqr, Hqs. apply Hwf.
Qed.

Lemma registerCollectionReplication_spec coll e m :
  let m' := (registerCollectionReplication coll e m).1 in
  (registerCollectionReplication coll e m).2 = replicationStates m' !! e ∧
  queryStates m' = queryStates m ∧
  activeCollectionReplications m' = activeCollectionReplications m ∧
  activeQueryReplications m' = activeQueryReplications m ∧
  queries m' = queries m ∧ localDB m' = localDB m ∧
  heap_grows m m' ∧
  (∀ e', e' ≠ e → replicationStates m' !! e' = replicationStates m !! e') ∧
  ((replicationStates m' = replicationStates m ∧
    replications m' = replications m ∧
    instance_of m (replicationStates m !! e) CollectionReplication = true) ∨
   (replicationStates m' = <[e := length (replications m)]> (replicationStates m) ∧
    replications m' = replications m ++
      [mkReplication CollectionReplication e coll true false None] ∧
    instance_of m (replicationStates m !! e) CollectionReplication = false)).
Proof.
  unfold registerCollectionReplication, getSyncCollection.
  case_decide; cbn [fst snd].
  all: match goal with
       | |- context [instance_of ?m0 ?x ?c] =>
           change (instance_of m0 x c) with (instance_of m x c)
       end.
  all: destruct (instance_of m (replicationStates m !! e) CollectionReplication)
         eqn:Hinst; simpl.
  all: repeat split; try done; try apply heap_grows_refl;
       try (apply (heap_grows_snoc _ m));
       try (intros e' Hne; by rewrite lookup_insert_ne);
       try (left; done); try (right; done).
  all: intros r o Ho; exists o;
    (split; [first [done|by apply lookup_app_l_Some]|done]).
Qed.

Lemma registerQueryReplication_spec e cr coll m :
  let m' := (registerQueryReplication e cr coll m).1 in
  (registerQueryReplication e cr coll m).2 = replicationStates m' !! e ∧
  queryStates m' = queryStates m ∧
  activeCollectionReplications m' = activeCollectionReplications m ∧
  activeQueryReplications m' = activeQueryReplications m ∧
  queries m' = queries m ∧ localDB m' = localDB m ∧
  heap_grows m m' ∧
  (∀ e', e' ≠ e → replicationStates m' !! e' = replicationStates m !! e') ∧
  ((replicationStates m' = replicationStates m ∧
    replications m' = replications m ∧
    instance_of m (replicationStates m !! e) QueryReplication = true) ∨
   (replicationStates m' = <[e := length (replications m)]> (replicationStates m) ∧
    replications m' = replications m ++
      [mkReplication QueryReplication e coll true false (Some cr)] ∧
    instance_of m (replicationStates m !! e) QueryReplication = false)).
Proof.
  unfold registerQueryReplication. cbn [fst snd].
  destruct (instance_of m (replicationStates m !! e) QueryReplication)
    eqn:Hinst; simpl.
  all: repeat split; try done; try apply heap_grows_refl;
       try (apply (heap_grows_snoc _ m));
       try (intros e' Hne; by rewrite lookup_insert_ne);
       try (left; done); try (right; done).
Qed.

(** What a registration of a replication returns: a reference to an object
    of the requested class that lives at the requested endpoint. *)
Lemma registered_replication m m' e cls new :
  well_formed m → heap_grows m m' →
  class new = cls → endpoint new = e →
  (replicationStates m' = replicationStates m ∧
   replications m' = replications m ∧
   instance_of m (replicationStates m !! e) cls = true) ∨
  (replicationStates m' = <[e := length (replications m)]> (replicationStates m) ∧
   replications m' = replications m ++ [new] ∧
   instance_of m (replicationStates m !! e) cls = false) →
  ∃ r o, replicationStates m' !! e = Some r ∧ replications m' !! r = Some o ∧
         class o = cls ∧ endpoint o = e.
Proof.
  intros Hwf Hgrow Hclass Hend [(-> & -> & Hinst)|(-> & -> & _)].
  - unfold instance_of in Hinst.
    destruct (replicationStates m !! e) as [r|] eqn:Hr; [|done].
    destruct (replications m !! r) as [o|] eqn:Ho; [|done].
    apply bool_decide_eq_true in Hinst.
    destruct (wf_replicationStates m Hwf e r Hr) as (o' & Ho' & He).
    exists r, o. repeat split; try done. congruence.
  - exists (length (replications m)), new. rewrite lookup_insert_eq.
    by rewrite list_lookup_middle.
Qed.

Lemma registerCollectionReplication_well_formed coll e m :
  well_formed m →
  well_formed (registerCollectionReplication coll e m).1 ∧
  ∃ r o,
    (registerCollectionReplication coll e m).2 = Some r ∧
    replicationStates (registerCollectionReplication coll e m).1 !! e = Some r ∧
    replications (registerCollectionReplication coll e m).1 !! r = Some o ∧
    class o = CollectionReplication ∧ endpoint o = e.
Proof.
  intros Hwf.
  destruct (registerCollectionReplication_spec coll e m)
    as (Hres & Hqs & Hcr & Hqr & Hq & _ & Hgrow & Hother & Hcases).
  destruct (registered_replication m _ e CollectionReplication
              (mkReplication CollectionReplication e coll true false None)
              Hwf Hgrow eq_refl eq_refl Hcases)
    as (r & o & Hr & Ho & Hclass & Hend).
  split; [|exists r, o; by rewrite Hres].
  apply (well_formed_transfer m _ Hwf Hgrow).
  - intros e' r' Hr'. destruct (decide (e' = e)) as [->|Hne].
    + right. exists o. split; [congruence|done].
    + left. by rewrite <- Hother.
  - intros k r'. rewrite Hcr. by left.
  - intros k r'. rewrite Hqr. by left.
  - intros k q. rewrite Hqs, Hq. apply Hwf.
  - intros k. rewrite Hcr, Hqr, Hqs. apply Hwf.
Qed.

Lemma registerQueryReplication_well_formed e cr coll m :
  well_formed m →
  well_formed (registerQueryReplication e cr coll m).1 ∧
  ∃ r o,
    (registerQueryReplication e cr coll m).2 = Some r ∧
    replicationStates (registerQueryReplication e cr coll m).1 !! e = Some r ∧
    replications (registerQueryReplication e cr coll m).1 !! r = Some o ∧
    class o = QueryReplication ∧ endpoint o = e.
Proof.
  intros Hwf.
  destruct (registerQueryReplication_spec e cr coll m)
    as (Hres & Hqs & Hcr & Hqr & Hq & _ & Hgrow & Hother & Hcases).
  destruct (registered_replication m _ e QueryReplication
              (mkReplication QueryReplication e coll true false (Some cr))
              Hwf Hgrow eq_refl eq_refl Hcases)
    as (r & o & Hr & Ho & Hclass & Hend).
  split; [|exists r, o; by rewrite Hres].
  apply (well_formed_transfer m _ Hwf Hgrow).
  - intros e' r' Hr'. destruct (decide (e' = e)) as [->|Hne].
    + right. exists o. split; [congruence|done].
    + left. by rewrite <- Hother.
  - intros k r'. rewrite Hcr. by left.
  - intros k r'. rewrite Hqr. by left.
  - intros k q. rewrite Hqs, Hq. apply Hwf.
  - intros k. rewrite Hcr, Hqr, Hqs. apply Hwf.
Qed.

Lemma replication_start_well_formed r m :
  well_formed m → well_formed (replication_start r m).
Proof.
  intros Hwf. by apply (well_formed_heap_step m _ Hwf (heap_grows_start r m)).
Qed.

Lemma replication_pause_well_formed r m :
  well_formed m → well_formed (replication_pause r m).
Proof.
  intros Hwf. by apply (well_formed_heap_step m _ Hwf (heap_grows_pause r m)).
Qed.

Lemma replication_cancel_well_formed r m :
  well_formed m → well_formed (replication_cancel r m).
Proof.
  intros Hwf. by apply (well_formed_heap_step m _ Hwf (heap_grows_cancel r m)).
Qed.

Lemma maybePauseQueryReplications_cases query_id m m' :
  maybePauseQueryReplications query_id m = Resolved m' →
  m' = m ∨ ∃ r, activeQueryReplications m !! query_id = Some r ∧
                m' = replication_pause r m.
Proof.
  unfold maybePauseQueryReplications. intros Hrun.
  destruct (activeQueryReplications m !! query_id) as [r|]; [|done].
  destruct (endpoint_of m r); [|done].
  case_bool_decide; simplify_eq; eauto.
Qed.

Lemma maybePauseQueryReplications_well_formed query_id m m' :
  well_formed m → maybePauseQueryReplications query_id m = Resolved m' →
  well_formed m'.
Proof.
  intros Hwf Hrun.
  apply maybePauseQueryReplications_cases in Hrun as [->|(r & _ & ->)];
    [done|by apply replication_pause_well_formed].
Qed.

Lemma maybe_paused_well_formed query_id m :
  well_formed m →
  well_formed
    (if bool_decide (is_Some (activeQueryReplications m !! query_id)) then
       match maybePauseQueryReplications query_id m with
       | Resolved m' => m'
       | Rejected _ => m
       end
     else m).
Proof.
  intros Hwf. case_bool_decide; [|done].
  destruct (maybePauseQueryReplications query_id m) eqn:Hrun; [|done].
  by eapply maybePauseQueryReplications_well_formed.
Qed.

Lemma maybe_paused_frame query_id m :
  let m' :=
    if bool_decide (is_Some (activeQueryReplications m !! query_id)) then
      match maybePauseQueryReplications query_id m with
      | Resolved m' => m'
      | Rejected _ => m
      end
    else m in
  heap_grows m m' ∧ replicationStates m' = replicationStates m ∧
  activeCollectionReplications m' = activeCollectionReplications m ∧
  activeQueryReplications m' = activeQueryReplications m ∧
  queryStates m' = queryStates m ∧ queries m' = queries m ∧
  localDB m' = localDB m.
Proof.
  simpl. case_bool_decide; [|by split; [apply heap_grows_refl|]].
  destruct (maybePauseQueryReplications query_id m) eqn:Hrun;
    [|by split; [apply heap_grows_refl|]].
  apply maybePauseQueryReplications_cases in Hrun as [->|(r & _ & ->)].
  - by split; [apply heap_grows_refl|].
  - by split; [apply heap_grows_pause|].
Qed.

Lemma activeQueryReplications_insert_well_formed k r o m :
  well_formed m → is_Some (queryStates m !! k) →
  replications m !! r = Some o → class o = QueryReplication →
  well_formed (set_activeQueryReplications (insert k r) m).
Proof.
  intros Hwf Hk Ho Hclass.
  apply (well_formed_transfer m _ Hwf); [exact (heap_grows_refl m)|..]; simpl.
  - by left.
  - by left.
  - intros k' r' [[-> ->]|[_ ?]]%lookup_insert_Some; [right; eauto|by left].
  - apply Hwf.
  - intros k' [Hcr|Hqr].
    + apply Hwf. by left.
    + apply lookup_insert_is_Some in Hqr as [->|[_ ?]]; [done|].
      apply Hwf. by right.
Qed.

Lemma activeCollectionReplications_insert_well_formed k r o m :
  well_formed m → is_Some (queryStates m !! k) →
  replications m !! r = Some o → class o = CollectionReplication →
  well_formed (set_activeCollectionReplications (insert k r) m).
Proof.
  intros Hwf Hk Ho Hclass.
  apply (well_formed_transfer m _ Hwf); [exact (heap_grows_refl m)|..]; simpl.
  - by left.
  - intros k' r' [[-> ->]|[_ ?]]%lookup_insert_Some; [right; eauto|by left].
  - by left.
  - apply Hwf.
  - intros k' [Hcr|Hqr].
    + apply lookup_insert_is_Some in Hcr as [->|[_ ?]]; [done|].
      apply Hwf. by left.
    + apply Hwf. by right.
Qed.

Lemma on_params_well_formed lib queryState cr params m :
  well_formed m → is_Some (queryStates m !! id queryState) →
  well_formed (on_params lib queryState cr params m).
Proof.
  intros Hwf Hid. unfold on_params.
  set (qe := buildEndpointWithParams lib _ _).
  destruct (registerQueryReplication_well_formed qe cr
              (query_collection queryState) m Hwf)
    as (Hwf1 & r & o & Hres & _ & Ho & Hclass & _).
  destruct (registerQueryReplication_spec qe cr (query_collection queryState) m)
    as (_ & Hqs1 & _).
  destruct (registerQueryReplication qe cr (query_collection queryState) m)
    as [m1 queryReplication].
  cbn [fst snd] in *. subst queryReplication.
  pose proof (maybe_paused_well_formed (id queryState) m1 Hwf1) as Hwf2.
  destruct (maybe_paused_frame (id queryState) m1)
    as (Hgrow & _ & _ & _ & Hqs2 & _).
  set (m2 := if bool_decide _ then _ else m1) in *.
  destruct (Hgrow r o Ho) as (o' & Ho' & Hclass' & _).
  apply replication_start_well_formed.
  apply (activeQueryReplications_insert_well_formed _ r o'); try done.
  - by rewrite Hqs2, Hqs1.
  - congruence.
Qed.

Lemma onNewQueryState_well_formed lib queryState m :
  well_formed m → is_Some (queryStates m !! id queryState) →
  well_formed (onNewQueryState lib queryState m).
Proof.
  intros Hwf Hid. unfold onNewQueryState.
  destruct (registerCollectionReplication_well_formed
              (query_collection queryState) (query_endpoint queryState) m Hwf)
    as (Hwf1 & r & o & Hres & _ & Ho & Hclass & _).
  destruct (registerCollectionReplication_spec
              (query_collection queryState) (query_endpoint queryState) m)
    as (_ & Hqs1 & _).
  destruct (registerCollectionReplication _ _ m) as [m1 collectionReplication].
  cbn [fst snd] in *. subst collectionReplication.
  apply on_params_well_formed; [|by rewrite <- Hqs1 in Hid].
  apply replication_start_well_formed.
  apply (activeCollectionReplications_insert_well_formed _ r o); try done.
  by rewrite Hqs1.
Qed.

Lemma registerQuery_well_formed lib config m :
  well_formed m → well_formed (registerQuery lib config m).1.
Proof.
  intros Hwf. unfold registerQuery. cbn [fst].
  case_bool_decide as Hhas; [done|].
  unfold getCollection. case_decide; cbn [fst snd].
  2: { by apply (well_formed_heap_step m _ Hwf); [exact (heap_grows_refl m)|..]. }
  apply onNewQueryState_well_formed; [|simpl; by rewrite lookup_insert_eq].
  apply (well_formed_transfer m _ Hwf); [exact (heap_grows_refl m)|..]; simpl.
  - by left.
  - by left.
  - by left.
  - intros k q [[<- <-]|[Hne Hq]]%lookup_insert_Some.
    + eexists. split; [apply list_lookup_middle; done|done].
    + destruct (wf_queryStates m Hwf k q Hq) as (o & Ho & Hk).
      exists o. split; [by apply lookup_app_l_Some|done].
  - intros k Hk. apply lookup_insert_is_Some.
    destruct (decide (stringify lib (queryKeys config) = k)); [by left|].
    right. split; [done|]. by apply Hwf.
Qed.

Lemma deregisterQuery_well_formed key m :
  well_formed m → well_formed (deregisterQuery key m).
Proof.
  intros Hwf. unfold deregisterQuery.
  destruct (queryStates m !! key) as [q|] eqn:Hq; [|done].
  apply (well_formed_transfer m _ Hwf); [exact (heap_grows_refl m)|..]; simpl.
  - by left.
  - intros k r [_ ?]%lookup_delete_Some. by left.
  - intros k r [_ ?]%lookup_delete_Some. by left.
  - intros k q' [Hne Hq']%lookup_delete_Some.
    destruct (wf_queryStates m Hwf k q' Hq') as (o' & Ho' & Hk' & Hlive).
    destruct (wf_queryStates m Hwf key q Hq) as (o & Ho & Hk & _).
    exists o'. split; [|done].
    rewrite list_lookup_alter_ne; [done|]. intros ->. congruence.
  - intros k [Hcr|Hqr].
    + apply lookup_delete_is_Some in Hcr as [Hne Hcr].
      apply lookup_delete_is_Some. split; [done|]. apply Hwf. by left.
    + apply lookup_delete_is_Some in Hqr as [Hne Hqr].
      apply lookup_delete_is_Some. split; [done|]. apply Hwf. by right.
Qed.

Lemma deregisterReplication_well_formed e m :
  well_formed m → well_formed (deregisterReplication e m).
Proof.
  intros Hwf. unfold deregisterReplication.
  destruct (replicationStates m !! e) as [r|] eqn:Hr; [|done].
  apply (well_formed_transfer m _ Hwf).
  - apply (heap_grows_cancel r m).
  - simpl. intros e' r' [_ ?]%lookup_delete_Some. by left.
  - by left.
  - by left.
  - apply Hwf.
  - apply Hwf.
Qed.

Lemma reset_replications_well_formed name visited m :
  well_formed m → well_formed (reset_replications name visited m).
Proof.
  unfold reset_replications. revert m.
  induction visited as [|[e r] visited IH]; intros m Hwf; [done|].
  simpl. apply IH. case_bool_decide; [|done].
  by apply deregisterReplication_well_formed.
Qed.

Lemma reset_queries_well_formed name visited m :
  well_formed m → well_formed (reset_queries name visited m).
Proof.
  unfold reset_queries. revert m.
  induction visited as [|[k q] visited IH]; intros m Hwf; [done|].
  simpl. apply IH. case_bool_decide; [|done].
  by apply deregisterQuery_well_formed.
Qed.

Lemma step_well_formed lib m ev :
  well_formed m → well_formed (step lib m ev).
Proof.
  intros Hwf.
  destruct ev as [config|key|e|query_id|key params|name rs qs]; simpl.
  - by apply registerQuery_well_formed.
  - by apply deregisterQuery_well_formed.
  - by apply deregisterReplication_well_formed.
  - destruct (maybePauseQueryReplications query_id m) eqn:Hrun; [|done].
    by eapply maybePauseQueryReplications_well_formed.
  - destruct (queryStates m !! key) as [q|] eqn:Hq; [|done].
    destruct (activeCollectionReplications m !! key) as [cr|]; [|done].
    destruct (queries m !! q) as [queryState|] eqn:Hobj; [|done].
    destruct (wf_queryStates m Hwf key q Hq) as (o & Ho & Hk & Hlive).
    assert (o = queryState) as -> by congruence.
    apply on_params_well_formed; [|simpl; rewrite Hk; by rewrite Hq].
    apply (well_formed_transfer m _ Hwf); [exact (heap_grows_refl m)|..]; simpl.
    + by left.
    + by left.
    + by left.
    + intros k q' Hq'.
      destruct (wf_queryStates m Hwf k q' Hq') as (o' & Ho' & Hk' & Hlive').
      rewrite list_lookup_alter. case_decide; [|eauto].
      subst. rewrite Ho. simpl. eexists. split; [done|].
      simpl. split; [congruence|]. congruence.
    + apply Hwf.
  - by apply reset_queries_well_formed, reset_replications_well_formed.
Qed.

Lemma new_manager_well_formed stores fast_stores :
  well_formed (new_manager stores fast_stores).
Proof.
  split; simpl; try (intros ? ? Hin; by rewrite lookup_empty in Hin).
  intros k [[? Hin]|[? Hin]]; by rewrite lookup_empty in Hin.
Qed.

Lemma history_well_formed lib stores fast_stores events :
  well_formed (history lib stores fast_stores events).
Proof.
  unfold history. generalize (new_manager_well_formed stores fast_stores).
  generalize (new_manager stores fast_stores).
  induction events as [|ev events IH]; intros m Hwf; [done|].
  simpl. by apply IH, step_well_formed.
Qed.

(** X15. In every state a manager goes through, each endpoint of
    [replicationStates] refers to a replication state whose [endpoint] is
    that endpoint, [activeCollectionReplications] holds only instances of
    [CollectionReplicationState] and [activeQueryReplications] only
    instances of [QueryReplicationState], each key of [queryStates] refers
    to an evaluator with that [id] which is not canceled, and the two
    active registries have entries for registered queries only. *)
Theorem registries_stay_sound lib stores fast_stores events :
  well_formed (history lib stores fast_stores events).
Proof. apply history_well_formed. Qed.

(** *** The params subscriber and the registration of a query *)

Lemma registerQueryReplication_returns e cr coll m :
  is_Some (registerQueryReplication e cr coll m).2.
Proof.
  destruct (registerQueryReplication_spec e cr coll m)
    as (-> & _ & _ & _ & _ & _ & _ & _ & [(-> & _ & Hinst)|(-> & _)]).
  - unfold instance_of in Hinst. by destruct (replicationStates m !! e).
  - rewrite lookup_insert_eq. eauto.
Qed.

Lemma registerCollectionReplication_returns coll e m :
  is_Some (registerCollectionReplication coll e m).2.
Proof.
  destruct (registerCollectionReplication_spec coll e m)
    as (-> & _ & _ & _ & _ & _ & _ & _ & [(-> & _ & Hinst)|(-> & _)]).
  - unfold instance_of in Hinst. by destruct (replicationStates m !! e).
  - rewrite lookup_insert_eq. eauto.
Qed.

Lemma instance_of_grows m m' x cls :
  heap_grows m m' → instance_of m x cls = true → instance_of m' x cls = true.
Proof.
  intros Hgrow. unfold instance_of. destruct x as [r|]; [|done].
  destruct (replications m !! r) as [o|] eqn:Ho; [|done].
  destruct (Hgrow r o Ho) as (o' & -> & Hclass & _).
  by rewrite Hclass.
Qed.

Lemma registerCollectionReplication_instance coll e m :
  instance_of (registerCollectionReplication coll e m).1
    (registerCollectionReplication coll e m).2 CollectionReplication = true.
Proof.
  destruct (registerCollectionReplication_spec coll e m)
    as (Hres & _ & _ & _ & _ & _ & Hgrow & _ & Hcases).
  rewrite Hres. destruct Hcases as [(Hrs & _ & Hinst)|(Hrs & Hheap & _)].
  - rewrite Hrs. by eapply instance_of_grows.
  - rewrite Hrs, lookup_insert_eq. unfold instance_of.
    rewrite Hheap, list_lookup_middle by done. by rewrite bool_decide_eq_true_2.
Qed.

Lemma registerQueryReplication_instance e cr coll m :
  instance_of (registerQueryReplication e cr coll m).1
    (registerQueryReplication e cr coll m).2 QueryReplication = true.
Proof.
  destruct (registerQueryReplication_spec e cr coll m)
    as (Hres & _ & _ & _ & _ & _ & Hgrow & _ & Hcases).
  rewrite Hres. destruct Hcases as [(Hrs & _ & Hinst)|(Hrs & Hheap & _)].
  - rewrite Hrs. by eapply instance_of_grows.
  - rewrite Hrs, lookup_insert_eq. unfold instance_of.
    rewrite Hheap, list_lookup_middle by done. by rewrite bool_decide_eq_true_2.
Qed.

Lemma on_params_frame lib queryState cr params m :
  let m' := on_params lib queryState cr params m in
  let qe := queryEndpoint lib queryState params in
  queryStates m' = queryStates m ∧ queries m' = queries m ∧
  localDB m' = localDB m ∧
  activeCollectionReplications m' = activeCollectionReplications m ∧
  heap_grows m m' ∧
  (∀ e', e' ≠ qe → replicationStates m' !! e' = replicationStates m !! e') ∧
  ∃ r, replicationStates m' !! qe = Some r ∧
       activeQueryReplications m'
       = <[id queryState := r]> (activeQueryReplications m) ∧
       instance_of m' (Some r) QueryReplication = true.
Proof.
  unfold on_params, queryEndpoint.
  set (qe := buildEndpointWithParams lib _ _).
  destruct (registerQueryReplication_returns qe cr
              (query_collection queryState) m) as [r Hr].
  pose proof (registerQueryReplication_instance qe cr
                (query_collection queryState) m) as Hinst.
  destruct (registerQueryReplication_spec qe cr (query_collection queryState) m)
    as (Hres & Hqs1 & Hcr1 & Hqr1 & Hq1 & Hdb1 & Hgrow1 & Hother1 & _).
  destruct (registerQueryReplication qe cr (query_collection queryState) m)
    as [m1 queryReplication].
  cbn [fst snd] in *. subst queryReplication.
  destruct (maybe_paused_frame (id queryState) m1)
    as (Hgrow2 & Hrs2 & Hcr2 & Hqr2 & Hqs2 & Hq2 & Hdb2).
  set (m2 := if bool_decide _ then _ else m1) in *.
  simpl. rewrite Hqs2, Hq2, Hdb2, Hcr2, Hrs2, Hqr2.
  repeat split; try done.
  - eapply heap_grows_trans; [exact Hgrow1|].
    eapply heap_grows_trans; [exact Hgrow2|].
    apply (heap_grows_start r (set_activeQueryReplications (insert (id queryState) r) m2)).
  - exists r. split; [done|]. split; [by rewrite Hqr1|].
    apply (instance_of_grows m2 _ (Some r) QueryReplication
             (heap_grows_start r
                (set_activeQueryReplications (insert (id queryState) r) m2))).
    apply (instance_of_grows m1 m2 (Some r) _ Hgrow2 Hinst).
Qed.

Lemma onNewQueryState_frame lib queryState m :
  let m' := onNewQueryState lib queryState m in
  let e := query_endpoint queryState in
  let qe := queryEndpoint lib queryState (params queryState) in
  queryStates m' = queryStates m ∧ queries m' = queries m ∧
  localDB m' = localDB m ∧ heap_grows m m' ∧
  (∀ e', e' ≠ qe → e' ≠ e →
         replicationStates m' !! e' = replicationStates m !! e') ∧
  ∃ cr r,
    activeCollectionReplications m'
    = <[id queryState := cr]> (activeCollectionReplications m) ∧
    activeQueryReplications m'
    = <[id queryState := r]> (activeQueryReplications m) ∧
    replicationStates m' !! qe = Some r ∧
    (qe ≠ e → replicationStates m' !! e = Some cr) ∧
    instance_of m' (Some cr) CollectionReplication = true ∧
    instance_of m' (Some r) QueryReplication = true ∧
    (instance_of m (replicationStates m !! e) CollectionReplication = true →
     replicationStates m !! e = Some cr).
Proof.
  unfold onNewQueryState.
  destruct (registerCollectionReplication_returns
              (query_collection queryState) (query_endpoint queryState) m)
    as [cr Hcr].
  pose proof (registerCollectionReplication_instance
                (query_collection queryState) (query_endpoint queryState) m)
    as Hinst.
  destruct (registerCollectionReplication_spec
              (query_collection queryState) (query_endpoint queryState) m)
    as (Hres & Hqs1 & Hcr1 & Hqr1 & Hq1 & Hdb1 & Hgrow1 & Hother1 & Hcases).
  destruct (registerCollectionReplication _ _ m) as [m1 collectionReplication].
  cbn [fst snd] in *. subst collectionReplication.
  set (m2 := replication_start cr
               (set_activeCollectionReplications (insert (id queryState) cr) m1)).
  destruct (on_params_frame lib queryState cr (params queryState) m2)
    as (Hqs3 & Hq3 & Hdb3 & Hcr3 & Hgrow3 & Hother3 & r & Hr & Hqr3 & Hinstr).
  assert (Hgrow2 : heap_grows m1 m2)
    by apply (heap_grows_start cr (set_activeCollectionReplications (insert (id queryState) cr) m1)).
  simpl. rewrite Hqs3, Hq3, Hdb3, Hcr3, Hqr3.
  repeat split; try done.
  - eapply heap_grows_trans; [exact Hgrow1|].
    eapply heap_grows_trans; [exact Hgrow2|exact Hgrow3].
  - intros e' Hqe He. rewrite Hother3 by done. by apply Hother1.
  - exists cr, r. simpl. rewrite Hcr1, Hqr1. repeat split; try done.
    + intros Hne. rewrite Hother3 by done.
      change (replicationStates m2) with (replicationStates m1).
      by rewrite <- Hres.
    + apply (instance_of_grows m2 _ (Some cr) CollectionReplication Hgrow3).
      apply (instance_of_grows m1 m2 (Some cr) _ Hgrow2 Hinst).
    + intros Hold. destruct Hcases as [(Hsame & _)|(_ & _ & Hnew)];
        [|congruence]. by rewrite <- Hsame, <- Hres.
Qed.

Lemma registerQuery_fresh lib config m :
  queryStates m !! stringify lib (queryKeys config) = None →
  collectionName config ∈ localDB m →
  (registerQuery lib config m).1
  = onNewQueryState lib (new_query_state lib config)
      (set_queryStates
         (insert (stringify lib (queryKeys config)) (length (queries m)))
         (set_queries (λ heap, heap ++ [new_query_state lib config]) m)).
Proof.
  intros Hkey Hcoll. unfold registerQuery, getCollection. cbn [fst].
  rewrite bool_decide_eq_false_2 by (rewrite Hkey; by intros []).
  by rewrite decide_True.
Qed.


Lemma registerQuery_new lib config m :
  let key := stringify lib (queryKeys config) in
  let queryState := new_query_state lib config in
  let e := query_endpoint queryState in
  let qe := queryEndpoint lib queryState (params queryState) in
  let m' := (registerQuery lib config m).1 in
  queryStates m !! key = None → collectionName config ∈ localDB m →
  queryStates m' = <[key := length (queries m)]> (queryStates m) ∧
  queries m' = queries m ++ [queryState] ∧
  localDB m' = localDB m ∧ heap_grows m m' ∧
  (∀ e', e' ≠ qe → e' ≠ e →
         replicationStates m' !! e' = replicationStates m !! e') ∧
  ∃ cr r,
    activeCollectionReplications m'
    = <[key := cr]> (activeCollectionReplications m) ∧
    activeQueryReplications m' = <[key := r]> (activeQueryReplications m) ∧
    replicationStates m' !! qe = Some r ∧
    (qe ≠ e → replicationStates m' !! e = Some cr) ∧
    instance_of m' (Some cr) CollectionReplication = true ∧
    instance_of m' (Some r) QueryReplication = true ∧
    (instance_of m (replicationStates m !! e) CollectionReplication = true →
     replicationStates m !! e = Some cr).
Proof.
  intros key queryState e qe m' Hkey Hcoll. subst m'.
  rewrite registerQuery_fresh by done.
  fold key. fold queryState.
  set (m0 := set_queryStates _ _).
  destruct (onNewQueryState_frame lib queryState m0)
    as (Hqs & Hq & Hdb & Hgrow & Hother & cr & r & Hrest).
  rewrite Hqs, Hq, Hdb. repeat split; try done.
  exists cr, r. exact Hrest.
Qed.

(** X16. Queries that name the same endpoint share one collection
    replication: when a query is registered at an endpoint and its derived
    query endpoint differs from that endpoint, a second query registered
    at the same endpoint gets the very instance the first one holds,
    whatever collections and parameters the two queries have. *)
Theorem queries_share_collection_replication lib c1 c2 m :
  let k1 := stringify lib (queryKeys c1) in
  let k2 := stringify lib (queryKeys c2) in
  let e := endpoint_or (config_endpoint c1) (collectionName c1) in
  let m' := (registerQuery lib c2 (registerQuery lib c1 m).1).1 in
  k1 ≠ k2 → queryStates m !! k1 = None → queryStates m !! k2 = None →
  collectionName c1 ∈ localDB m → collectionName c2 ∈ localDB m →
  endpoint_or (config_endpoint c2) (collectionName c2) = e →
  queryEndpoint lib (new_query_state lib c1) (params (new_query_state lib c1))
    ≠ e →
  ∃ cr, activeCollectionReplications m' !! k1 = Some cr ∧
        activeCollectionReplications m' !! k2 = Some cr ∧
        instance_of m' (Some cr) CollectionReplication = true.
Proof.
  intros k1 k2 e m' Hne Hk1 Hk2 Hc1 Hc2 He Hqe. subst m'.
  destruct (registerQuery_new lib c1 m Hk1 Hc1)
    as (Hqs1 & _ & Hdb1 & _ & _ & cr & r1 & Hcr1 & _ & _ & Hslot & Hinst & _).
  set (m1 := (registerQuery lib c1 m).1) in *.
  destruct (registerQuery_new lib c2 m1)
    as (_ & _ & _ & _ & _ & cr2 & r2 & Hcr2 & _ & _ & _ & Hinst2 & _ & Hsame).
  { rewrite Hqs1. by rewrite lookup_insert_ne. }
  { by rewrite Hdb1. }
  specialize (Hslot Hqe).
  change (query_endpoint (new_query_state lib c1)) with e in Hslot.
  change (query_endpoint (new_query_state lib c2))
    with (endpoint_or (config_endpoint c2) (collectionName c2)) in Hsame.
  rewrite He, Hslot in Hsame.
  specialize (Hsame Hinst). simplify_eq.
  exists cr2. rewrite Hcr2, Hcr1. fold k1 k2.
  rewrite lookup_insert_eq, lookup_insert_ne by done.
  by rewrite lookup_insert_eq.
Qed.

Lemma queries_share_collection_replication_witness :
  ∃ cr, activeCollectionReplications two_queries !! "list" = Some cr ∧
        activeCollectionReplications two_queries !! "grid" = Some cr ∧
        instance_of two_queries (Some cr) CollectionReplication = true.
Proof.
  apply (queries_share_collection_replication demo_imports
           (products_query "list") (products_query "grid")
           (new_manager {["products"]} {["products"]})).
  - done.
  - reflexivity.
  - reflexivity.
  - vm_compute. reflexivity.
  - vm_compute. reflexivity.
  - reflexivity.
  - vm_compute. discriminate.
Defined.

(** X17. The registry of replication states has one slot per endpoint: a
    query whose derived query endpoint is its own endpoint has its
    collection replication replaced in [replicationStates] by the query
    replication. The query keeps both instances in the active registries,
    and they are two different objects. *)
Theorem query_replication_takes_the_slot lib config m :
  let key := stringify lib (queryKeys config) in
  let queryState := new_query_state lib config in
  let e := endpoint_or (config_endpoint config) (collectionName config) in
  let m' := (registerQuery lib config m).1 in
  queryStates m !! key = None → collectionName config ∈ localDB m →
  queryEndpoint lib queryState (params queryState) = e →
  ∃ cr r, activeCollectionReplications m' !! key = Some cr ∧
          activeQueryReplications m' !! key = Some r ∧
          replicationStates m' !! e = Some r ∧ cr ≠ r ∧
          instance_of m' (Some cr) CollectionReplication = true ∧
          instance_of m' (Some r) QueryReplication = true.
Proof.
  intros key queryState e m' Hkey Hcoll Hqe. subst m'.
  destruct (registerQuery_new lib config m Hkey Hcoll)
    as (_ & _ & _ & _ & _ & cr & r & Hcr & Hqr & Hslot & _ & Hinst & Hinstr & _).
  exists cr, r. fold key in Hcr, Hqr. rewrite Hcr, Hqr, !lookup_insert_eq.
  fold queryState in Hslot. rewrite Hqe in Hslot.
  repeat split; try done.
  intros ->. unfold instance_of in Hinst, Hinstr.
  destruct (replications _ !! r) as [o|]; [|done].
  apply bool_decide_eq_true in Hinst, Hinstr. congruence.
Qed.

Lemma query_replication_takes_the_slot_witness :
  let m' := (registerQuery bare_imports (products_query "list")
               (new_manager {["products"]} {["products"]})).1 in
  ∃ cr r, activeCollectionReplications m' !! "list" = Some cr ∧
          activeQueryReplications m' !! "list" = Some r ∧
          replicationStates m' !! "products" = Some r ∧ cr ≠ r ∧
          instance_of m' (Some cr) CollectionReplication = true ∧
          instance_of m' (Some r) QueryReplication = true.
Proof.
  apply (query_replication_takes_the_slot bare_imports (products_query "list")
           (new_manager {["products"]} {["products"]})).
  - reflexivity.
  - vm_compute. reflexivity.
  - reflexivity.
Defined.

(** X18. [maybePauseQueryReplications] needs an entry of the query in
    [activeQueryReplications]: in every state a manager goes through, the
    call returns exactly when the query has such an entry and raises a
    [TypeError] otherwise, and it always raises for a query that has just
    been deregistered. *)
Theorem maybePause_needs_an_active_replication lib stores fast_stores events k :
  let m := history lib stores fast_stores events in
  ((∃ m', maybePauseQueryReplications k m = Resolved m') ↔
   is_Some (activeQueryReplications m !! k)) ∧
  (activeQueryReplications m !! k = None →
   maybePauseQueryReplications k m = Rejected not_an_object) ∧
  maybePauseQueryReplications k (deregisterQuery k m) = Rejected not_an_object.
Proof.
  intros m. pose proof (history_well_formed lib stores fast_stores events) as Hwf.
  fold m in Hwf. split; [|split].
  - unfold maybePauseQueryReplications. split.
    + intros [m' Hrun]. by destruct (activeQueryReplications m !! k).
    + intros [r Hr]. rewrite Hr.
      destruct (wf_activeQueryReplications m Hwf k r Hr) as (o & Ho & _).
      unfold endpoint_of. rewrite Ho. simpl. case_bool_decide; eauto.
  - intros Hnone. unfold maybePauseQueryReplications. by rewrite Hnone.
  - unfold deregisterQuery.
    destruct (queryStates m !! k) as [q|] eqn:Hq.
    + unfold maybePauseQueryReplications. simpl. by rewrite lookup_delete_eq.
    + unfold maybePauseQueryReplications.
      destruct (activeQueryReplications m !! k) as [r|] eqn:Hr; [|done].
      destruct (wf_active_registered m Hwf k) as [q' Hq']; [right; eauto|].
      congruence.
Qed.

(** X19. Registering a key again after its deregistration creates a new
    evaluator: between the two calls the key is unknown ([hasQuery] is
    false and [getQuery] reports that the query was not found), the second
    registration returns an object that did not exist before, and the
    evaluator that was registered first stays canceled. *)
Theorem reregistration_creates_a_new_evaluator
    lib stores fast_stores events config q :
  let m := history lib stores fast_stores events in
  let key := stringify lib (queryKeys config) in
  let m1 := deregisterQuery key m in
  let m2 := (registerQuery lib config m1).1 in
  queryStates m !! key = Some q → collectionName config ∈ localDB m →
  hasQuery lib (queryKeys config) m1 = false ∧
  getQuery lib (queryKeys config) m1
  = (error_next (mkError ("Query with key: " +:+ key +:+ " not found.")) m1,
     None) ∧
  (registerQuery lib config m1).2 = Some (length (queries m)) ∧
  q < length (queries m) ∧
  query_canceled m2 q = Some true ∧
  query_canceled m2 (length (queries m)) = Some false.
Proof.
  intros m key m1 m2 Hq Hcoll.
  pose proof (history_well_formed lib stores fast_stores events) as Hwf.
  fold m in Hwf.
  destruct (wf_queryStates m Hwf key q Hq) as (o & Ho & _).
  assert (Hm1 : m1 = query_cancel q
            (set_activeQueryReplications (delete key)
               (set_activeCollectionReplications (delete key)
                  (set_queryStates (delete key) m)))).
  { subst m1. unfold deregisterQuery. by rewrite Hq. }
  assert (Hkey1 : queryStates m1 !! key = None).
  { rewrite Hm1. simpl. by rewrite lookup_delete_eq. }
  assert (Hheap1 : queries m1 = alter (λ o, mkQuery (id o) (query_collection o)
            (query_endpoint o) (query_greedy o) (params o) true) q (queries m)).
  { by rewrite Hm1. }
  assert (Hdb1 : localDB m1 = localDB m) by by rewrite Hm1.
  destruct (registerQuery_new lib config m1)
    as (Hqs2 & Hheap2 & _); [done|by rewrite Hdb1|].
  fold m2 in Hqs2, Hheap2.
  assert (Hlen : length (queries m1) = length (queries m)).
  { by rewrite Hheap1, length_alter. }
  rewrite Hlen in Hqs2.
  pose proof (lookup_lt_Some _ _ _ Ho) as Hlt.
  split; [|split; [|split; [|split; [|split]]]].
  - unfold hasQuery. fold key. rewrite Hkey1.
    apply bool_decide_eq_false_2. by intros [].
  - unfold getQuery. fold key. by rewrite Hkey1.
  - unfold registerQuery. cbn [snd]. fold key.
    change (queryStates m2 !! key = Some (length (queries m))).
    by rewrite Hqs2, lookup_insert_eq.
  - done.
  - unfold query_canceled. rewrite Hheap2, lookup_app_l by lia.
    rewrite Hheap1, list_lookup_alter_eq, Ho. done.
  - unfold query_canceled. rewrite Hheap2, <- Hlen, list_lookup_middle by done.
    done.
Qed.

Lemma reregistration_creates_a_new_evaluator_witness :
  let m := history demo_imports {["products"]} {["products"]}
             [RegisterQuery (products_query "list")] in
  let m1 := deregisterQuery "list" m in
  let m2 := (registerQuery demo_imports (products_query "list") m1).1 in
  hasQuery demo_imports [JStr "list"] m1 = false ∧
  (registerQuery demo_imports (products_query "list") m1).2 = Some 1 ∧
  query_canceled m2 0 = Some true ∧ query_canceled m2 1 = Some false.
Proof.
  destruct (reregistration_creates_a_new_evaluator demo_imports
              {["products"]} {["products"]}
              [RegisterQuery (products_query "list")]
              (products_query "list") 0)
    as (Hhas & _ & Hnew & _ & Hold & Hlive).
  - vm_compute. reflexivity.
  - vm_compute. reflexivity.
  - intros m m1 m2.
    split; [exact Hhas|split; [exact Hnew|split; [exact Hold|exact Hlive]]].
Defined.

(** *** The parameters sent to the remote source *)

Lemma api_fold_lookup key (visited : list (PropertyKey * JsValue))
    (acc : ApiQueryParams) :
  obj_lookup key
    (foldl (λ params '(k, v),
              if bool_decide (k = KeyName "uuid") then params
              else obj_set (property_name k) v params)
       acc visited)
  = match last_with (λ entry : PropertyKey * JsValue, property_name entry.1)
            key
            (filter (λ entry : PropertyKey * JsValue,
                       entry.1 ≠ KeyName "uuid") visited) with
    | Some entry => Some entry.2
    | None => obj_lookup key acc
    end.
Proof.
  unfold last_with.
  revert acc. induction visited as [|[k v] visited IH]; intros acc; [done|].
  cbn [foldl]. rewrite IH. clear IH.
  case_bool_decide as Huuid.
  { by rewrite (filter_cons_False _ (k, v)) by (by intros []). }
  rewrite (filter_cons_True _ (k, v)) by done.
  destruct (decide (property_name k = key)) as [Hk|Hk].
  - rewrite filter_cons_True by done. rewrite last_cons.
    destruct (last (filter _ _)); [done|].
    rewrite <- Hk. by rewrite obj_lookup_set_eq.
  - rewrite filter_cons_False by done.
    destruct (last (filter _ _)); [done|].
    by rewrite obj_lookup_set_ne.
Qed.

Lemma api_fold_NoDup (visited : list (PropertyKey * JsValue))
    (acc : ApiQueryParams) :
  NoDup acc.*1 →
  NoDup (foldl (λ params '(k, v),
                  if bool_decide (k = KeyName "uuid") then params
                  else obj_set (property_name k) v params) acc visited).*1.
Proof.
  revert acc. induction visited as [|[k v] visited IH]; intros acc Hacc;
    [done|].
  cbn [foldl]. apply IH. case_bool_decide; [done|]. by apply obj_set_NoDup.
Qed.

Lemma api_lookup_sent key entries (acc : ApiQueryParams) :
  obj_lookup key
    (foldl (λ params '(k, v),
              if bool_decide (k = KeyName "uuid") then params
              else obj_set (property_name k) v params)
       acc (forEach_entries (JObj entries)))
  = match sent_from_selector key entries with
    | Some v => Some v
    | None => obj_lookup key acc
    end.
Proof.
  rewrite api_fold_lookup. unfold sent_from_selector.
  by destruct (last_with _ key _).
Qed.

Lemma uuid_is_not_sent entries : sent_from_selector "uuid" entries = None.
Proof.
  unfold sent_from_selector, last_with.
  rewrite list_filter_filter, filter_absent; [done|].
  intros [k v] _ [Hname Hkey]. simpl in *.
  by apply property_name_uuid in Hname.
Qed.

(** Of a selector that is not array-like, the own properties are sent. *)
Lemma sent_from_properties key entries :
  isLength (default JUndefined (obj_get "length" entries)) = None →
  sent_from_selector key entries
  = if bool_decide (key = "uuid") then None
    else snd <$> last_with fst key entries.
Proof.
  intros Hlength. unfold sent_from_selector, last_with, forEach_entries.
  rewrite Hlength, list_filter_filter, filter_mapped, fmap_last.
  cbn [fst snd property_name].
  case_bool_decide as Hkey.
  - rewrite filter_absent; [done|]. intros entry _ [Hname Huuid].
    apply Huuid. congruence.
  - rewrite (list_filter_iff _ (λ entry, entry.1 = key)).
    + by destruct (last (filter _ entries)).
    + intros entry. split; [by intros []|]. intros Hname.
      split; [done|]. intros [= Huuid]. congruence.
Qed.

(** Of an array-like selector, the indexed elements below its length are
    sent, each under its index. *)
Lemma sent_from_elements key entries length :
  isLength (default JUndefined (obj_get "length" entries)) = Some length →
  (∀ index, index < length →
     sent_from_selector (pretty index) entries
     = Some (default JUndefined (obj_get (pretty index) entries))) ∧
  ((∀ index, index < length → key ≠ pretty index) →
   sent_from_selector key entries = None).
Proof.
  intros Hlength. unfold sent_from_selector, last_with, forEach_entries.
  rewrite Hlength. split.
  - intros index Hindex. rewrite list_filter_filter, filter_mapped.
    cbn [fst snd property_name].
    rewrite (list_filter_iff _ (λ i, i = index)).
    + rewrite filter_seq_index by done. reflexivity.
    + intros i. split; [by intros [Hname%(inj pretty) _]|].
      by intros ->.
  - intros Hkey. rewrite list_filter_filter, filter_mapped.
    cbn [fst snd property_name]. rewrite filter_absent; [done|].
    intros i Hi%elem_of_seq [Hname _]. apply (Hkey i); [lia|done].
Qed.

(** X20. The parameters [getApiQueryParams] derives from a snapshot. Each
    name occurs once, and [uuid] is never among them. What [forEach] hands
    over from the selector under a key other than [__proto__], which an
    assignment does not turn into a property, is sent with its (last)
    value and so replaces
    [orderby], [order], [per_page] and [search] when it bears one of these
    names; where the selector gives nothing, [per_page] is 10, [orderby]
    and [order] are the sort field and direction of the snapshot
    ([undefined] when it has none), [search] is sent only for a non-empty
    search string, and nothing else is sent. From a selector that is not
    array-like its fields other than [uuid] are taken; from one whose
    [length] is a length, the indexed elements below it are taken instead,
    each under its index, and no field. *)
Theorem api_params_of_a_snapshot p key :
  let snapshot := params_or_empty p in
  let entries := default [] (selector snapshot) in
  let sent := λ key, sent_from_selector key entries in
  let api := getApiQueryParams p in
  NoDup api.*1 ∧
  obj_lookup "uuid" api = None ∧
  (∀ v, key ≠ "__proto__" → sent key = Some v →
        obj_lookup key api = Some v) ∧
  (sent "per_page" = None → obj_lookup "per_page" api = Some (JNum 10)) ∧
  (sent "orderby" = None →
   obj_lookup "orderby" api = Some (opt_string (sortBy snapshot))) ∧
  (sent "order" = None →
   obj_lookup "order" api
   = Some (opt_string (direction_name <$> sortDirection snapshot))) ∧
  (sent "search" = None →
   obj_lookup "search" api
   = match search snapshot with
     | Some (SearchText text) =>
         if bool_decide (text = "") then None else Some (JStr text)
     | _ => None
     end) ∧
  (sent key = None →
   key ∉ ["orderby"; "order"; "per_page"; "search"] →
   obj_lookup key api = None) ∧
  (isLength (default JUndefined (obj_get "length" entries)) = None →
   sent key = if bool_decide (key = "uuid") then None
              else snd <$> last_with fst key entries) ∧
  (∀ length,
     isLength (default JUndefined (obj_get "length" entries)) = Some length →
     (∀ index, index < length →
        sent (pretty index)
        = Some (default JUndefined (obj_get (pretty index) entries))) ∧
     ((∀ index, index < length → key ≠ pretty index) → sent key = None)).
Proof.
  intros snapshot entries sent api.
  set (base := [ ("orderby", opt_string (sortBy snapshot));
                 ("order", opt_string (direction_name <$> sortDirection snapshot));
                 ("per_page", JNum 10) ]).
  set (plain := match search snapshot with
                | Some (SearchText text) =>
                    if bool_decide (text = "") then base
                    else obj_set "search" (JStr text) base
                | _ => base
                end).
  assert (Hapi : api = foldl (λ params '(k, v),
                    if bool_decide (k = KeyName "uuid") then params
                    else obj_set (property_name k) v params) plain
                    (forEach_entries (JObj entries))).
  { subst api entries plain base. unfold getApiQueryParams.
    fold snapshot. by destruct (selector snapshot). }
  assert (Hplain : ∀ k, obj_lookup k plain
            = if bool_decide (k = "orderby") then Some (opt_string (sortBy snapshot))
              else if bool_decide (k = "order")
                   then Some (opt_string (direction_name <$> sortDirection snapshot))
              else if bool_decide (k = "per_page") then Some (JNum 10)
              else if bool_decide (k = "search") then
                     match search snapshot with
                     | Some (SearchText text) =>
                         if bool_decide (text = "") then None else Some (JStr text)
                     | _ => None
                     end
              else None).
  { intros k.
    assert (Hbase : obj_lookup k base
              = if bool_decide (k = "orderby")
                then Some (opt_string (sortBy snapshot))
                else if bool_decide (k = "order")
                then Some (opt_string (direction_name <$> sortDirection snapshot))
                else if bool_decide (k = "per_page") then Some (JNum 10)
                else None).
    { subst base. rewrite !obj_lookup_cons. by repeat case_bool_decide. }
    assert (Hsearch : bool_decide (k = "search") = true →
                      obj_lookup k base = None).
    { intros ->%bool_decide_eq_true. by rewrite Hbase. }
    subst plain.
    destruct (search snapshot) as [[text|?]|].
    - destruct (decide (text = "")) as [Htext|Htext].
      + rewrite !(bool_decide_eq_true_2 (text = "")) by done.
        rewrite Hbase. repeat case_bool_decide; done.
      + rewrite !(bool_decide_eq_false_2 (text = "")) by done.
        destruct (decide (k = "search")) as [->|Hk].
        * by rewrite obj_lookup_set_eq.
        * rewrite obj_lookup_set_ne by done. rewrite Hbase.
          by rewrite (bool_decide_eq_false_2 (k = "search")).
    - rewrite Hbase. repeat case_bool_decide; done.
    - rewrite Hbase. repeat case_bool_decide; done. }
  assert (Hbase : NoDup plain.*1).
  { subst plain.
    assert (NoDup base.*1) by (vm_compute; repeat constructor; set_solver).
    destruct (search snapshot) as [[text|?]|]; [case_bool_decide| |]; try done.
    by apply obj_set_NoDup. }
  rewrite Hapi. split; [by apply api_fold_NoDup|].
  split; [by rewrite api_lookup_sent, uuid_is_not_sent, Hplain|].
  split.
  { intros v _ Hsent. rewrite api_lookup_sent. subst sent. simpl in Hsent.
    by rewrite Hsent. }
  subst sent. cbv beta.
  split; [intros Hsent; by rewrite api_lookup_sent, Hsent, Hplain|].
  split; [intros Hsent; by rewrite api_lookup_sent, Hsent, Hplain|].
  split; [intros Hsent; by rewrite api_lookup_sent, Hsent, Hplain|].
  split; [intros Hsent; by rewrite api_lookup_sent, Hsent, Hplain|].
  split.
  { intros Hsent Hkey. rewrite api_lookup_sent, Hsent, Hplain.
    rewrite !not_elem_of_cons in Hkey. destruct Hkey as (? & ? & ? & ? & _).
    rewrite (bool_decide_eq_false_2 (key = "orderby")),
      (bool_decide_eq_false_2 (key = "order")),
      (bool_decide_eq_false_2 (key = "per_page")),
      (bool_decide_eq_false_2 (key = "search")) by done.
    done. }
  split; [apply sent_from_properties|].
  intros length. apply sent_from_elements.
Qed.

(** A selector with a [length]: neither field is sent, the element at
    index 0, which the selector does not have, is. *)
Example api_params_of_an_array_like_selector :
  getApiQueryParams
    (Some (mkParams None None None
             (Some [("length", JNum 1); ("stock", JNum 5)]) [Kselector]))
  = [("0", JUndefined); ("orderby", JUndefined); ("order", JUndefined);
     ("per_page", JNum 10)].
Proof. vm_compute. reflexivity. Qed.

(** *** Resetting a collection *)

Lemma deregisterReplication_frame e m :
  let m' := deregisterReplication e m in
  queryStates m' = queryStates m ∧ queries m' = queries m ∧
  activeCollectionReplications m' = activeCollectionReplications m ∧
  activeQueryReplications m' = activeQueryReplications m ∧
  replicationStates m' = delete e (replicationStates m) ∧
  (∀ r, replication_collection m' r = replication_collection m r) ∧
  (∀ r, replicationStates m !! e ≠ Some r →
        replications m' !! r = replications m !! r) ∧
  (∀ r, replication_canceled m r = Some true →
        replication_canceled m' r = Some true) ∧
  (∀ r, replicationStates m !! e = Some r → is_Some (replications m !! r) →
        replication_canceled m' r = Some true).
Proof.
  unfold deregisterReplication, replication_collection, replication_canceled.
  destruct (replicationStates m !! e) as [r0|] eqn:Hr0; simpl.
  - repeat split; try done.
    + intros r. rewrite list_lookup_alter. case_decide; [|done].
      subst. by destruct (replications m !! r).
    + intros r Hne. rewrite list_lookup_alter_ne; [done|congruence].
    + intros r. rewrite list_lookup_alter. case_decide; [|done].
      subst. by destruct (replications m !! r).
    + intros r [= <-] [o Ho]. by rewrite list_lookup_alter_eq, Ho.
  - repeat split; try done. by rewrite delete_id.
Qed.

Lemma reset_replications_spec name visited m :
  let m' := reset_replications name visited m in
  NoDup visited.*1 →
  (∀ e r, (e, r) ∈ visited → replicationStates m !! e = Some r) →
  (queryStates m' = queryStates m ∧ queries m' = queries m ∧
   activeCollectionReplications m' = activeCollectionReplications m ∧
   activeQueryReplications m' = activeQueryReplications m) ∧
  (∀ r, replication_collection m' r = replication_collection m r) ∧
  (∀ e r, (e, r) ∈ visited → replication_collection m r = Some name →
          replicationStates m' !! e = None ∧
          replication_canceled m' r = Some true) ∧
  (∀ e, (∀ r, (e, r) ∈ visited → replication_collection m r ≠ Some name) →
        replicationStates m' !! e = replicationStates m !! e) ∧
  (∀ r, replication_collection m r ≠ Some name →
        replications m' !! r = replications m !! r) ∧
  (∀ r, replication_canceled m r = Some true →
        replication_canceled m' r = Some true).
Proof.
  unfold reset_replications. revert m.
  induction visited as [|[e0 r0] visited IH]; intros m Hdup Hin.
  { simpl. repeat split; try done; intros; exfalso;
      eapply not_elem_of_nil; eassumption. }
  rewrite fmap_cons in Hdup. apply NoDup_cons in Hdup as [Hfresh Hdup].
  cbn [foldl].
  set (m1 := if bool_decide (replication_collection m r0 = Some name)
             then deregisterReplication e0 m else m).
  assert (Hhead : replicationStates m !! e0 = Some r0)
    by apply Hin, list_elem_of_here.
  destruct (deregisterReplication_frame e0 m)
    as (Hqs & Hq & Hcr & Hqr & Hrs & Hcoll & Hkeep & Hmono & Hcancel).
  assert (Hframe1 : (queryStates m1 = queryStates m ∧ queries m1 = queries m ∧
            activeCollectionReplications m1 = activeCollectionReplications m ∧
            activeQueryReplications m1 = activeQueryReplications m) ∧
            (∀ r, replication_collection m1 r = replication_collection m r) ∧
            (∀ e, e ≠ e0 →
                  replicationStates m1 !! e = replicationStates m !! e) ∧
            (∀ r, replication_canceled m r = Some true →
                  replication_canceled m1 r = Some true)).
  { subst m1. case_bool_decide; [|done].
    repeat split; try done. intros e Hne. rewrite Hrs.
    by rewrite lookup_delete_ne. }
  destruct Hframe1 as ((Hqs1 & Hq1 & Hcr1 & Hqr1) & Hcoll1 & Hrs1 & Hmono1).
  destruct (IH m1 Hdup) as ((Hqs2 & Hq2 & Hcr2 & Hqr2) & Hcoll2 & Hgone2
                            & Hsame2 & Hkeep2 & Hmono2).
  { intros e r Her. rewrite Hrs1.
    - apply Hin. by apply list_elem_of_further.
    - intros ->. apply Hfresh. apply list_elem_of_fmap. by exists (e0, r). }
  split; [by rewrite Hqs2, Hq2, Hcr2, Hqr2|].
  split; [intros r; by rewrite Hcoll2|].
  split; [|split; [|split]].
  - intros e r [[= -> ->]|Her]%elem_of_cons Hname.
    + rewrite Hsame2.
      2: { intros r Her. exfalso. apply Hfresh.
           apply list_elem_of_fmap. by exists (e0, r). }
      assert (Hm1 : m1 = deregisterReplication e0 m)
        by (subst m1; by rewrite bool_decide_eq_true_2).
      split; [by rewrite Hm1, Hrs, lookup_delete_eq|].
      apply Hmono2. rewrite Hm1.
      apply Hcancel; [done|]. unfold replication_collection in Hname.
      by destruct (replications m !! r0).
    + apply Hgone2; [done|]. by rewrite Hcoll1.
  - intros e Hnot. rewrite Hsame2.
    2: { intros r Her. rewrite Hcoll1. apply Hnot.
         by apply list_elem_of_further. }
    destruct (decide (e = e0)) as [->|Hne]; [|by apply Hrs1].
    subst m1. rewrite bool_decide_eq_false_2; [done|].
    apply Hnot, list_elem_of_here.
  - intros r Hname. rewrite Hkeep2 by by rewrite Hcoll1.
    subst m1. case_bool_decide; [|done].
    apply Hkeep. rewrite Hhead. congruence.
  - intros r Hr. by apply Hmono2, Hmono1.
Qed.

Lemma deregisterQuery_frame key m :
  let m' := deregisterQuery key m in
  replicationStates m' = replicationStates m ∧
  replications m' = replications m ∧
  (is_Some (queryStates m !! key) →
   queryStates m' = delete key (queryStates m) ∧
   activeCollectionReplications m'
   = delete key (activeCollectionReplications m) ∧
   activeQueryReplications m' = delete key (activeQueryReplications m)) ∧
  (∀ q, query_collection_of m' q = query_collection_of m q) ∧
  (∀ q, queryStates m !! key ≠ Some q → queries m' !! q = queries m !! q) ∧
  (∀ q, query_canceled m q = Some true → query_canceled m' q = Some true) ∧
  (∀ q, queryStates m !! key = Some q → is_Some (queries m !! q) →
        query_canceled m' q = Some true).
Proof.
  unfold deregisterQuery, query_collection_of, query_canceled.
  destruct (queryStates m !! key) as [q0|] eqn:Hq0; simpl.
  - repeat split; try done.
    + intros q. rewrite list_lookup_alter. case_decide; [|done].
      subst. by destruct (queries m !! q).
    + intros q Hne. rewrite list_lookup_alter_ne; [done|congruence].
    + intros q. rewrite list_lookup_alter. case_decide; [|done].
      subst. by destruct (queries m !! q).
    + intros q [= <-] [o Ho]. by rewrite list_lookup_alter_eq, Ho.
  - repeat split; done.
Qed.

Lemma reset_queries_spec name visited m :
  let m' := reset_queries name visited m in
  NoDup visited.*1 →
  (∀ k q, (k, q) ∈ visited → queryStates m !! k = Some q) →
  (replicationStates m' = replicationStates m ∧
   replications m' = replications m) ∧
  (∀ q, query_collection_of m' q = query_collection_of m q) ∧
  (∀ k q, (k, q) ∈ visited → query_collection_of m q = Some name →
          queryStates m' !! k = None ∧
          activeCollectionReplications m' !! k = None ∧
          activeQueryReplications m' !! k = None ∧
          query_canceled m' q = Some true) ∧
  (∀ k, (∀ q, (k, q) ∈ visited → query_collection_of m q ≠ Some name) →
        queryStates m' !! k = queryStates m !! k ∧
        activeCollectionReplications m' !! k
        = activeCollectionReplications m !! k ∧
        activeQueryReplications m' !! k = activeQueryReplications m !! k) ∧
  (∀ q, query_collection_of m q ≠ Some name →
        queries m' !! q = queries m !! q) ∧
  (∀ q, query_canceled m q = Some true → query_canceled m' q = Some true).
Proof.
  unfold reset_queries. revert m.
  induction visited as [|[k0 q0] visited IH]; intros m Hdup Hin.
  { simpl. repeat split; try done; intros; exfalso;
      eapply not_elem_of_nil; eassumption. }
  rewrite fmap_cons in Hdup. apply NoDup_cons in Hdup as [Hfresh Hdup].
  cbn [foldl].
  set (m1 := if bool_decide (query_collection_of m q0 = Some name)
             then deregisterQuery k0 m else m).
  assert (Hhead : queryStates m !! k0 = Some q0)
    by apply Hin, list_elem_of_here.
  destruct (deregisterQuery_frame k0 m)
    as (Hrs & Hheap & Hdel & Hcoll & Hkeep & Hmono & Hcancel).
  destruct Hdel as (Hqs & Hcr & Hqr); [by rewrite Hhead|].
  assert (Hframe1 : (replicationStates m1 = replicationStates m ∧
            replications m1 = replications m) ∧
            (∀ q, query_collection_of m1 q = query_collection_of m q) ∧
            (∀ k, k ≠ k0 →
               queryStates m1 !! k = queryStates m !! k ∧
               activeCollectionReplications m1 !! k
               = activeCollectionReplications m !! k ∧
               activeQueryReplications m1 !! k
               = activeQueryReplications m !! k) ∧
            (∀ q, query_canceled m q = Some true →
                  query_canceled m1 q = Some true)).
  { subst m1. case_bool_decide; [|done].
    repeat split; try done; rewrite ?Hqs, ?Hcr, ?Hqr;
      by rewrite lookup_delete_ne. }
  destruct Hframe1 as ((Hrs1 & Hheap1) & Hcoll1 & Hother1 & Hmono1).
  destruct (IH m1 Hdup) as ((Hrs2 & Hheap2) & Hcoll2 & Hgone2
                            & Hsame2 & Hkeep2 & Hmono2).
  { intros k q Hkq. destruct (Hother1 k) as (-> & _).
    - intros ->. apply Hfresh. apply list_elem_of_fmap. by exists (k0, q).
    - apply Hin. by apply list_elem_of_further. }
  split; [by rewrite Hrs2, Hheap2|].
  split; [intros q; by rewrite Hcoll2|].
  split; [|split; [|split]].
  - intros k q [[= -> ->]|Hkq]%elem_of_cons Hname.
    + destruct (Hsame2 k0) as (-> & -> & ->).
      { intros q Hkq. exfalso. apply Hfresh.
        apply list_elem_of_fmap. by exists (k0, q). }
      assert (Hm1 : m1 = deregisterQuery k0 m)
        by (subst m1; by rewrite bool_decide_eq_true_2).
      split; [by rewrite Hm1, Hqs, lookup_delete_eq|].
      split; [by rewrite Hm1, Hcr, lookup_delete_eq|].
      split; [by rewrite Hm1, Hqr, lookup_delete_eq|].
      apply Hmono2. rewrite Hm1.
      apply Hcancel; [done|]. unfold query_collection_of in Hname.
      by destruct (queries m !! q0).
    + apply Hgone2; [done|]. by rewrite Hcoll1.
  - intros k Hnot. destruct (Hsame2 k) as (-> & -> & ->).
    { intros q Hkq. rewrite Hcoll1. apply Hnot.
      by apply list_elem_of_further. }
    destruct (decide (k = k0)) as [->|Hne]; [|by apply Hother1].
    subst m1. rewrite bool_decide_eq_false_2; [done|].
    apply Hnot, list_elem_of_here.
  - intros q Hname. rewrite Hkeep2 by by rewrite Hcoll1.
    subst m1. case_bool_decide; [|done].
    apply Hkeep. rewrite Hhead. congruence.
  - intros q Hq. by apply Hmono2, Hmono1.
Qed.

(** X21. [onCollectionReset(collection)] removes the collection from the
    manager and nothing else. Every replication state of the collection
    leaves [replicationStates] and is canceled, and every other entry and
    its replication state stay as they are. Every query on the collection
    leaves [queryStates] and both active registries and is canceled, and
    every other query keeps its three entries and its evaluator. *)
Theorem onCollectionReset_clears_the_collection name m :
  let m' := onCollectionReset name m in
  (∀ e r, replicationStates m !! e = Some r →
     if bool_decide (replication_collection m r = Some name)
     then replicationStates m' !! e = None ∧
          replication_canceled m' r = Some true
     else replicationStates m' !! e = Some r ∧
          replications m' !! r = replications m !! r) ∧
  (∀ k q, queryStates m !! k = Some q →
     if bool_decide (query_collection_of m q = Some name)
     then queryStates m' !! k = None ∧
          activeCollectionReplications m' !! k = None ∧
          activeQueryReplications m' !! k = None ∧
          query_canceled m' q = Some true
     else queryStates m' !! k = Some q ∧
          activeCollectionReplications m' !! k
          = activeCollectionReplications m !! k ∧
          activeQueryReplications m' !! k = activeQueryReplications m !! k ∧
          queries m' !! q = queries m !! q).
Proof.
  intros m'. subst m'. unfold onCollectionReset, onCollectionReset_visiting.
  destruct (reset_replications_spec name (map_to_list (replicationStates m)) m)
    as ((Hqs1 & Hq1 & Hcr1 & Hqr1) & Hcoll1 & Hgone1 & Hsame1 & Hkeep1 & _).
  { apply NoDup_fst_map_to_list. }
  { intros e r. apply elem_of_map_to_list. }
  set (m1 := reset_replications name (map_to_list (replicationStates m)) m) in *.
  assert (Hqcoll : ∀ q, query_collection_of m1 q = query_collection_of m q).
  { intros q. unfold query_collection_of. by rewrite Hq1. }
  destruct (reset_queries_spec name (map_to_list (queryStates m)) m1)
    as ((Hrs2 & Hheap2) & Hcoll2 & Hgone2 & Hsame2 & Hkeep2 & _).
  { apply NoDup_fst_map_to_list. }
  { intros k q. rewrite Hqs1. apply elem_of_map_to_list. }
  split.
  - intros e r Hr. unfold replication_canceled. rewrite Hrs2, Hheap2.
    case_bool_decide as Hname.
    + apply Hgone1; [by apply elem_of_map_to_list|done].
    + rewrite Hsame1, Hkeep1; [done|done|].
      intros r' Hr'%elem_of_map_to_list. congruence.
  - intros k q Hq. case_bool_decide as Hname.
    + apply Hgone2; [by apply elem_of_map_to_list|by rewrite Hqcoll].
    + destruct (Hsame2 k) as (-> & -> & ->).
      { intros q' Hq'%elem_of_map_to_list. rewrite Hqcoll. congruence. }
      rewrite Hkeep2 by by rewrite Hqcoll.
      by rewrite Hqs1, Hcr1, Hqr1, Hq1.
Qed.

End Manager_more.
